(** * settings-kit: the settings store engine

    A shallow embedding of the store engine of [settings-store]
    (path resolver, structural merges, state container, sync engine)
    together with the properties of its specification.

    JavaScript values are modelled with an explicit object heap, so that
    reference identity ([Object.is]), cloning ([{ ...x }]) and in-place
    assignment ([cursor[key] = v]) are the ones of the source. *)

From Stdlib Require Import ZArith Ascii String List Lia Bool DecimalString.
From stdpp Require Import base list strings.

Local Open Scope string_scope.
Local Open Scope list_scope.

(** ** Values and the object heap *)

Abbreviation loc := nat.

(** Primitives are compared by [Object.is] (SameValue), which on primitives
    is equality of the represented value; numbers are represented by [Z].
    Mappings and sequences live in the heap and are compared by address.
    The only heap objects are plain objects and arrays (no dates, no class
    instances), and only own properties are modelled: the model is the
    code's at property names that [Object.prototype] does not define
    ([inheritedKeys] lists the others), and a statement that depends on
    what is read or written through a name says which names it is about.
    Strings are sequences of code units below 256. *)
Inductive value : Type :=
| VUndefined
| VNull
| VBool (b : bool)
| VNum (n : Z)
| VStr (s : string)
| VRef (l : loc).

(** A heap cell: a plain object with its own properties in the order in
    which [Object.entries] lists them, or an array.  For names that are
    not array indices that order is the order of insertion, which is the
    one [setField] keeps; no statement below depends on the order. *)
Inductive obj : Type :=
| OObj (fields : list (string * value))
| OArr (items : list value).

Abbreviation heap := (list obj).

#[global] Instance value_eq_dec : EqDecision value.
Proof. solve_decision. Defined.

#[global] Instance obj_eq_dec : EqDecision obj.
Proof. solve_decision. Defined.

(** [Object.is(a, b)] *)
Definition objectIs (a b : value) : bool := bool_decide (a = b).

Definition alloc (h : heap) (o : obj) : heap * loc := (h ++ [o], length h).

Definition deref (h : heap) (v : value) : option obj :=
  match v with
  | VRef l => h !! l
  | _ => None
  end.

(** [typeof value === "object" && value !== null && !Array.isArray(value)] *)
Definition isObject (h : heap) (v : value) : bool :=
  match deref h v with
  | Some (OObj _) => true
  | _ => false
  end.

(** [Array.isArray(value)] *)
Definition isArray (h : heap) (v : value) : bool :=
  match deref h v with
  | Some (OArr _) => true
  | _ => false
  end.

(** The own properties of a plain object ([[]] for anything else). *)
Definition fieldsOf (h : heap) (v : value) : list (string * value) :=
  match deref h v with
  | Some (OObj fs) => fs
  | _ => []
  end.

(** ** Properties of one object *)

Fixpoint getField (fs : list (string * value)) (k : string) : option value :=
  match fs with
  | [] => None
  | (k', v) :: rest => if String.eqb k' k then Some v else getField rest k
  end.

(** [o[k] = v] on the property list: overwrite in place, or append. *)
Fixpoint setField (fs : list (string * value)) (k : string) (v : value)
  : list (string * value) :=
  match fs with
  | [] => [(k, v)]
  | (k', v') :: rest =>
      if String.eqb k' k then (k', v) :: rest else (k', v') :: setField rest k v
  end.

(** [k in o] *)
Definition hasField (fs : list (string * value)) (k : string) : bool :=
  match getField fs k with Some _ => true | None => false end.

(** [o[k]]: [undefined] for a missing property. *)
Definition readField (fs : list (string * value)) (k : string) : value :=
  match getField fs k with Some v => v | None => VUndefined end.

(** [x[k]] for a value [x] known to be a plain object. *)
Definition readProp (h : heap) (x : value) (k : string) : value :=
  readField (fieldsOf h x) k.

(** [cursor[k] = v] for the plain object at address [l]. *)
Definition writeProp (h : heap) (l : loc) (k : string) (v : value) : heap :=
  match h !! l with
  | Some (OObj fs) => <[l := OObj (setField fs k v)]> h
  | _ => h
  end.

(** Decimal property name of an array index. *)
Definition indexKey (i : nat) : string :=
  NilEmpty.string_of_uint (Nat.to_uint i).

(** The properties copied by [{ ...x }]: the own properties of a plain
    object, the indexed elements of an array, nothing for [null],
    [undefined], numbers and booleans.  A string, which the state type
    [Record<string, unknown>] excludes, is taken to copy nothing. *)
Definition spread (h : heap) (x : value) : list (string * value) :=
  match deref h x with
  | Some (OObj fs) => fs
  | Some (OArr items) => imap (fun i v => (indexKey i, v)) items
  | None => []
  end.

(** ** Path resolver *)

(** The white space [String.prototype.trim] removes, among the code units
    below 256: tab to carriage return, space and the no-break space. *)
Definition isWhite (c : ascii) : bool :=
  let n := nat_of_ascii c in
  (Nat.eqb n 32) || ((Nat.leb 9 n) && (Nat.leb n 13)) || (Nat.eqb n 160).

Fixpoint trimStart (s : string) : string :=
  match s with
  | String c rest => if isWhite c then trimStart rest else s
  | EmptyString => EmptyString
  end.

(** Drops the trailing white space: a character is kept when something
    that is kept follows it, or when it is not white space itself. *)
Fixpoint trimEnd (s : string) : string :=
  match s with
  | EmptyString => EmptyString
  | String c rest =>
      match trimEnd rest with
      | EmptyString => if isWhite c then EmptyString else String c EmptyString
      | kept => String c kept
      end
  end.

Definition trim (s : string) : string := trimEnd (trimStart s).

(** [s.split(".")] *)
Fixpoint splitDots (s : string) : list string :=
  match s with
  | EmptyString => [EmptyString]
  | String c rest =>
      if Ascii.eqb c "."%char then EmptyString :: splitDots rest
      else match splitDots rest with
           | [] => [String c EmptyString]
           | seg :: segs => String c seg :: segs
           end
  end.

(** [Boolean(part)] on a string: non-empty. *)
Definition nonEmpty (s : string) : bool :=
  match s with EmptyString => false | _ => true end.

Definition parsePath (path : string) : list string :=
  filter (fun part => nonEmpty part = true) (map trim (splitDots path)).

(** The loop of [getByPath]; [part in current] and [current[part]] are
    read off the own properties, which is what they are at ordinary
    names. *)
Fixpoint getParts (h : heap) (current : value) (parts : list string) : value :=
  match parts with
  | [] => current
  | part :: rest =>
      if negb (isObject h current) || negb (hasField (fieldsOf h current) part)
      then VUndefined
      else getParts h (readProp h current part) rest
  end.

Definition getByPath (h : heap) (input : value) (path : string) : value :=
  let parts := parsePath path in
  match parts with
  | [] => input
  | _ => getParts h input parts
  end.

(** The loop of [setByPath] followed by the final assignment: [cursor] is
    the address of the clone being filled.  [cursor[key] = x] adds or
    overwrites an own property, which is what it does at every name but
    [__proto__]. *)
Fixpoint setParts (h : heap) (cursor : loc) (parts : list string) (v : value)
  : heap :=
  match parts with
  | [] => h
  | [last] => writeProp h cursor last v
  | key :: rest =>
      let next := readProp h (VRef cursor) key in
      let '(h1, branch) :=
        alloc h (OObj (if isObject h next then spread h next else [])) in
      let h2 := writeProp h1 cursor key (VRef branch) in
      setParts h2 branch rest v
  end.

Definition setByPath (h : heap) (state : value) (path : string) (v : value)
  : heap * value :=
  let parts := parsePath path in
  match parts with
  | [] => (h, state)
  | _ =>
      let '(h1, cloneRoot) := alloc h (OObj (spread h state)) in
      (setParts h1 cloneRoot parts v, VRef cloneRoot)
  end.

(** ** Structural merge engine *)

(** [for (const [key, value] of Object.entries(x)) body], the loop state
    being threaded through [body]; [None] when a call inside ran out of
    fuel. *)
Fixpoint forEntries {A : Type} (body : A -> string -> value -> option A)
  (entries : list (string * value)) (a : A) : option A :=
  match entries with
  | [] => Some a
  | (key, v) :: rest =>
      match body a key v with
      | Some a' => forEntries body rest a'
      | None => None
      end
  end.

(** The elements copied by [[...x]]. *)
Definition itemsOf (h : heap) (x : value) : list value :=
  match deref h x with
  | Some (OArr items) => items
  | _ => []
  end.

(** [mergeNode] of [deepMerge].  The recursion follows the incoming tree,
    which the heap does not make structurally smaller: [fuel] bounds the
    nesting depth ([None] stands for the recursion not returning).
    [output[key]] is read and written as an own property, which is what
    it is at the ordinary keys of the incoming tree. *)
Fixpoint deepMergeNode (fuel : nat) (h : heap) (left right : value)
  : option (heap * value) :=
  match fuel with
  | O => None
  | S fuel' =>
      if isArray h right then
        let '(h1, copy) := alloc h (OArr (itemsOf h right)) in
        Some (h1, VRef copy)
      else if negb (isObject h right) then Some (h, right)
      else if negb (isObject h left) then
        let '(h1, copy) := alloc h (OObj (fieldsOf h right)) in
        Some (h1, VRef copy)
      else
        let '(h1, output) := alloc h (OObj (fieldsOf h left)) in
        match
          forEntries
            (fun hc key v =>
               match deepMergeNode fuel' hc (readProp hc (VRef output) key) v with
               | Some (h', merged) => Some (writeProp h' output key merged)
               | None => None
               end)
            (fieldsOf h right) h1
        with
        | Some h2 => Some (h2, VRef output)
        | None => None
        end
  end.

Definition deepMerge (fuel : nat) (h : heap) (base incoming : value)
  : option (heap * value) :=
  deepMergeNode fuel h base incoming.

(** [path ? `${path}.${key}` : key] *)
Definition nextPath (path key : string) : string :=
  if nonEmpty path then (path ++ "." ++ key)%string else key.

(** [mergeNode] of [mergeSkippingConflicts]; the [conflicts] array of the
    enclosing call is threaded through.  [output[key]] is read and
    written as an own property, as in [deepMergeNode]. *)
Fixpoint skipMergeNode (fuel : nat) (h : heap) (conflicts : list string)
  (left right : value) (path : string)
  : option (heap * list string * value) :=
  match fuel with
  | O => None
  | S fuel' =>
      if objectIs left right then Some (h, conflicts, left)
      else if isArray h right then
        if objectIs left VUndefined then
          let '(h1, copy) := alloc h (OArr (itemsOf h right)) in
          Some (h1, conflicts, VRef copy)
        else Some (h, conflicts ++ [path], left)
      else if negb (isObject h right) then
        if objectIs left VUndefined then Some (h, conflicts, right)
        else Some (h, conflicts ++ [path], left)
      else if negb (isObject h left) then
        if objectIs left VUndefined then
          let '(h1, copy) := alloc h (OObj (fieldsOf h right)) in
          Some (h1, conflicts, VRef copy)
        else Some (h, conflicts ++ [path], left)
      else
        let '(h1, output) := alloc h (OObj (fieldsOf h left)) in
        match
          forEntries
            (fun (st : heap * list string) key v =>
               let '(hc, cs) := st in
               match skipMergeNode fuel' hc cs
                       (readProp hc (VRef output) key) v (nextPath path key) with
               | Some (h', cs', merged) =>
                   Some (writeProp h' output key merged, cs')
               | None => None
               end)
            (fieldsOf h right) (h1, conflicts)
        with
        | Some (h2, cs2) => Some (h2, cs2, VRef output)
        | None => None
        end
  end.

(** Returns the heap, the merged state and the conflicting paths. *)
Definition mergeSkippingConflicts (fuel : nat) (h : heap)
  (current incoming : value) : option (heap * value * list string) :=
  match skipMergeNode fuel h [] current incoming "" with
  | Some (h', conflicts, st) => Some (h', st, conflicts)
  | None => None
  end.

(** ** The store *)

Definition error := string.

(** How a call returns to its caller. *)
Inductive completion (A : Type) : Type :=
| Returned (a : A)
| Threw (e : error).
Arguments Returned {A} a.
Arguments Threw {A} e.

(** What [adapter.push(state)] does: it returns (a value or a promise that
    fulfils), returns a promise that rejects, or throws before returning. *)
Inductive pushResult : Type :=
| PushFulfils
| PushRejects (e : error)
| PushThrows (e : error).

(** A sync adapter.  [adapterId] is the identity of the adapter object (the
    active set is a [Set] of objects); optional members are options.  The
    trees an adapter delivers are values of the store's heap: [pull] is
    the value its promise fulfils with (a pull that rejects is not
    modelled), [subscribe] tells whether it returns an unsubscribe
    function. *)
Record syncAdapter : Type := {
  adapterId : nat;
  pull : option value;
  push : value -> pushResult;
  subscribe : option bool;
  merge : option (heap -> value -> value -> heap * value);
  validate : option (heap -> value -> bool);
  onError : bool
}.

(** A persistence adapter: what [load] and [loadSync] yield ([VNull] when
    nothing is stored); [save] is observed in the trace. *)
Record persistenceAdapter : Type := {
  load : value;
  loadSync : option value
}.

Inductive source : Type :=
| SrcSet | SrcSetState | SrcReset | SrcHydrate | SrcImport | SrcSync.

(** The [path], [value], [previousValue] members of a state-change event. *)
Definition detail : Type := option (string * value * value).

(** Calls the store makes to its collaborators.  The observers and [save]
    are taken to return normally: of the collaborators' failures only
    those of [push] are modelled. *)
Inductive event : Type :=
| ESave (st : value)
| EPush (adapter : nat) (st : value)
| EOnError (adapter : nat) (e : error)
| EStateChange (src : source) (st previousState : value) (d : detail)
| ENotify (listener : nat)
| EChange (path : string) (v previousValue st : value)
| EUnsubscribe (adapter : nat).

(** The closure state of [createSettingsStore], the heap, the calls made so
    far (oldest first) and the pending [.catch] reactions of rejected
    pushes, which run as microtasks after the current call has returned. *)
Record store : Type := {
  heapOf : heap;
  initialState : value;
  state : value;
  persistence : option persistenceAdapter;
  onChange : bool;
  onStateChange : bool;
  listeners : list nat;
  syncAdapters : list syncAdapter;
  stoppedSessions : list nat;
  sessions : nat;
  trace : list event;
  microtasks : list (syncAdapter * error)
}.

Definition withHeap (s : store) (h : heap) : store :=
  {| heapOf := h; initialState := initialState s; state := state s;
     persistence := persistence s; onChange := onChange s;
     onStateChange := onStateChange s; listeners := listeners s;
     syncAdapters := syncAdapters s; stoppedSessions := stoppedSessions s;
     sessions := sessions s; trace := trace s; microtasks := microtasks s |}.

Definition withState (s : store) (v : value) : store :=
  {| heapOf := heapOf s; initialState := initialState s; state := v;
     persistence := persistence s; onChange := onChange s;
     onStateChange := onStateChange s; listeners := listeners s;
     syncAdapters := syncAdapters s; stoppedSessions := stoppedSessions s;
     sessions := sessions s; trace := trace s; microtasks := microtasks s |}.

Definition withListeners (s : store) (ls : list nat) : store :=
  {| heapOf := heapOf s; initialState := initialState s; state := state s;
     persistence := persistence s; onChange := onChange s;
     onStateChange := onStateChange s; listeners := ls;
     syncAdapters := syncAdapters s; stoppedSessions := stoppedSessions s;
     sessions := sessions s; trace := trace s; microtasks := microtasks s |}.

Definition withAdapters (s : store) (ads : list syncAdapter) : store :=
  {| heapOf := heapOf s; initialState := initialState s; state := state s;
     persistence := persistence s; onChange := onChange s;
     onStateChange := onStateChange s; listeners := listeners s;
     syncAdapters := ads; stoppedSessions := stoppedSessions s;
     sessions := sessions s; trace := trace s; microtasks := microtasks s |}.

Definition withSessions (s : store) (stopped : list nat) (n : nat) : store :=
  {| heapOf := heapOf s; initialState := initialState s; state := state s;
     persistence := persistence s; onChange := onChange s;
     onStateChange := onStateChange s; listeners := listeners s;
     syncAdapters := syncAdapters s; stoppedSessions := stopped;
     sessions := n; trace := trace s; microtasks := microtasks s |}.

Definition withTrace (s : store) (t : list event) : store :=
  {| heapOf := heapOf s; initialState := initialState s; state := state s;
     persistence := persistence s; onChange := onChange s;
     onStateChange := onStateChange s; listeners := listeners s;
     syncAdapters := syncAdapters s; stoppedSessions := stoppedSessions s;
     sessions := sessions s; trace := t; microtasks := microtasks s |}.

Definition withMicrotasks (s : store) (q : list (syncAdapter * error)) : store :=
  {| heapOf := heapOf s; initialState := initialState s; state := state s;
     persistence := persistence s; onChange := onChange s;
     onStateChange := onStateChange s; listeners := listeners s;
     syncAdapters := syncAdapters s; stoppedSessions := stoppedSessions s;
     sessions := sessions s; trace := trace s; microtasks := q |}.

Definition emit (s : store) (e : event) : store := withTrace s (trace s ++ [e]).

(** JavaScript truthiness, as tested by [if (persisted)] and [if (incoming)]. *)
Definition truthy (v : value) : bool :=
  match v with
  | VUndefined | VNull => false
  | VBool b => b
  | VNum n => negb (Z.eqb n 0)
  | VStr s => nonEmpty s
  | VRef _ => true
  end.

Definition createSettingsStore (h : heap) (initial : value)
  (p : option persistenceAdapter) (withOnChange withOnStateChange : bool)
  : store :=
  let st :=
    match p with
    | Some pa =>
        match loadSync pa with
        | Some persisted => if truthy persisted then persisted else initial
        | None => initial
        end
    | None => initial
    end in
  {| heapOf := h; initialState := initial; state := st;
     persistence := p; onChange := withOnChange;
     onStateChange := withOnStateChange; listeners := [];
     syncAdapters := []; stoppedSessions := []; sessions := 0;
     trace := []; microtasks := [] |}.

(** [listeners.forEach((listener) => listener())].  The collaborators
    of the store (the listeners, the observers and the persistence
    adapter) are called, which the trace records, and taken to return;
    only a push may throw. *)
Definition notify (s : store) : store :=
  withTrace s (trace s ++ map ENotify (listeners s)).

(** [persist]: the call of [persistence.save], if there is an adapter. *)
Definition persist (s : store) (nextState : value) : store :=
  match persistence s with
  | None => s
  | Some _ => emit s (ESave nextState)
  end.

(** [syncAdapters.forEach] of [syncPush] over the adapters still to visit.
    A push that throws leaves the callback, and so the [forEach], at once;
    a rejection queues the [.catch] reaction. *)
Fixpoint syncPushEach (s : store) (adapters : list syncAdapter)
  (nextState : value) : store * completion unit :=
  match adapters with
  | [] => (s, Returned tt)
  | adapter :: rest =>
      let s1 := emit s (EPush (adapterId adapter) nextState) in
      match push adapter nextState with
      | PushThrows e => (s1, Threw e)
      | PushRejects e =>
          syncPushEach (withMicrotasks s1 (microtasks s1 ++ [(adapter, e)]))
            rest nextState
      | PushFulfils => syncPushEach s1 rest nextState
      end
  end.

Definition syncPush (s : store) (nextState : value) : store * completion unit :=
  syncPushEach s (syncAdapters s) nextState.

(** The reaction [(error) => { adapter.onError?.(error); }]. *)
Definition runCatch (s : store) (t : syncAdapter * error) : store :=
  if onError (fst t) then emit s (EOnError (adapterId (fst t)) (snd t)) else s.

(** Runs the pending microtasks, once the current call has returned. *)
Definition runMicrotasks (s : store) : store :=
  withMicrotasks (fold_left runCatch (microtasks s) s) [].

(** [commitState(nextState, event, options)]; [optPersist] and [optSync]
    are [options?.persist ?? true] and [options?.sync ?? true]. *)
Definition commitState (s : store) (nextState : value) (src : source)
  (d : detail) (optPersist optSync : bool) : store * completion unit :=
  if objectIs nextState (state s) then (s, Returned tt)
  else
    let previousState := state s in
    let s1 := withState s nextState in
    let s2 := if optPersist then persist s1 nextState else s1 in
    let '(s3, pushed) :=
      if optSync then syncPush s2 nextState else (s2, Returned tt) in
    match pushed with
    | Threw e => (s3, Threw e)
    | Returned _ =>
        let s4 :=
          if onStateChange s3
          then emit s3 (EStateChange src nextState previousState d)
          else s3 in
        (notify s4, Returned tt)
    end.

Module Store.

Definition getInitialState (s : store) : value := initialState s.

Definition getState (s : store) : value := state s.

(** [setState] with a literal tree, or with the tree its updater returned. *)
Definition setState (s : store) (nextState : value) : store * completion unit :=
  commitState s nextState SrcSetState None true true.

Definition reset (s : store) : store * completion unit :=
  commitState s (initialState s) SrcReset None true true.

Definition get (s : store) (path : string) : value :=
  getByPath (heapOf s) (state s) path.

Definition set (s : store) (path : string) (v : value)
  : store * completion unit :=
  let previousValue := getByPath (heapOf s) (state s) path in
  let '(h1, nextState) := setByPath (heapOf s) (state s) path v in
  let s1 := withHeap s h1 in
  if objectIs previousValue v then (s1, Returned tt)
  else
    let '(s2, committed) :=
      commitState s1 nextState SrcSet (Some (path, v, previousValue))
        true true in
    match committed with
    | Threw e => (s2, Threw e)
    | Returned _ =>
        (if onChange s2 then emit s2 (EChange path v previousValue nextState)
         else s2, Returned tt)
    end.


Inductive strategy : Type := Replace | Merge | SkipConflicts.

(** [options.deserialize] applies to textual blobs only and is not part
    of the model: [importSettings] is given the candidate it yields. *)
Record importOptions : Type := {
  optStrategy : option strategy;
  optValidate : option (heap -> value -> bool)
}.

Record importResult : Type := {
  applied : bool;
  strategyUsed : strategy;
  conflicts : list string
}.

(** [importSettings] from the decoded candidate on; [None] when a merge
    runs out of [fuel]. *)
Definition importSettings (fuel : nat) (s : store) (candidate : value)
  (options : importOptions) : option (store * completion importResult) :=
  let strat :=
    match optStrategy options with Some x => x | None => Replace end in
  if negb (isObject (heapOf s) candidate)
  then Some (s, Threw "Imported settings must be an object.")
  else if match optValidate options with
          | Some ok => negb (ok (heapOf s) candidate)
          | None => false
          end
  then Some (s, Threw "Imported settings failed validation.")
  else
    let incoming := candidate in
    let merged : option (heap * value * list string) :=
      match strat with
      | Replace => Some (heapOf s, incoming, [])
      | Merge =>
          match deepMerge fuel (heapOf s) (state s) incoming with
          | Some (h', nextState) => Some (h', nextState, [])
          | None => None
          end
      | SkipConflicts =>
          mergeSkippingConflicts fuel (heapOf s) (state s) incoming
      end in
    match merged with
    | None => None
    | Some (h', nextState, cs) =>
        let s1 := withHeap s h' in
        let isApplied := negb (objectIs nextState (state s1)) in
        let '(s2, committed) :=
          if isApplied
          then commitState s1 nextState SrcImport None true true
          else (s1, Returned tt) in
        match committed with
        | Threw e => Some (s2, Threw e)
        | Returned _ =>
            Some (s2, Returned {| applied := isApplied;
                                  strategyUsed := strat;
                                  conflicts := cs |})
        end
    end.

(** [syncAdapters.add(adapter)] *)
Definition addAdapter (s : store) (adapter : syncAdapter) : store :=
  if existsb (fun a => Nat.eqb (adapterId a) (adapterId adapter))
       (syncAdapters s)
  then s
  else withAdapters s (syncAdapters s ++ [adapter]).

(** [adapter.validate && !adapter.validate(incoming)] *)
Definition failsValidation (s : store) (adapter : syncAdapter)
  (incoming : value) : bool :=
  match validate adapter with
  | Some ok => negb (ok (heapOf s) incoming)
  | None => false
  end.

(** [adapter.merge ? adapter.merge(store.getState(), incoming) : incoming] *)
Definition mergedWith (s : store) (adapter : syncAdapter) (incoming : value)
  : store * value :=
  match merge adapter with
  | Some f =>
      let '(h', merged) := f (heapOf s) (getState s) incoming in
      (withHeap s h', merged)
  | None => (s, incoming)
  end.

(** The synchronous start of [syncSettings], up to the awaited pull: the
    adapter joins the active set and the call gets its own [stopped]
    flag, named by a fresh session number. *)
Definition syncSettingsStart (s : store) (adapter : syncAdapter)
  : store * nat :=
  let s1 := addAdapter s adapter in
  (withSessions s1 (stoppedSessions s1) (S (sessions s1)), sessions s1).

(** The rest of [syncSettings], once the pull has resolved with [pulled]
    ([None] when the adapter has no [pull]).  The session number stands
    for the returned stop function. *)
Definition syncSettingsResume (s : store) (adapter : syncAdapter)
  (session : nat) (pulled : option value) : store * completion nat :=
  let '(s1, setup) :=
    match pulled with
    | Some incoming =>
        if truthy incoming then
          if failsValidation s adapter incoming
          then (s, Threw "Pulled settings failed sync adapter validation.")
          else
            let '(s', merged) := mergedWith s adapter incoming in
            commitState s' merged SrcSync None true false
        else (s, Returned tt)
    | None => (s, Returned tt)
    end in
  match setup with
  | Threw e => (s1, Threw e)
  | Returned _ => (s1, Returned session)
  end.

(** [syncSettings] with nothing else running while the pull is awaited. *)
Definition syncSettings (s : store) (adapter : syncAdapter)
  : store * completion nat :=
  let '(s1, session) := syncSettingsStart s adapter in
  syncSettingsResume s1 adapter session (pull adapter).

(** The listener handed to [adapter.subscribe]. *)
Definition inbound (s : store) (adapter : syncAdapter) (session : nat)
  (incoming : value) : store * completion unit :=
  if existsb (Nat.eqb session) (stoppedSessions s) then (s, Returned tt)
  else if failsValidation s adapter incoming then (s, Returned tt)
  else
    let '(s', merged) := mergedWith s adapter incoming in
    commitState s' merged SrcSync None true false.

(** The stop function returned by [syncSettings]. *)
Definition stopSync (s : store) (adapter : syncAdapter) (session : nat)
  : store :=
  let s1 := withSessions s (session :: stoppedSessions s) (sessions s) in
  let s2 :=
    withAdapters s1
      (List.filter
         (fun a => negb (Nat.eqb (adapterId a) (adapterId adapter)))
         (syncAdapters s1)) in
  match subscribe adapter with
  | Some true => emit s2 (EUnsubscribe (adapterId adapter))
  | _ => s2
  end.

(** [subscribe(listener)]: the listeners are a [Set]. *)
Definition subscribe (s : store) (listener : nat) : store :=
  if existsb (Nat.eqb listener) (listeners s) then s
  else withListeners s (listeners s ++ [listener]).

Definition unsubscribe (s : store) (listener : nat) : store :=
  withListeners s
    (List.filter (fun l => negb (Nat.eqb listener l)) (listeners s)).

End Store.

(** ** Notions used in the statements *)

(** Everything of the store that a commit leaves alone: the heap, the
    initial snapshot, the collaborators and the registries. *)
Definition sameSetup (s s' : store) : Prop :=
  heapOf s' = heapOf s /\ initialState s' = initialState s /\
  persistence s' = persistence s /\ onChange s' = onChange s /\
  onStateChange s' = onStateChange s /\ listeners s' = listeners s /\
  syncAdapters s' = syncAdapters s /\
  stoppedSessions s' = stoppedSessions s /\ sessions s' = sessions s.

(** A run of [set] calls, each on the store the previous one left. *)
Fixpoint setMany (s : store) (calls : list (string * value)) : store :=
  match calls with
  | [] => s
  | (path, v) :: rest => setMany (fst (Store.set s path v)) rest
  end.

(** The [.catch] reactions queued by one round of pushes. *)
Definition rejections (st : value) (adapters : list syncAdapter)
  : list (syncAdapter * error) :=
  flat_map (fun a => match push a st with
                     | PushRejects e => [(a, e)]
                     | _ => []
                     end) adapters.

(** The [onError] calls made for the queued reactions. *)
Definition errorCalls (q : list (syncAdapter * error)) : list event :=
  flat_map (fun t => if onError (fst t)
                     then [EOnError (adapterId (fst t)) (snd t)] else []) q.

Definition withStrategy (x : Store.strategy) : Store.importOptions :=
  {| Store.optStrategy := Some x; Store.optValidate := None |}.

(** What an import call leaves to observe. *)
Definition importView (r : option (store * completion Store.importResult))
  : option (completion Store.importResult * value * list event) :=
  match r with
  | Some (s, c) => Some (c, state s, trace s)
  | None => None
  end.

(** The calls a commit makes when its push step is switched off. *)
Definition quietCommitCalls (s : store) (src : source) (nextState : value)
  (d : detail) : list event :=
  (match persistence s with Some _ => [ESave nextState] | None => [] end)
  ++ (if onStateChange s
      then [EStateChange src nextState (state s) d] else [])
  ++ map ENotify (listeners s).

(** What a skip-conflicts merge leaves to observe at two paths. *)
Definition mergeView (r : option (heap * value * list string)) (p q : string)
  : option (value * value * list string) :=
  match r with
  | Some (h', st, cs) => Some (getByPath h' st p, getByPath h' st q, cs)
  | None => None
  end.

(** ** Skip-conflicts merge: the walk and its law *)

(** A value that does not point outside a heap of [n] cells. *)
Definition validIn (n : nat) (v : value) : Prop :=
  match v with
  | VRef l => l < n
  | _ => True
  end.

(** A plain object has distinct property names and no dangling property. *)
Definition cellOk (n : nat) (o : obj) : Prop :=
  match o with
  | OObj fs => NoDup (map fst fs) /\ Forall (fun kv => validIn n (snd kv)) fs
  | OArr _ => True
  end.

Definition wellFormed (h : heap) : Prop := Forall (cellOk (length h)) h.

(** Mappings are nested at most [d] deep below [v]. *)
Fixpoint nesting (d : nat) (h : heap) (v : value) : bool :=
  match d with
  | O => negb (isObject h v)
  | S d' => forallb (fun kv => nesting d' h (snd kv)) (fieldsOf h v)
  end.

(** [h'] is [h] with cells added. *)
Definition extends (h h' : heap) : Prop :=
  length h <= length h' /\ forall l, l < length h -> h' !! l = h !! l.

(** [h'] has the cells that [h] has at the addresses from [lo] up to [hi]. *)
Definition agreeOn (lo hi : nat) (h h' : heap) : Prop :=
  forall l, lo <= l -> l < hi -> h' !! l = h !! l.

(** The nodes the walk of [mergeNode] reaches from the pair
    [(left, right)]: it goes down a key of [right] only where the two
    sides hold mappings that are not the same object.  [visits h left
    right keys l r]: the walk reaches [keys] and finds [l] and [r] there. *)
Inductive visits (h : heap)
  : value -> value -> list string -> value -> value -> Prop :=
| visits_here left right : visits h left right [] left right
| visits_child left right key v keys l r :
    left <> right ->
    isObject h left = true ->
    isObject h right = true ->
    getField (fieldsOf h right) key = Some v ->
    visits h (readProp h left key) v keys l r ->
    visits h left right (key :: keys) l r.

(** The current side has a defined value, another one than the incoming
    side, and the two are not both mappings. *)
Definition conflictAt (h : heap) (l r : value) : Prop :=
  l <> r /\ l <> VUndefined /\ ~ (isObject h l = true /\ isObject h r = true).

(** [res] is the incoming value [r] as the merge adopts it: [r] itself
    when it is a primitive, a new cell with the contents of [r]'s cell
    when it is a mapping or a sequence. *)
Definition adopts (h h' : heap) (lo : nat) (r res : value) : Prop :=
  match deref h r with
  | Some o => exists l, res = VRef l /\ lo <= l /\ h' !! l = Some o
  | None => res = r
  end.

(** The path string [mergeNode] builds for [keys] below [path]. *)
Definition pathFrom (path : string) (keys : list string) : string :=
  fold_left nextPath keys path.

Definition pathString (keys : list string) : string := pathFrom "" keys.

(** What the merged value [res], read in [h'], holds at the visited nodes,
    and which of their paths are among the conflicts [new]. *)
Definition mergedAs (h : heap) (left right : value) (path : string)
  (lo : nat) (h' : heap) (res : value) (new : list string) : Prop :=
  forall keys l r,
    visits h left right keys l r ->
    (l = r -> getParts h' res keys = l) /\
    (conflictAt h l r ->
     getParts h' res keys = l /\ In (pathFrom path keys) new) /\
    (l = VUndefined -> r <> VUndefined ->
     adopts h h' lo r (getParts h' res keys)) /\
    (l <> r -> isObject h l = true -> isObject h r = true ->
     forall key, getField (fieldsOf h r) key = None ->
                 getParts h' res (keys ++ [key]) = readProp h l key).

(** Every recorded path is the path of a visited node in conflict. *)
Definition recordedOnly (h : heap) (left right : value) (path : string)
  (new : list string) : Prop :=
  forall p, In p new ->
    exists keys l r,
      visits h left right keys l r /\ pathFrom path keys = p /\
      conflictAt h l r.

(** The law of [mergeNode] for calls with [fuel]. *)
Definition nodeLaw (fuel : nat) : Prop :=
  forall d h0 h cs left right path,
    wellFormed h0 -> extends h0 h ->
    validIn (length h0) left -> validIn (length h0) right ->
    nesting d h0 right = true -> d < fuel ->
    exists h' new res,
      skipMergeNode fuel h cs left right path = Some (h', cs ++ new, res) /\
      extends h h' /\
      (forall h'', agreeOn (length h) (length h') h' h'' ->
                   mergedAs h0 left right path (length h) h'' res new) /\
      recordedOnly h0 left right path new.

(** The body of the loop over the incoming entries. *)
Definition skipBody (fuel : nat) (output : loc) (path : string)
  (st : heap * list string) (key : string) (v : value)
  : option (heap * list string) :=
  let '(hc, cs) := st in
  match skipMergeNode fuel hc cs (readProp hc (VRef output) key) v
          (nextPath path key) with
  | Some (h', cs', merged) => Some (writeProp h' output key merged, cs')
  | None => None
  end.

(** ** Sample inputs *)

(** The tree [{ a: { b: 1 } }], rooted at address 0. *)
Definition nestedHeap : heap :=
  [OObj [("a", VRef 1)]; OObj [("b", VNum 1)]].

Definition nestedRoot : value := VRef 0.


(** A persistence adapter holding [{ b: 1 }], the tree at address 1. *)
Definition storedBranch : persistenceAdapter :=
  {| load := VRef 1; loadSync := Some (VRef 1) |}.

(** The tree [{ x: 1 }] at address 0 and the tree [{ x: 2 }] at address 1. *)
Definition flatHeap : heap := [OObj [("x", VNum 1)]; OObj [("x", VNum 2)]].

(** An adapter whose [push] is a plain function that throws. *)
Definition throwingAdapter : syncAdapter :=
  {| adapterId := 1; pull := None;
     push := fun _ => PushThrows "network failure";
     subscribe := None; merge := None; validate := None; onError := true |}.

(** An adapter whose [push] returns a promise that rejects. *)
Definition rejectingAdapter : syncAdapter :=
  {| adapterId := 3; pull := None;
     push := fun _ => PushRejects "network failure";
     subscribe := None; merge := None; validate := None; onError := true |}.

Definition quietAdapter : syncAdapter :=
  {| adapterId := 2; pull := None; push := fun _ => PushFulfils;
     subscribe := None; merge := None; validate := None; onError := true |}.

(** A store over [{ x: 1 }] with the throwing adapter registered before
    the quiet one. *)
Definition throwingStore : store :=
  fst (Store.syncSettings
         (fst (Store.syncSettings
                 (createSettingsStore flatHeap (VRef 0) None false false)
                 throwingAdapter))
         quietAdapter).

(** The same with the rejecting adapter in place of the throwing one. *)
Definition rejectingStore : store :=
  fst (Store.syncSettings
         (fst (Store.syncSettings
                 (createSettingsStore flatHeap (VRef 0) None false false)
                 rejectingAdapter))
         quietAdapter).

(** Two separate trees [{ x: 1 }], at addresses 0 and 1. *)
Definition equalHeap : heap := [OObj [("x", VNum 1)]; OObj [("x", VNum 1)]].

(** A store over the first of them, with a persistence adapter, the
    state-change observer and one subscriber. *)
Definition equalStore : store :=
  Store.subscribe
    (createSettingsStore equalHeap (VRef 0)
       (Some {| load := VNull; loadSync := None |}) false true)
    7.



(** An adapter that pulls the tree [{ x: 2 }] at address 1. *)
Definition pullingAdapter : syncAdapter :=
  {| adapterId := 4; pull := Some (VRef 1); push := fun _ => PushFulfils;
     subscribe := Some true; merge := None; validate := None;
     onError := false |}.

(** A store over [{ x: 1 }] with a persistence adapter and the quiet
    adapter registered. *)
Definition syncedStore : store :=
  fst (Store.syncSettings
         (createSettingsStore flatHeap (VRef 0)
            (Some {| load := VNull; loadSync := None |}) false false)
         quietAdapter).

(** An adapter whose validator rejects every tree; it pulls [{ x: 2 }]. *)
Definition strictAdapter : syncAdapter :=
  {| adapterId := 5; pull := Some (VRef 1); push := fun _ => PushFulfils;
     subscribe := Some true; merge := None;
     validate := Some (fun _ _ => false); onError := true |}.

(** A store over [{ x: 1 }] whose persistence adapter has [{ x: 2 }]
    stored, with the state-change observer and one subscriber. *)
Definition hydratableStore : store :=
  Store.subscribe
    (createSettingsStore flatHeap (VRef 0)
       (Some {| load := VRef 1; loadSync := None |}) false true)
    7.

(** The trees [{ a: { x: 1 } }] (address 0) and [{ a: { y: 2 } }]
    (address 2), and the trees [{ a: 5 }] (address 4) and
    [{ a: { b: 1 } }] (address 5). *)
Definition mergeHeap : heap :=
  [OObj [("a", VRef 1)]; OObj [("x", VNum 1)];
   OObj [("a", VRef 3)]; OObj [("y", VNum 2)];
   OObj [("a", VNum 5)];
   OObj [("a", VRef 6)]; OObj [("b", VNum 1)]].

(** The state of the repository's tests,
    [{ appearance: { theme: "dark" }, notifications: { enabled: true } }]
    at address 0, and three partial trees to import:
    [{ appearance: { theme: "light" } }] (address 3),
    [{ notifications: { enabled: false } }] (address 5) and
    [{ notifications: { enabled: true } }] (address 7). *)
Definition demoHeap : heap :=
  [OObj [("appearance", VRef 1); ("notifications", VRef 2)];
   OObj [("theme", VStr "dark")]; OObj [("enabled", VBool true)];
   OObj [("appearance", VRef 4)]; OObj [("theme", VStr "light")];
   OObj [("notifications", VRef 6)]; OObj [("enabled", VBool false)];
   OObj [("notifications", VRef 8)]; OObj [("enabled", VBool true)]].

Definition demoStore : store :=
  createSettingsStore demoHeap (VRef 0) None true true.

(** The store an import leaves ([s] itself if the import did not return). *)
Definition afterImport (s : store)
  (r : option (store * completion Store.importResult)) : store :=
  match r with
  | Some (s', _) => s'
  | None => s
  end.

(** ** Notions used in the further properties *)

(** The calls of a commit that runs all its steps and in which no push
    throws, in the order in which it makes them. *)
Definition commitCalls (s : store) (src : source) (nextState : value)
  (d : detail) : list event :=
  (match persistence s with Some _ => [ESave nextState] | None => [] end)
  ++ map (fun a => EPush (adapterId a) nextState) (syncAdapters s)
  ++ (if onStateChange s
      then [EStateChange src nextState (state s) d] else [])
  ++ map ENotify (listeners s).

(** How often the listener [l] has been called. *)
Definition notifications (l : nat) (t : list event) : nat :=
  length (List.filter (fun e => match e with
                                | ENotify l' => Nat.eqb l l'
                                | _ => false
                                end) t).

(** A store with the two adapters [rejectingAdapter] and [quietAdapter],
    a persistence adapter, both observers and the subscriber 7. *)
Definition busyStore : store :=
  fst (Store.syncSettings
         (fst (Store.syncSettings
                 (Store.subscribe
                    (createSettingsStore flatHeap (VRef 0)
                       (Some {| load := VRef 1; loadSync := None |}) true true)
                    7)
                 rejectingAdapter))
         quietAdapter).

(** ** Paths that part ways, visibility and dirtiness *)

(** Two key lists part ways: after a common prefix each goes on with a
    key of its own. *)
Inductive diverge : list string -> list string -> Prop :=
| diverge_here k k' p q : k <> k' -> diverge (k :: p) (k' :: q)
| diverge_below k p q : diverge p q -> diverge (k :: p) (k :: q).

(** The [expected] argument of [visibleWhen]: a predicate on the value and
    the state, or a value (an array of candidates or a single value). *)
Inductive expectation : Type :=
| ExpectFunction (test : heap -> value -> value -> bool)
| ExpectValue (e : value).

Definition visibleWhen (h : heap) (st : value) (path : string)
  (expected : expectation) : bool :=
  let v := getByPath h st path in
  match expected with
  | ExpectFunction test => test h v st
  | ExpectValue e =>
      if isArray h e
      then existsb (fun candidate => objectIs candidate v) (itemsOf h e)
      else objectIs v e
  end.

Inductive baselineKind : Type := BaselineInitial | BaselineMount.

(** The options of [useSettingDirty]; [dirtyInitialValue] is [Some] when
    the options object has the key [initialValue]. *)
Record dirtyOptions : Type := {
  dirtyInitialValue : option value;
  dirtyIsEqual : option (value -> value -> bool);
  dirtyBaseline : option baselineKind
}.

(** What [useSettingDirty] computes in one render: [mountBaseline] is the
    content of [mountBaselineRef], the value at the path in the first
    render. *)
Definition useSettingDirty (s : store) (path : string)
  (options : option dirtyOptions) (mountBaseline : value) : bool :=
  let currentValue := Store.get s path in
  let baselineValue :=
    match options with
    | Some {| dirtyInitialValue := Some v |} => v
    | _ => getByPath (heapOf s) (Store.getInitialState s) path
    end in
  let baseline :=
    match options with
    | Some {| dirtyBaseline := Some b |} => b
    | _ => BaselineInitial
    end in
  let comparisonBaseline :=
    match baseline with
    | BaselineMount => mountBaseline
    | BaselineInitial => baselineValue
    end in
  let isEqual :=
    match options with
    | Some {| dirtyIsEqual := Some eq |} => eq
    | _ => objectIs
    end in
  negb (isEqual currentValue comparisonBaseline).

(** ** Persistence adapters *)

(** [createMemorySettingsPersistence]: the adapter is a closure over one
    variable, [memory], which [save] overwrites and [load] and [loadSync]
    return.  [createMemorySettingsPersistence memory] is that adapter as a
    store finds it while its variable holds [memory] ([VNull] for the
    default seed). *)
Definition createMemorySettingsPersistence (memory : value)
  : persistenceAdapter :=
  {| load := memory; loadSync := Some memory |}.

(** The variable [memory] after the [save] calls of a trace. *)
Definition memoryAfter (memory : value) (t : list event) : value :=
  fold_left (fun m e => match e with ESave st => st | _ => m end) t memory.

(** What the memory adapter holds stays in step with the store: either
    the current state, or still a falsy seed while nothing was committed. *)
Definition inStep (seed : value) (s : store) : Prop :=
  (memoryAfter seed (trace s) = state s /\ truthy (state s) = true) \/
  (memoryAfter seed (trace s) = seed /\ truthy seed = false /\
   state s = initialState s).

Section LocalStorage.

(** [createLocalStorageSettingsPersistence] for states of type [T]:
    [serialize] and [deserialize] are the two options (their defaults,
    [JSON.stringify] and [JSON.parse], are not modelled); [serialize] is
    taken to return a string and [setItem] to succeed; [deserialize] may
    throw, and may return [null] ([None]). *)
Variable T : Type.
Variable serialize : T -> string.
Variable deserialize : string -> completion (option T).

(** The entries of [window.localStorage]. *)
Fixpoint getItem (storage : list (string * string)) (key : string)
  : option string :=
  match storage with
  | [] => None
  | (k, v) :: rest => if String.eqb k key then Some v else getItem rest key
  end.

Fixpoint setItem (storage : list (string * string)) (key v : string)
  : list (string * string) :=
  match storage with
  | [] => [(key, v)]
  | (k, v') :: rest =>
      if String.eqb k key then (k, v) :: rest else (k, v') :: setItem rest key v
  end.

(** [readFromStorage], which is both [load] and [loadSync]; [window] is
    [None] where [typeof window === "undefined"]. *)
Definition readFromStorage (window : option (list (string * string)))
  (key : string) : option T :=
  match window with
  | None => None
  | Some storage =>
      match getItem storage key with
      | None => None
      | Some raw =>
          if negb (nonEmpty raw) then None
          else match deserialize raw with
               | Returned x => x
               | Threw _ => None
               end
      end
  end.

(** [save] *)
Definition saveToStorage (window : option (list (string * string)))
  (key : string) (st : T) : option (list (string * string)) :=
  match window with
  | None => None
  | Some storage => Some (setItem storage key (serialize st))
  end.

End LocalStorage.

(** ** Action dispatcher *)

(** An action handler, as far as the store is concerned: the calls it
    makes on its context, each followed by what it does with the result,
    until its promise fulfils or rejects.  [HAlloc] stands for an object
    literal the handler builds (to pass it to [set] or [setState]). *)
Inductive handler : Type :=
| HResolve
| HReject (e : error)
| HAlloc (fields : list (string * value)) (k : value -> handler)
| HGetState (k : value -> handler)
| HGet (path : string) (k : value -> handler)
| HSet (path : string) (v : value) (k : completion unit -> handler)
| HSetState (nextState : value) (k : completion unit -> handler)
| HReset (k : completion unit -> handler).

(** [await action(payload, context)] *)
Fixpoint runHandler (s : store) (hd : handler) : store * completion unit :=
  match hd with
  | HResolve => (s, Returned tt)
  | HReject e => (s, Threw e)
  | HAlloc fields k =>
      let '(h1, l) := alloc (heapOf s) (OObj fields) in
      runHandler (withHeap s h1) (k (VRef l))
  | HGetState k => runHandler s (k (Store.getState s))
  | HGet path k => runHandler s (k (Store.get s path))
  | HSet path v k =>
      let '(s1, c) := Store.set s path v in runHandler s1 (k c)
  | HSetState nextState k =>
      let '(s1, c) := Store.setState s nextState in runHandler s1 (k c)
  | HReset k =>
      let '(s1, c) := Store.reset s in runHandler s1 (k c)
  end.

(** The argument of [onAction]. *)
Record actionEvent : Type := {
  actionType : string;
  actionPayload : value;
  actionState : value
}.

(** [actions?.[type]], read off the own properties of [actions], which
    is what it is at ordinary names. *)
Fixpoint findAction (actions : list (string * (value -> handler)))
  (type : string) : option (value -> handler) :=
  match actions with
  | [] => None
  | (name, action) :: rest =>
      if String.eqb name type then Some action else findAction rest type
  end.

Definition doubleQuote : string := String (ascii_of_nat 34) EmptyString.

(** [dispatch(type, payload)] for a store created with [actions] and,
    when [withOnAction], an [onAction] observer, whose calls are returned
    beside the store. *)
Definition dispatch (actions : option (list (string * (value -> handler))))
  (withOnAction : bool) (s : store) (type : string) (payload : value)
  : store * completion unit * list actionEvent :=
  match match actions with
        | Some registered => findAction registered type
        | None => None
        end with
  | None =>
      (s, Threw ("No action registered for " ++ doubleQuote ++ type
                 ++ doubleQuote ++ ".")%string, [])
  | Some action =>
      let '(s1, c) := runHandler s (action payload) in
      match c with
      | Threw e => (s1, Threw e, [])
      | Returned _ =>
          (s1, Returned tt,
           if withOnAction
           then [{| actionType := type; actionPayload := payload;
                    actionState := state s1 |}]
           else [])
      end
  end.

(** The handler of the repository's test: it toggles
    [notifications.enabled]. *)
Definition toggleNotifications (payload : value) : handler :=
  HGet "notifications.enabled"
    (fun current =>
       HSet "notifications.enabled"
         (VBool (negb (match current with VBool b => b | _ => false end)))
         (fun c => match c with Returned _ => HResolve | Threw e => HReject e end)).

(** What no call on the action context changes: the initial snapshot, the
    collaborators and the registries; the heap only grows. *)
Definition sameStore (s s' : store) : Prop :=
  initialState s' = initialState s /\ persistence s' = persistence s /\
  listeners s' = listeners s /\ syncAdapters s' = syncAdapters s /\
  extends (heapOf s) (heapOf s').

(** ** Path strings *)

(** A key that a path string can name: not empty, without a dot, and
    without white space at either end. *)
Definition plainKey (key : string) : Prop :=
  key <> EmptyString /\
  ~ In "."%char (list_ascii_of_string key) /\
  trim key = key.

(** ** Ordinary keys *)

(** The property names every plain object inherits from
    [Object.prototype]: reading one that is not an own property yields
    the inherited member, and assigning to [__proto__] changes the
    prototype instead of adding a property. *)
Definition inheritedKeys : list string :=
  ["__proto__"; "constructor"; "hasOwnProperty"; "isPrototypeOf";
   "propertyIsEnumerable"; "toLocaleString"; "toString"; "valueOf";
   "__defineGetter__"; "__defineSetter__"; "__lookupGetter__";
   "__lookupSetter__"].

Definition inherited (key : string) : bool :=
  existsb (String.eqb key) inheritedKeys.

(** A name at which a plain object has what its own properties say. *)
Definition ordinaryKey (key : string) : Prop := inherited key = false.

(** Every own property name of every plain object of the heap is [P]. *)
Definition keysOf (P : string -> Prop) (h : heap) : Prop :=
  Forall (fun o => match o with
                   | OObj fs => Forall P (map fst fs)
                   | OArr _ => True
                   end) h.

Definition ordinaryHeap (h : heap) : Prop := keysOf ordinaryKey h.

(** A key of a settings tree: one a path string can name, and ordinary. *)
Definition treeKey (key : string) : Prop := plainKey key /\ ordinaryKey key.

(** ** Trees that read the same *)

(** Two values, each read in its heap, are alike: the same primitive, two
    mappings, or two sequences with the same elements. *)
Definition alike (h : heap) (a : value) (h' : heap) (b : value) : Prop :=
  match deref h a, deref h' b with
  | None, None => a = b
  | Some (OObj _), Some (OObj _) => True
  | Some (OArr xs), Some (OArr ys) => xs = ys
  | _, _ => False
  end.

(** The tree at [a] in [h] and the tree at [b] in [h'] are equal: at
    every path they hold values that are alike. *)
Definition sameReads (h : heap) (a : value) (h' : heap) (b : value) : Prop :=
  forall keys, alike h (getParts h a keys) h' (getParts h' b keys).

(** ** Merge: the walk and its law *)

(** The nodes the walk of [deepMerge]'s [mergeNode] reaches from the pair
    [(left, right)]: it goes down a key of [right] where both sides hold
    mappings. *)
Inductive mergeVisits (h : heap)
  : value -> value -> list string -> value -> value -> Prop :=
| mergeVisits_here left right : mergeVisits h left right [] left right
| mergeVisits_child left right key v keys l r :
    isObject h left = true ->
    isObject h right = true ->
    getField (fieldsOf h right) key = Some v ->
    mergeVisits h (readProp h left key) v keys l r ->
    mergeVisits h left right (key :: keys) l r.

Definition bothObjects (h : heap) (l r : value) : Prop :=
  isObject h l = true /\ isObject h r = true.

(** What the merged value [res], read in [h'], holds at the visited
    nodes. *)
Definition deepMergedAs (h : heap) (left right : value) (lo : nat)
  (h' : heap) (res : value) : Prop :=
  forall keys l r,
    mergeVisits h left right keys l r ->
    (~ bothObjects h l r -> adopts h h' lo r (getParts h' res keys)) /\
    (bothObjects h l r ->
     isObject h' (getParts h' res keys) = true /\
     forall key, getField (fieldsOf h r) key = None ->
                 getParts h' res (keys ++ [key]) = readProp h l key).

(** The law of [deepMerge]'s [mergeNode] for calls with [fuel]. *)
Definition deepLaw (fuel : nat) : Prop :=
  forall d h0 h left right,
    wellFormed h0 -> extends h0 h ->
    validIn (length h0) left -> validIn (length h0) right ->
    nesting d h0 right = true -> d < fuel ->
    exists h' res,
      deepMergeNode fuel h left right = Some (h', res) /\
      extends h h' /\
      (forall h'', agreeOn (length h) (length h') h' h'' ->
                   deepMergedAs h0 left right (length h) h'' res).

(** The body of the loop over the incoming entries. *)
Definition deepBody (fuel : nat) (output : loc) (hc : heap) (key : string)
  (v : value) : option heap :=
  match deepMergeNode fuel hc (readProp hc (VRef output) key) v with
  | Some (h', merged) => Some (writeProp h' output key merged)
  | None => None
  end.

(** The calls of a [set] that changes the value at its path and in which
    no push throws: those of its commit, then the change observer. *)
Definition setCalls (s : store) (path : string) (v : value) : list event :=
  let previousValue := getByPath (heapOf s) (state s) path in
  let nextState := snd (setByPath (heapOf s) (state s) path v) in
  commitCalls s SrcSet nextState (Some (path, v, previousValue))
  ++ (if onChange s then [EChange path v previousValue nextState] else []).

(** * Properties *)

(** ** Property lists and heap cells *)

Lemma getField_setField_eq fs k v : getField (setField fs k v) k = Some v.
Proof.
  induction fs as [|[k' v'] fs IH]; simpl.
  - by rewrite String.eqb_refl.
  - destruct (String.eqb k' k) eqn:E; simpl; rewrite E; [done | exact IH].
Qed.

Lemma getField_setField_ne fs k k' v :
  k <> k' -> getField (setField fs k v) k' = getField fs k'.
Proof.
  intros Hne. induction fs as [|[k0 v0] fs IH]; simpl.
  - destruct (String.eqb k k') eqn:E; [|done].
    apply String.eqb_eq in E. contradiction.
  - destruct (String.eqb k0 k) eqn:E; simpl.
    + apply String.eqb_eq in E. subst k0.
      destruct (String.eqb k k') eqn:E'; [|done].
      apply String.eqb_eq in E'. contradiction.
    + by rewrite IH.
Qed.

Lemma writeProp_length h l k v : length (writeProp h l k v) = length h.
Proof.
  unfold writeProp. destruct (h !! l) as [[fs|items]|]; try done.
  by rewrite length_insert.
Qed.

Lemma writeProp_other h l k v l' :
  l' <> l -> writeProp h l k v !! l' = h !! l'.
Proof.
  intros Hne. unfold writeProp. destruct (h !! l) as [[fs|items]|]; try done.
  by rewrite list_lookup_insert_ne.
Qed.

Lemma writeProp_same h l k v fs :
  h !! l = Some (OObj fs) ->
  writeProp h l k v !! l = Some (OObj (setField fs k v)).
Proof.
  intros Hl. unfold writeProp. rewrite Hl.
  apply list_lookup_insert_eq. by eapply lookup_lt_Some.
Qed.

Lemma alloc_lookup_old h o l :
  l < length h -> fst (alloc h o) !! l = h !! l.
Proof. intros Hl. simpl. by rewrite lookup_app_l. Qed.

Lemma alloc_lookup_new h o : fst (alloc h o) !! snd (alloc h o) = Some o.
Proof. simpl. by rewrite list_lookup_middle. Qed.

(** ** Path resolver *)

(** One turn of the loop of [getByPath] on a plain object that has the
    property. *)
Lemma getParts_step h l fs k v rest :
  h !! l = Some (OObj fs) -> getField fs k = Some v ->
  getParts h (VRef l) (k :: rest) = getParts h v rest.
Proof.
  intros Hl Hk. cbn [getParts].
  unfold isObject, readProp, fieldsOf, hasField, readField. cbn [deref].
  by rewrite Hl, Hk.
Qed.

(** One turn of the loop of [setByPath] before the final assignment. *)
Lemma setParts_turn h cursor key key' rest v :
  setParts h cursor (key :: key' :: rest) v =
  setParts
    (writeProp
       (h ++ [OObj (if isObject h (readProp h (VRef cursor) key)
                    then spread h (readProp h (VRef cursor) key) else [])])
       cursor key (VRef (length h)))
    (length h) (key' :: rest) v.
Proof. reflexivity. Qed.

(** The writes of [setByPath] go to the clone under the cursor and to the
    branches allocated after it: every other cell is left as it was. *)
Lemma setParts_frame parts : forall h cursor v l,
  l < length h -> l <> cursor ->
  setParts h cursor parts v !! l = h !! l.
Proof.
  induction parts as [|key rest IH]; intros h cursor v l Hl Hne; [done|].
  destruct rest as [|key' rest'].
  - simpl. by apply writeProp_other.
  - rewrite setParts_turn, IH.
    + rewrite writeProp_other by done. by rewrite lookup_app_l.
    + rewrite writeProp_length, length_app. lia.
    + lia.
Qed.

Lemma setParts_length parts : forall h cursor v,
  length h <= length (setParts h cursor parts v).
Proof.
  induction parts as [|key rest IH]; intros h cursor v; [done|].
  destruct rest as [|key' rest'].
  - simpl. by rewrite writeProp_length.
  - rewrite setParts_turn. etransitivity; [|apply IH].
    rewrite writeProp_length, length_app. lia.
Qed.

(** Reading back along the parts just written finds the value. *)
Lemma getParts_setParts parts : forall h cursor fs v,
  parts <> [] ->
  h !! cursor = Some (OObj fs) ->
  getParts (setParts h cursor parts v) (VRef cursor) parts = v.
Proof.
  induction parts as [|key rest IH]; intros h cursor fs v Hne Hc; [done|].
  assert (Hlt : cursor < length h) by (by eapply lookup_lt_Some).
  destruct rest as [|key' rest'].
  - cbn [setParts].
    rewrite (getParts_step _ _ (setField fs key v) key v);
      [done | by apply writeProp_same | apply getField_setField_eq].
  - rewrite setParts_turn.
    set (bf := if isObject h (readProp h (VRef cursor) key)
               then spread h (readProp h (VRef cursor) key) else []).
    set (h2 := writeProp (h ++ [OObj bf]) cursor key (VRef (length h))).
    assert (Hc2 : h2 !! cursor = Some (OObj (setField fs key (VRef (length h))))).
    { unfold h2. apply writeProp_same. by rewrite lookup_app_l. }
    assert (Hb2 : h2 !! length h = Some (OObj bf)).
    { unfold h2. rewrite writeProp_other by lia. by rewrite list_lookup_middle. }
    rewrite (getParts_step _ _ (setField fs key (VRef (length h))) key
               (VRef (length h))).
    + by apply (IH h2 (length h) bf v).
    + rewrite setParts_frame; [done| |lia].
      unfold h2. rewrite writeProp_length, length_app. lia.
    + apply getField_setField_eq.
Qed.

(** A write through a non-empty path never touches a cell that existed
    before the call. *)
Lemma setByPath_frame h st path v l :
  l < length h -> fst (setByPath h st path v) !! l = h !! l.
Proof.
  intros Hl. unfold setByPath. destruct (parsePath path) as [|p ps]; [done|].
  cbn [alloc fst]. rewrite setParts_frame.
  - by rewrite lookup_app_l.
  - rewrite length_app. lia.
  - lia.
Qed.

Lemma setByPath_length h st path v :
  length h <= length (fst (setByPath h st path v)).
Proof.
  unfold setByPath. destruct (parsePath path) as [|p ps]; [done|].
  cbn [alloc fst]. etransitivity; [|apply setParts_length].
  rewrite length_app. lia.
Qed.




(** ** Heaps that grow *)

Lemma extends_refl h : extends h h.
Proof. by split. Qed.

Lemma extends_trans h1 h2 h3 : extends h1 h2 -> extends h2 h3 -> extends h1 h3.
Proof.
  intros [L1 F1] [L2 F2]. split; [lia|].
  intros l Hl. rewrite F2 by lia. by apply F1.
Qed.

Lemma extends_alloc h o : extends h (h ++ [o]).
Proof.
  split; [rewrite length_app; lia|]. intros l Hl. by rewrite lookup_app_l.
Qed.

Lemma extends_deref h h' v :
  extends h h' -> validIn (length h) v -> deref h' v = deref h v.
Proof. intros [_ F] Hv. destruct v; try done. by apply F. Qed.

Lemma extends_isObject h h' v :
  extends h h' -> validIn (length h) v -> isObject h' v = isObject h v.
Proof. intros He Hv. unfold isObject. by rewrite (extends_deref h h'). Qed.

Lemma extends_isArray h h' v :
  extends h h' -> validIn (length h) v -> isArray h' v = isArray h v.
Proof. intros He Hv. unfold isArray. by rewrite (extends_deref h h'). Qed.

Lemma extends_fieldsOf h h' v :
  extends h h' -> validIn (length h) v -> fieldsOf h' v = fieldsOf h v.
Proof. intros He Hv. unfold fieldsOf. by rewrite (extends_deref h h'). Qed.

Lemma extends_itemsOf h h' v :
  extends h h' -> validIn (length h) v -> itemsOf h' v = itemsOf h v.
Proof. intros He Hv. unfold itemsOf. by rewrite (extends_deref h h'). Qed.

Lemma isObject_fieldsOf h v :
  isObject h v = true -> deref h v = Some (OObj (fieldsOf h v)).
Proof.
  unfold isObject, fieldsOf. by destruct (deref h v) as [[fs|items]|].
Qed.

Lemma isArray_itemsOf h v :
  isArray h v = true -> deref h v = Some (OArr (itemsOf h v)).
Proof.
  unfold isArray, itemsOf. by destruct (deref h v) as [[fs|items]|].
Qed.

Lemma isObject_not_undefined h : isObject h VUndefined = false.
Proof. done. Qed.

(** ** Well-formed heaps *)

Lemma isObject_valid h v : isObject h v = true -> validIn (length h) v.
Proof.
  unfold isObject. destruct v as [| | | | |l]; cbn; try done.
  destruct (h !! l) eqn:Hl; [|done]. intros _. by eapply lookup_lt_Some.
Qed.

Lemma getField_In fs k v : getField fs k = Some v -> In (k, v) fs.
Proof.
  induction fs as [|[k' v'] fs IH]; [done|]. simpl.
  destruct (String.eqb k' k) eqn:E.
  - apply String.eqb_eq in E. intros [= ->]. subst. by left.
  - intros H. right. by apply IH.
Qed.

Lemma In_getField fs k v :
  NoDup (map fst fs) -> In (k, v) fs -> getField fs k = Some v.
Proof.
  induction fs as [|[k' v'] fs IH]; [done|]. simpl.
  intros Hnd Hin. apply NoDup_cons in Hnd as [Hnot Hnd].
  destruct Hin as [[= -> ->]|Hin].
  - by rewrite String.eqb_refl.
  - destruct (String.eqb k' k) eqn:E; [|by apply IH].
    apply String.eqb_eq in E. subst k'. exfalso. apply Hnot.
    apply list_elem_of_In. by apply (in_map fst _ (k, v)).
Qed.

Lemma getField_None_not_In fs k :
  getField fs k = None -> ~ In k (map fst fs).
Proof.
  induction fs as [|[k' v'] fs IH]; [by intros _ []|]. simpl.
  destruct (String.eqb k' k) eqn:E; [done|].
  intros H [->|Hin]; [by rewrite String.eqb_refl in E | by apply IH].
Qed.

Lemma wellFormed_cell h v :
  wellFormed h -> isObject h v = true ->
  NoDup (map fst (fieldsOf h v)) /\
  forall k x, In (k, x) (fieldsOf h v) -> validIn (length h) x.
Proof.
  intros Hwf Hobj. apply isObject_fieldsOf in Hobj.
  destruct v as [| | | | |l]; try done. cbn [deref] in Hobj.
  unfold wellFormed in Hwf. rewrite Forall_forall in Hwf.
  assert (Hcell : cellOk (length h) (OObj (fieldsOf h (VRef l)))).
  { apply Hwf. by eapply list_elem_of_lookup_2. }
  destruct Hcell as [Hnd Hall]. split; [done|].
  intros k x Hin. rewrite Forall_forall in Hall.
  apply (Hall (k, x)). by apply list_elem_of_In.
Qed.

Lemma readProp_valid h v k :
  wellFormed h -> validIn (length h) (readProp h v k).
Proof.
  intros Hwf. unfold readProp, readField.
  destruct (getField (fieldsOf h v) k) as [x|] eqn:Hk; [|done].
  destruct (isObject h v) eqn:Hobj.
  - destruct (wellFormed_cell h v Hwf Hobj) as [_ Hall].
    apply (Hall k). by apply getField_In.
  - unfold isObject, fieldsOf in *.
    by destruct (deref h v) as [[fs|items]|].
Qed.

Lemma nesting_field d h v k x :
  nesting (S d) h v = true -> In (k, x) (fieldsOf h v) -> nesting d h x = true.
Proof.
  cbn [nesting]. rewrite forallb_forall. intros Hall Hin. by apply (Hall (k, x)).
Qed.

(** ** The walk *)

Lemma visits_leaf h left right keys l r :
  visits h left right keys l r ->
  left = right \/ isObject h left = false \/ isObject h right = false ->
  keys = [] /\ l = left /\ r = right.
Proof.
  intros Hv Hleaf.
  destruct Hv as [|left right key v keys l r Hne Hl Hr Hk Hrest]; [done|].
  destruct Hleaf as [Heq|[Hno|Hno]]; congruence.
Qed.

Lemma adopts_weaken h h' lo lo' r res :
  lo' <= lo -> adopts h h' lo r res -> adopts h h' lo' r res.
Proof.
  unfold adopts. intros Hlo. destruct (deref h r); [|done].
  intros (l & -> & Hl & Hcell). exists l. split_and!; [done | lia | done].
Qed.

Lemma mergedAs_weaken h left right path lo lo' h' res new new' :
  lo' <= lo -> (forall p, In p new -> In p new') ->
  mergedAs h left right path lo h' res new ->
  mergedAs h left right path lo' h' res new'.
Proof.
  intros Hlo Hincl Hm keys l r Hv.
  destruct (Hm keys l r Hv) as (H1 & H2 & H3 & H4).
  split_and!; try done.
  - intros Hc. destruct (H2 Hc) as [Hg Hin]. split; [done | by apply Hincl].
  - intros Hl Hr. apply (adopts_weaken _ _ lo); [done | by apply H3].
Qed.

Lemma getParts_single h l fs k :
  h !! l = Some (OObj fs) -> getParts h (VRef l) [k] = readField fs k.
Proof.
  intros Hl. cbn [getParts].
  unfold isObject, readProp, fieldsOf, hasField, readField. cbn [deref].
  rewrite Hl. by destruct (getField fs k).
Qed.

(** ** The law at a node that is not walked into *)

Lemma leaf_same h left path lo h' :
  mergedAs h left left path lo h' left [] /\ recordedOnly h left left path [].
Proof.
  split; [|by intros p []].
  intros keys l r Hv.
  assert (Hleaf : keys = [] /\ l = left /\ r = left)
    by (apply (visits_leaf _ _ _ _ _ _ Hv); by left).
  destruct Hleaf as (-> & -> & ->).
  split_and!.
  - done.
  - by intros (Hne & _).
  - by intros ->.
  - done.
Qed.

Lemma leaf_kept h left right path lo h' :
  left <> right -> left <> VUndefined ->
  isObject h left = false \/ isObject h right = false ->
  mergedAs h left right path lo h' left [path] /\
  recordedOnly h left right path [path].
Proof.
  intros Hne Hdef Hleaf.
  assert (Hnot : ~ (isObject h left = true /\ isObject h right = true))
    by (intros [? ?]; destruct Hleaf; congruence).
  split.
  - intros keys l r Hv.
    assert (Hl : keys = [] /\ l = left /\ r = right)
      by (apply (visits_leaf _ _ _ _ _ _ Hv); by right).
    destruct Hl as (-> & -> & ->).
    split_and!.
    + done.
    + intros _. split; [done | by left].
    + done.
    + intros _ Hl Hr. by destruct Hnot.
  - intros p [<-|[]]. exists [], left, right.
    split_and!; [constructor | done | done].
Qed.

Lemma leaf_adopted h right path lo h' res :
  right <> VUndefined ->
  adopts h h' lo right res ->
  mergedAs h VUndefined right path lo h' res [] /\
  recordedOnly h VUndefined right path [].
Proof.
  intros Hdef Had. split; [|by intros p []].
  intros keys l r Hv.
  assert (Hl : keys = [] /\ l = VUndefined /\ r = right)
    by (apply (visits_leaf _ _ _ _ _ _ Hv); right; by left).
  destruct Hl as (-> & -> & ->).
  split_and!.
  - by intros <-.
  - by intros (_ & Hu & _).
  - done.
  - done.
Qed.

(** ** The loop over the incoming entries *)

Section Loop.

(** The loop runs inside a call with [S fuel] that found mappings on both
    sides: [output] is the clone of the current mapping, allocated after
    the cells of the heap [h0] the merge started from, [lf] are the
    properties of the current mapping, and the incoming values are nested
    at most [d] deep. *)
Variables (fuel d : nat) (h0 : heap) (path : string) (output : loc)
  (lf : list (string * value)).
Hypothesis Hlaw : nodeLaw fuel.
Hypothesis Hwf : wellFormed h0.
Hypothesis Hd : d < fuel.
Hypothesis Hout : length h0 <= output.
Hypothesis Hlf : forall k x, getField lf k = Some x -> validIn (length h0) x.

Lemma skipLoop :
  forall es hc cs fs,
    NoDup (map fst es) ->
    (forall k v, In (k, v) es ->
                 validIn (length h0) v /\ nesting d h0 v = true) ->
    extends h0 hc -> output < length hc ->
    hc !! output = Some (OObj fs) ->
    (forall k, In k (map fst es) -> getField fs k = getField lf k) ->
    exists h' new fs',
      forEntries (skipBody fuel output path) es (hc, cs) = Some (h', cs ++ new) /\
      length hc <= length h' /\
      (forall l, l < length hc -> l <> output -> h' !! l = hc !! l) /\
      h' !! output = Some (OObj fs') /\
      (forall k, ~ In k (map fst es) -> getField fs' k = getField fs k) /\
      (forall k v, In (k, v) es ->
         exists res, getField fs' k = Some res /\
           forall h'', agreeOn (length hc) (length h') h' h'' ->
             mergedAs h0 (readField lf k) v (nextPath path k) (length hc)
               h'' res new) /\
      (forall p, In p new ->
         exists k v, In (k, v) es /\
           exists keys l r,
             visits h0 (readField lf k) v keys l r /\
             pathFrom (nextPath path k) keys = p /\ conflictAt h0 l r).
Proof.
  induction es as [|[k v] es IH]; intros hc cs fs Hnd Hes Hext Hlt Hcell Hkeys.
  - exists hc, [], fs. cbn [forEntries]. rewrite app_nil_r.
    split_and!; try done.
  - cbn [map fst] in Hnd. apply NoDup_cons in Hnd as [Hk Hnd].
    destruct (Hes k v) as [Hv Hnest]; [by left|].
    assert (Hleft : readProp hc (VRef output) k = readField lf k).
    { unfold readProp, fieldsOf. cbn [deref]. rewrite Hcell.
      unfold readField. rewrite Hkeys; [done | by left]. }
    assert (Hlv : validIn (length h0) (readField lf k)).
    { unfold readField. destruct (getField lf k) as [x|] eqn:Hx; [|done].
      by apply (Hlf k). }
    destruct (Hlaw d h0 hc cs (readField lf k) v (nextPath path k)
                Hwf Hext Hlv Hv Hnest Hd)
      as (h1 & new1 & res1 & Hrun & [Hlen1 Hfr1] & Hspec1 & Hrec1).
    set (hw := writeProp h1 output k res1).
    assert (Hcell1 : h1 !! output = Some (OObj fs)) by (by rewrite Hfr1).
    assert (Hcellw : hw !! output = Some (OObj (setField fs k res1)))
      by (by apply writeProp_same).
    assert (Hlenw : length hw = length h1) by apply writeProp_length.
    destruct (IH hw (cs ++ new1) (setField fs k res1)) as
      (h' & new2 & fs' & Hloop & Hlen2 & Hfr2 & Hcell2 & Hother & Hdone & Hrec2).
    { done. }
    { intros k' v' Hin. apply (Hes k' v'). by right. }
    { destruct Hext as [Hl0 Hf0]. split; [lia|].
      intros l Hl. unfold hw. rewrite writeProp_other by lia.
      rewrite Hfr1 by lia. by apply Hf0. }
    { lia. }
    { done. }
    { intros k' Hin. rewrite getField_setField_ne.
      - apply Hkeys. by right.
      - intros ->. apply Hk. by apply list_elem_of_In. }
    exists h', (new1 ++ new2), fs'.
    split_and!.
    + cbn [forEntries]. unfold skipBody at 1. rewrite Hleft, Hrun.
      fold hw. rewrite Hloop. by rewrite app_assoc.
    + lia.
    + intros l Hl Hne. rewrite Hfr2 by lia.
      unfold hw. rewrite writeProp_other by done. by apply Hfr1.
    + done.
    + intros k' Hnot. rewrite Hother.
      * apply getField_setField_ne. intros ->. apply Hnot. by left.
      * intros Hin. apply Hnot. by right.
    + intros k' v' [[= <- <-]|Hin].
      * exists res1. split.
        -- rewrite Hother; [apply getField_setField_eq|].
           intros Hin. apply Hk. by apply list_elem_of_In.
        -- intros h'' Hag.
           apply (mergedAs_weaken _ _ _ _ (length hc) _ _ _ new1);
             [done | intros p Hp; apply in_or_app; by left |].
           apply Hspec1. intros l Hlo Hhi.
           rewrite Hag by lia. rewrite Hfr2 by lia.
           unfold hw. by rewrite writeProp_other by lia.
      * destruct (Hdone k' v' Hin) as (res & Hres & Hspec).
        exists res. split; [done|].
        intros h'' Hag.
        apply (mergedAs_weaken _ _ _ _ (length hw) _ _ _ new2);
          [lia | intros p Hp; apply in_or_app; by right |].
        apply Hspec. intros l Hlo Hhi. apply Hag; lia.
    + intros p Hp. apply in_app_or in Hp as [Hp|Hp].
      * exists k, v. split; [by left|]. by apply Hrec1.
      * destruct (Hrec2 p Hp) as (k' & v' & Hin & Hrest).
        exists k', v'. split; [by right | done].
Qed.

End Loop.

(** ** The law of [mergeNode] *)

Lemma skipMergeNode_law fuel : nodeLaw fuel.
Proof.
  induction fuel as [|fuel IH];
    intros d h0 h cs left right path Hwf Hext Hl Hr Hnest Hd; [lia|].
  cbn [skipMergeNode].
  rewrite (extends_isArray h0 h right Hext Hr).
  rewrite (extends_isObject h0 h right Hext Hr).
  rewrite (extends_isObject h0 h left Hext Hl).
  rewrite (extends_fieldsOf h0 h right Hext Hr).
  rewrite (extends_fieldsOf h0 h left Hext Hl).
  rewrite (extends_itemsOf h0 h right Hext Hr).
  unfold objectIs.
  case_bool_decide as Hsame.
  { subst right. exists h, [], left. rewrite app_nil_r.
    split_and!; [done | apply extends_refl | | ].
    - intros h'' _. apply leaf_same.
    - apply (leaf_same h0 left path 0 h). }
  assert (Hcopy : forall o,
             deref h0 right = Some o -> left = VUndefined ->
             exists h' new' res',
               Some (h ++ [o], cs, VRef (length h)) = Some (h', cs ++ new', res') /\
               extends h h' /\
               (forall h'', agreeOn (length h) (length h') h' h'' ->
                  mergedAs h0 left right path (length h) h'' res' new') /\
               recordedOnly h0 left right path new').
  { intros o Ho ->. exists (h ++ [o]), [], (VRef (length h)).
    rewrite app_nil_r.
    assert (Had : forall h'', agreeOn (length h) (length (h ++ [o])) (h ++ [o]) h'' ->
                    adopts h0 h'' (length h) right (VRef (length h))).
    { intros h'' Hag. unfold adopts. rewrite Ho. exists (length h).
      split_and!; [done | lia |].
      rewrite Hag; [by rewrite list_lookup_middle | lia | rewrite length_app; cbn; lia]. }
    split_and!; [done | apply extends_alloc | | ].
    - intros h'' Hag. by apply leaf_adopted; [|apply Had].
    - apply (leaf_adopted h0 right path (length h) (h ++ [o]) (VRef (length h)));
        [done|]. apply Had. by intros l _ _. }
  assert (Hkeep : left <> VUndefined ->
             isObject h0 left = false \/ isObject h0 right = false ->
             exists h' new' res',
               Some (h, cs ++ [path], left) = Some (h', cs ++ new', res') /\
               extends h h' /\
               (forall h'', agreeOn (length h) (length h') h' h'' ->
                  mergedAs h0 left right path (length h) h'' res' new') /\
               recordedOnly h0 left right path new').
  { intros Hdef Hleaf. exists h, [path], left.
    split_and!; [done | apply extends_refl | | ].
    - intros h'' _. by apply leaf_kept.
    - by apply (leaf_kept h0 left right path 0 h). }
  destruct (isArray h0 right) eqn:Harr.
  { assert (Hno : isObject h0 right = false).
    { unfold isObject, isArray in *. by destruct (deref h0 right) as [[?|?]|]. }
    case_bool_decide as Hu.
    - cbn [alloc]. apply Hcopy; [by apply isArray_itemsOf | done].
    - apply Hkeep; [done | by right]. }
  destruct (isObject h0 right) eqn:Hobj; cbn [negb].
  2:{ case_bool_decide as Hu.
      - subst left. exists h, [], right. rewrite app_nil_r.
        assert (Had : forall h'', adopts h0 h'' (length h) right right).
        { intros h''. unfold adopts, isObject, isArray in *.
          by destruct (deref h0 right) as [[?|?]|]. }
        split_and!; [done | apply extends_refl | | ].
        + intros h'' _. by apply leaf_adopted.
        + by apply (leaf_adopted h0 right path (length h) h right).
      - apply Hkeep; [done | by right]. }
  destruct (isObject h0 left) eqn:Hlobj; cbn [negb].
  2:{ case_bool_decide as Hu.
      - cbn [alloc]. apply Hcopy; [by apply isObject_fieldsOf | done].
      - apply Hkeep; [done | by left]. }
  clear Hcopy Hkeep.
  destruct d as [|d]; [cbn [nesting] in Hnest; by rewrite Hobj in Hnest|].
  destruct (wellFormed_cell h0 right Hwf Hobj) as [Hnd Hrv].
  destruct (wellFormed_cell h0 left Hwf Hlobj) as [_ Hlv].
  cbn [alloc].
  set (lf := fieldsOf h0 left). set (es := fieldsOf h0 right).
  set (output := length h).
  destruct (skipLoop fuel d h0 path output lf IH Hwf) with
    (es := es) (hc := h ++ [OObj lf]) (cs := cs) (fs := lf)
    as (h' & new & fs' & Hloop & Hlen & Hfr & Hcell & Hother & Hdone & Hrec).
  { lia. }
  { unfold output. destruct Hext. lia. }
  { intros k x Hk. apply (Hlv k). by apply getField_In. }
  { done. }
  { intros k v Hin. split; [by apply (Hrv k) | by apply (nesting_field d h0 right k)]. }
  { eapply extends_trans; [exact Hext | apply extends_alloc]. }
  { rewrite length_app. cbn. unfold output. lia. }
  { unfold output. by rewrite list_lookup_middle. }
  { done. }
  change (forEntries _ es (h ++ [OObj lf], cs))
    with (forEntries (skipBody fuel output path) es (h ++ [OObj lf], cs)).
  rewrite Hloop.
  rewrite length_app in Hlen, Hfr. cbn [length] in Hlen, Hfr.
  exists h', new, (VRef output).
  split_and!; [done | | | ].
  - split; [lia|]. intros l Hlt. rewrite Hfr by (unfold output; lia).
    by rewrite lookup_app_l.
  - intros h'' Hag.
    assert (Hout : h'' !! output = Some (OObj fs')).
    { rewrite Hag; [done | unfold output; lia | unfold output; lia]. }
    intros keys l r Hv.
    inversion Hv as [|? ? key v ks ? ? Hne Hlo Hro Hkey Hrest]; subst.
    + split_and!.
      * done.
      * intros (_ & _ & Hnot). by destruct Hnot.
      * intros ->. done.
      * intros _ _ _ key Hkey. cbn [app].
        rewrite (getParts_single _ _ fs') by done.
        unfold readProp, readField. fold lf.
        rewrite Hother; [done|]. by apply getField_None_not_In.
    + destruct (Hdone key v) as (res & Hres & Hspec); [by apply getField_In|].
      assert (Hsub : mergedAs h0 (readField lf key) v (nextPath path key)
                       (length h) h'' res new).
      { apply (mergedAs_weaken _ _ _ _ (length (h ++ [OObj lf])) _ _ _ new);
          [rewrite length_app; lia | done |].
        apply Hspec. intros l0 Hlo0 Hhi0. apply Hag; [|done].
        rewrite length_app in Hlo0. lia. }
      destruct (Hsub ks l r Hrest) as (S1 & S2 & S3 & S4).
      rewrite (getParts_step _ _ fs' key res ks Hout Hres).
      split_and!; try done.
      intros Hne' Hlo' Hro' key' Hkey'. cbn [app].
      rewrite (getParts_step _ _ fs' key res _ Hout Hres). by apply S4.
  - intros p Hp. destruct (Hrec p Hp) as (k & v & Hin & keys & l & r & Hv & Hpath & Hc).
    exists (k :: keys), l, r. split_and!; [|done|done].
    apply (visits_child h0 left right k v); try done.
    by apply In_getField.
Qed.

(** ** Path strings *)

Lemma splitDots_nonempty s : splitDots s <> [].
Proof.
  destruct s as [|c r]; [done|]. cbn.
  destruct (Ascii.eqb c "."); [done|]. by destruct (splitDots r).
Qed.

Lemma splitDots_no_dot s seg :
  In seg (splitDots s) -> ~ In "."%char (list_ascii_of_string seg).
Proof.
  revert seg. induction s as [|c r IH]; intros seg; cbn.
  - intros [<-|[]]. by intros [].
  - destruct (Ascii.eqb c ".") eqn:E.
    + intros [<-|Hin]; [by intros [] | by apply IH].
    + destruct (splitDots r) as [|x xs] eqn:Hr.
      * intros [<-|[]]. cbn. intros [->|[]]. by rewrite Ascii.eqb_refl in E.
      * intros [<-|Hin].
        -- cbn. intros [->|Hd]; [by rewrite Ascii.eqb_refl in E|].
           apply (IH x); [by left | done].
        -- apply IH. by right.
Qed.

Lemma trimStart_chars s c :
  In c (list_ascii_of_string (trimStart s)) -> In c (list_ascii_of_string s).
Proof.
  induction s as [|a r IH]; [done|]. cbn.
  destruct (isWhite a); [|done]. intros Hin. right. by apply IH.
Qed.

Lemma trimEnd_chars s c :
  In c (list_ascii_of_string (trimEnd s)) -> In c (list_ascii_of_string s).
Proof.
  induction s as [|a r IH]; [done|]. cbn.
  destruct (trimEnd r) as [|b kept] eqn:Hr.
  - destruct (isWhite a); [done|]. cbn. intros [->|[]]. by left.
  - cbn. intros [->|Hin]; [by left|]. right. by apply IH.
Qed.

Lemma trimEnd_idem s : trimEnd (trimEnd s) = trimEnd s.
Proof.
  induction s as [|a r IH]; [done|]. cbn.
  destruct (trimEnd r) as [|b kept] eqn:Hr.
  - destruct (isWhite a) eqn:Ha; [done|]. cbn. by rewrite Ha.
  - cbn [trimEnd]. fold trimEnd. cbn [trimEnd] in IH. by rewrite IH.
Qed.

Lemma trimStart_head s :
  trimStart s = EmptyString \/
  exists a r, trimStart s = String a r /\ isWhite a = false.
Proof.
  induction s as [|a r IH]; [by left|]. cbn.
  destruct (isWhite a) eqn:Ha; [done|]. right. by exists a, r.
Qed.

Lemma trimEnd_head a r :
  isWhite a = false -> exists r', trimEnd (String a r) = String a r'.
Proof.
  intros Ha. cbn. destruct (trimEnd r) as [|b kept]; rewrite ?Ha; by eexists.
Qed.

Lemma trim_idem s : trim (trim s) = trim s.
Proof.
  unfold trim. destruct (trimStart_head s) as [->|(a & r & -> & Ha)]; [done|].
  destruct (trimEnd_head a r Ha) as [r' Hr]. rewrite Hr.
  cbn [trimStart]. rewrite Ha. rewrite <- Hr. apply trimEnd_idem.
Qed.

(** X1: every segment [parsePath] returns is a plain key: it is not empty,
    contains no dot, and has no white space at either end. *)
Theorem parsePath_plain path part :
  In part (parsePath path) -> plainKey part.
Proof.
  unfold parsePath. intros Hin.
  apply list_elem_of_In, list_elem_of_filter in Hin as [Hne Hin].
  apply list_elem_of_In, in_map_iff in Hin as (seg & <- & Hseg).
  split_and!.
  - intros Heq. by rewrite Heq in Hne.
  - intros Hdot. apply (splitDots_no_dot path seg Hseg).
    unfold trim in Hdot. by apply trimStart_chars, trimEnd_chars.
  - apply trim_idem.
Qed.

Lemma parsePath_plain_witness : plainKey "b".
Proof.
  apply (parsePath_plain " a . b..c " "b"). vm_compute. right. by left.
Defined.

Lemma splitDots_plain key :
  ~ In "."%char (list_ascii_of_string key) -> splitDots key = [key].
Proof.
  induction key as [|c r IH]; [done|]. cbn. intros Hno.
  destruct (Ascii.eqb c ".") eqn:E.
  - apply Ascii.eqb_eq in E. subst c. exfalso. apply Hno. by left.
  - rewrite IH; [done|]. intros Hin. apply Hno. by right.
Qed.

Lemma splitDots_snoc path key :
  ~ In "."%char (list_ascii_of_string key) ->
  splitDots (path ++ String "." key)%string = splitDots path ++ [key].
Proof.
  intros Hkey. induction path as [|c r IH].
  - change (EmptyString :: splitDots key = [EmptyString] ++ [key]).
    by rewrite splitDots_plain.
  - change (String c r ++ String "." key)%string
      with (String c (r ++ String "." key))%string.
    cbn [splitDots]. rewrite IH.
    destruct (Ascii.eqb c "."); [done|].
    pose proof (splitDots_nonempty r). by destruct (splitDots r).
Qed.

Lemma pathFrom_split keys : forall path,
  path <> EmptyString ->
  Forall plainKey keys ->
  splitDots (pathFrom path keys) = splitDots path ++ keys.
Proof.
  induction keys as [|k keys IH]; intros path Hne Hall.
  - cbn. by rewrite app_nil_r.
  - apply Forall_cons in Hall as [(Hk & Hdot & _) Hall].
    cbn [pathFrom fold_left]. fold (pathFrom (nextPath path k) keys).
    assert (Hnext : nextPath path k = (path ++ String "." k)%string).
    { unfold nextPath. by destruct path. }
    rewrite IH; [|rewrite Hnext; by destruct path|done].
    rewrite Hnext, splitDots_snoc by done. by rewrite <- app_assoc.
Qed.

Lemma parse_plain_segments keys :
  Forall plainKey keys ->
  filter (fun part => nonEmpty part = true) (map trim keys) = keys.
Proof.
  induction keys as [|k keys IH]; [done|]. intros Hall.
  apply Forall_cons in Hall as [(Hk & _ & Htrim) Hall].
  cbn [map]. rewrite Htrim. rewrite filter_cons_True by (by destruct k).
  by rewrite IH.
Qed.

(** X2: the path string the skip-conflicts merge builds for a node reached
    through plain keys parses back to those keys, so a reported conflict
    path addresses, through [get], the node where the conflict is. *)
Theorem parsePath_pathString keys :
  Forall plainKey keys -> parsePath (pathString keys) = keys.
Proof.
  intros Hall. unfold parsePath, pathString.
  destruct keys as [|k keys]; [done|].
  pose proof Hall as Hall'.
  apply Forall_cons in Hall' as [(Hk & Hdot & Htrim) Hrest].
  cbn [pathFrom fold_left]. fold (pathFrom (nextPath EmptyString k) keys).
  change (nextPath EmptyString k) with k.
  rewrite pathFrom_split by done. rewrite splitDots_plain by done.
  by apply parse_plain_segments.
Qed.

Lemma parsePath_pathString_witness :
  parsePath (pathString ["notifications"; "enabled"])
  = ["notifications"; "enabled"].
Proof.
  apply parsePath_pathString.
  repeat (apply Forall_cons; split;
          [split_and!; [discriminate | vm_compute; intuition discriminate | reflexivity]|]).
  apply Forall_nil_2.
Defined.

(** ** The skip-conflicts law *)

Lemma mergeHeap_wellFormed : wellFormed mergeHeap.
Proof.
  unfold wellFormed, mergeHeap.
  repeat (apply Forall_cons; split; [cbn; split;
    [repeat (apply NoDup_cons; split;
               [intros Hin; apply list_elem_of_In in Hin; cbn in Hin;
                intuition discriminate|]); apply NoDup_nil_2
    |repeat (apply Forall_cons; split; [cbn; lia|]); apply Forall_nil_2]|]).
  apply Forall_nil_2.
Qed.

Lemma getParts_app h v keys more :
  getParts h v (keys ++ more) = getParts h (getParts h v keys) more.
Proof.
  revert v. induction keys as [|k keys IH]; intros v; [done|].
  cbn [app getParts].
  destruct (negb (isObject h v) || negb (hasField (fieldsOf h v) k)); [|apply IH].
  by destruct more.
Qed.

Lemma getParts_extends h h' v keys :
  wellFormed h -> extends h h' -> validIn (length h) v ->
  getParts h' v keys = getParts h v keys.
Proof.
  intros Hwf Hext. revert v.
  induction keys as [|k keys IH]; intros v Hv; [done|].
  cbn [getParts]. unfold readProp.
  rewrite (extends_isObject h h' v Hext Hv), (extends_fieldsOf h h' v Hext Hv).
  destruct (negb (isObject h v) || negb (hasField (fieldsOf h v) k)); [done|].
  apply IH. by apply readProp_valid.
Qed.

Lemma visits_valid h left right keys l r :
  wellFormed h -> visits h left right keys l r ->
  validIn (length h) left -> validIn (length h) right ->
  validIn (length h) l /\ validIn (length h) r.
Proof.
  intros Hwf Hv. induction Hv as [|left right key v keys l r Hne Hl Hr Hk Hv IH];
    intros Hvl Hvr; [done|].
  apply IH; [by apply readProp_valid|].
  destruct (wellFormed_cell h right Hwf Hr) as [_ Hall].
  apply (Hall key). by apply getField_In.
Qed.

(** Below an adopted value the result reads as the incoming tree does. *)
Lemma adopts_below h h' lo r res more :
  wellFormed h -> extends h h' -> validIn (length h) r ->
  adopts h h' lo r res -> more <> [] ->
  getParts h' res more = getParts h r more.
Proof.
  intros Hwf Hext Hr Had Hmore.
  rewrite <- (getParts_extends h h' r more Hwf Hext Hr).
  unfold adopts in Had.
  destruct (deref h r) as [o|] eqn:Ho; [|by subst].
  destruct Had as (a & -> & _ & Ha).
  destruct more as [|k more]; [done|].
  cbn [getParts]. unfold isObject, readProp, fieldsOf. cbn [deref].
  by rewrite Ha, (extends_deref h h' r Hext Hr), Ho.
Qed.

(** C3, as stated, fails at a path where both sides hold mappings and at
    a path below a non-mapping value of the current tree.  Merging
    [{ a: { y: 2 } }] into [{ a: { x: 1 } }]: both sides are defined at
    ["a"] and differ, yet the result holds a new object there (with
    [y = 2] in it) and no conflict is recorded.  Merging
    [{ a: { b: 1 } }] into [{ a: 5 }]: ["a.b"] is defined only in the
    incoming tree, yet the result has nothing there. *)
Lemma mergeSkippingConflicts_unlike_claim :
  getByPath mergeHeap (VRef 0) "a" = VRef 1 /\
  getByPath mergeHeap (VRef 2) "a" = VRef 3 /\
  mergeView (mergeSkippingConflicts 3 mergeHeap (VRef 0) (VRef 2)) "a" "a.y"
  = Some (VRef 8, VNum 2, []) /\
  VRef 8 <> getByPath mergeHeap (VRef 0) "a" /\
  ~ In "a" ([] : list string) /\
  getByPath mergeHeap (VRef 4) "a.b" = VUndefined /\
  getByPath mergeHeap (VRef 5) "a.b" = VNum 1 /\
  mergeView (mergeSkippingConflicts 3 mergeHeap (VRef 4) (VRef 5)) "a" "a.b"
  = Some (VNum 5, VUndefined, ["a"]) /\
  VUndefined <> getByPath mergeHeap (VRef 5) "a.b".
Proof. vm_compute. split_and!; try reflexivity; try discriminate. by intros []. Qed.

Lemma splitDots_pathString k keys :
  Forall plainKey (k :: keys) -> splitDots (pathString (k :: keys)) = k :: keys.
Proof.
  intros Hall. pose proof Hall as Hall'.
  apply Forall_cons in Hall' as [(Hk & Hdot & _) Hrest].
  unfold pathString. cbn [pathFrom fold_left].
  fold (pathFrom (nextPath EmptyString k) keys).
  change (nextPath EmptyString k) with k.
  rewrite pathFrom_split by done. by rewrite splitDots_plain.
Qed.

(** Key lists made of plain keys have path strings of their own. *)
Lemma pathString_inj ks ks' :
  Forall plainKey ks -> Forall plainKey ks' ->
  pathString ks = pathString ks' -> ks = ks'.
Proof.
  intros Hks Hks' Heq.
  assert (Hnil : forall k keys,
            Forall plainKey (k :: keys) -> pathString (k :: keys) <> pathString []).
  { intros k keys Hall Hp. pose proof (splitDots_pathString k keys Hall) as Hs.
    rewrite Hp in Hs. cbn in Hs. injection Hs as <- _.
    apply Forall_cons in Hall as [(Hk & _) _]. done. }
  destruct ks as [|k ks], ks' as [|k' ks']; try done.
  - symmetry in Heq. by apply Hnil in Heq.
  - by apply Hnil in Heq.
  - rewrite <- (splitDots_pathString k ks), <- (splitDots_pathString k' ks') by done.
    by rewrite Heq.
Qed.

Lemma keysOf_cell (P : string -> Prop) h v k x :
  keysOf P h -> getField (fieldsOf h v) k = Some x -> P k.
Proof.
  intros Hkeys Hk. unfold fieldsOf in Hk.
  destruct (deref h v) as [[fs|items]|] eqn:Hd; try done.
  destruct v as [| | | | |l]; try done. cbn [deref] in Hd.
  unfold keysOf in Hkeys. rewrite Forall_forall in Hkeys.
  assert (Hcell : Forall P (map fst fs)).
  { apply (Hkeys (OObj fs)). by eapply list_elem_of_lookup_2. }
  rewrite Forall_forall in Hcell. apply Hcell.
  apply list_elem_of_In, in_map_iff. exists (k, x). split; [done|].
  by apply getField_In.
Qed.

Lemma visits_keys (P : string -> Prop) h left right keys l r :
  keysOf P h -> visits h left right keys l r -> Forall P keys.
Proof.
  intros Hkeys Hv.
  induction Hv as [|left right key v keys l r Hne Hl Hr Hk Hv IH];
    [apply Forall_nil_2|].
  apply Forall_cons. split; [|done]. by apply (keysOf_cell P h right key v).
Qed.

Lemma visits_fun h left right keys l r l' r' :
  visits h left right keys l r -> visits h left right keys l' r' ->
  l = l' /\ r = r'.
Proof.
  intros Hv. revert l' r'.
  induction Hv as [|left right key v keys l r Hne Hl Hr Hk Hv IH];
    intros l' r' Hv'.
  - by inversion Hv'.
  - inversion Hv' as [|? ? ? v' ? ? ? _ _ _ Hk' Hrest]; subst.
    rewrite Hk in Hk'. injection Hk' as <-. by apply IH.
Qed.

Lemma visits_prefix h keys : forall left right more l' r',
  visits h left right (keys ++ more) l' r' ->
  exists l r, visits h left right keys l r /\ visits h l r more l' r'.
Proof.
  induction keys as [|k keys IH]; intros left right more l' r' Hv.
  - exists left, right. split; [constructor | done].
  - cbn [app] in Hv.
    inversion Hv as [|? ? ? v ? ? ? Hne Hl Hr Hk Hrest]; subst.
    destruct (IH _ _ _ _ _ Hrest) as (l & r & Hpre & Hpost).
    exists l, r. split; [|done]. by apply (visits_child h left right k v).
Qed.

Lemma keysOf_impl (P Q : string -> Prop) h :
  (forall k, P k -> Q k) -> keysOf P h -> keysOf Q h.
Proof.
  intros Himpl Hkeys. eapply Forall_impl; [exact Hkeys|].
  intros [fs|items] Hcell; [|done].
  eapply Forall_impl; [exact Hcell | exact Himpl].
Qed.

Lemma treeKeys_ordinary h : keysOf treeKey h -> ordinaryHeap h.
Proof. apply keysOf_impl. by intros k [_ Hk]. Qed.

Lemma mergeHeap_keys : keysOf treeKey mergeHeap.
Proof.
  unfold keysOf, mergeHeap.
  repeat (apply Forall_cons; split;
    [cbn; repeat (apply Forall_cons; split;
       [split; [split_and!; [discriminate | vm_compute; intuition discriminate
                             | reflexivity] | reflexivity]|]);
     apply Forall_nil_2|]).
  apply Forall_nil_2.
Qed.

(** C3 (amended): for every pair of trees whose keys are ordinary names
    that a path string can name (in a heap without dangling references or
    repeated property names, the incoming tree nested at most [d] deep
    and the recursion given more fuel than that), the skip-conflicts
    merge returns, leaves both trees as they were, and at every path its
    walk reaches (every path whose proper prefixes hold, on both sides,
    mappings that are not the same object):
    - where the two sides hold the same value, the result holds it;
    - where the current tree has a defined value, another one than the
      incoming tree's, and the two are not both mappings, the result keeps
      the current value and the path is among the conflicts;
    - where only the incoming tree has a defined value, the result adopts
      it (the value itself, or a new copy of its mapping or sequence),
      below that path the result reads as the incoming tree does, and
      neither that path nor any path below it is among the conflicts;
    - where both sides hold mappings, the keys present only in the
      current one keep their values;
    - the path is among the conflicts only if it is of the second kind.
    Every recorded conflict is the path of a node of the second kind. *)
Theorem mergeSkippingConflicts_law h current incoming d fuel :
  wellFormed h -> keysOf treeKey h ->
  validIn (length h) current -> validIn (length h) incoming ->
  nesting d h incoming = true -> d < fuel ->
  exists h' result conflicts,
    mergeSkippingConflicts fuel h current incoming
    = Some (h', result, conflicts) /\
    (forall a, a < length h -> h' !! a = h !! a) /\
    (forall keys l r,
       visits h current incoming keys l r ->
       (l = r -> getParts h' result keys = l) /\
       (conflictAt h l r ->
        getParts h' result keys = l /\ In (pathString keys) conflicts) /\
       (l = VUndefined -> r <> VUndefined ->
        adopts h h' (length h) r (getParts h' result keys) /\
        (forall more, more <> [] ->
                      getParts h' result (keys ++ more) = getParts h r more) /\
        (forall more, Forall plainKey more ->
                      ~ In (pathString (keys ++ more)) conflicts)) /\
       (l <> r -> isObject h l = true -> isObject h r = true ->
        forall key, getField (fieldsOf h r) key = None ->
                    getParts h' result (keys ++ [key]) = readProp h l key) /\
       (In (pathString keys) conflicts -> conflictAt h l r)) /\
    (forall p, In p conflicts ->
       exists keys l r,
         visits h current incoming keys l r /\ pathString keys = p /\
         conflictAt h l r).
Proof.
  intros Hwf Hkeys Hc Hi Hnest Hd.
  destruct (skipMergeNode_law fuel d h h [] current incoming EmptyString
              Hwf (extends_refl h) Hc Hi Hnest Hd)
    as (h' & new & res & Hrun & Hext & Hspec & Hrec).
  exists h', res, new. unfold mergeSkippingConflicts. rewrite Hrun.
  split_and!; [done | apply Hext | | exact Hrec].
  intros keys l r Hv.
  destruct (Hspec h' (fun a _ _ => eq_refl) keys l r Hv) as (S1 & S2 & S3 & S4).
  assert (Hplain : Forall plainKey keys).
  { eapply Forall_impl; [by eapply (visits_keys treeKey)|]. by intros k [Hk _]. }
  split_and!; try done.
  - intros Hl Hr. split_and!; [by apply S3 | |].
    + intros more Hmore. rewrite getParts_app.
      apply (adopts_below h h' (length h)); try done; [|by apply S3].
      by destruct (visits_valid h current incoming keys l r Hwf Hv Hc Hi).
    + intros more Hmore Hin.
      destruct (Hrec _ Hin) as (keys' & l' & r' & Hv' & Hp & Hconf).
      assert (Hsame : keys' = keys ++ more).
      { apply pathString_inj; [|by apply Forall_app|exact Hp].
        eapply Forall_impl; [by eapply (visits_keys treeKey)|]. by intros k [Hk _]. }
      subst keys'.
      destruct (visits_prefix h keys _ _ more l' r' Hv') as (l0 & r0 & Hpre & Hpost).
      destruct (visits_fun h current incoming keys l r l0 r0 Hv Hpre) as [<- <-].
      subst l.
      destruct (visits_leaf h VUndefined r more l' r' Hpost) as (_ & -> & _);
        [right; by left|].
      by destruct Hconf as (_ & Hu & _).
  - intros Hin. destruct (Hrec _ Hin) as (keys' & l' & r' & Hv' & Hp & Hconf).
    assert (Hsame : keys' = keys).
    { apply pathString_inj; [|done|exact Hp].
      eapply Forall_impl; [by eapply (visits_keys treeKey)|]. by intros k [Hk _]. }
    subst keys'. by destruct (visits_fun h current incoming keys l r l' r' Hv Hv') as [-> ->].
Qed.

Lemma mergeSkippingConflicts_law_witness :
  exists h' result conflicts,
    mergeSkippingConflicts 3 mergeHeap (VRef 4) (VRef 5)
    = Some (h', result, conflicts) /\
    getParts h' result ["a"] = VNum 5 /\ In "a" conflicts.
Proof.
  destruct (mergeSkippingConflicts_law mergeHeap (VRef 4) (VRef 5) 2 3
              mergeHeap_wellFormed mergeHeap_keys)
    as (h' & result & conflicts & Hrun & _ & Hspec & _).
  - cbn. lia.
  - cbn. lia.
  - reflexivity.
  - lia.
  - exists h', result, conflicts. split; [exact Hrun|].
    apply (Hspec ["a"] (VNum 5) (VRef 6)).
    + apply (visits_child mergeHeap (VRef 4) (VRef 5) "a" (VRef 6) []);
        [discriminate | reflexivity | reflexivity | reflexivity | constructor].
    + split_and!; [discriminate | discriminate |]. intros [H _]. discriminate H.
Defined.

(** ** State container *)

Lemma sameSetup_refl s : sameSetup s s.
Proof. by repeat split. Qed.

Lemma sameSetup_trans s1 s2 s3 :
  sameSetup s1 s2 -> sameSetup s2 s3 -> sameSetup s1 s3.
Proof. unfold sameSetup. intros H1 H2. intuition congruence. Qed.

Lemma sameSetup_emit s e : sameSetup s (emit s e).
Proof. by repeat split. Qed.

Lemma sameSetup_withState s v : sameSetup s (withState s v).
Proof. by repeat split. Qed.

Lemma sameSetup_withMicrotasks s q : sameSetup s (withMicrotasks s q).
Proof. by repeat split. Qed.

Lemma sameSetup_notify s : sameSetup s (notify s).
Proof. by repeat split. Qed.

Lemma sameSetup_persist s v : sameSetup s (persist s v).
Proof. unfold persist. destruct (persistence s); by repeat split. Qed.

Lemma syncPushEach_setup adapters : forall s st,
  sameSetup s (fst (syncPushEach s adapters st)) /\
  state (fst (syncPushEach s adapters st)) = state s.
Proof.
  induction adapters as [|a rest IH]; intros s st; cbn [syncPushEach].
  - split; [apply sameSetup_refl | done].
  - destruct (push a st) as [|e|e].
    + destruct (IH (emit s (EPush (adapterId a) st)) st) as [H1 H2].
      split; [|by rewrite H2].
      eapply sameSetup_trans; [apply sameSetup_emit | exact H1].
    + set (s1 := emit s (EPush (adapterId a) st)).
      destruct (IH (withMicrotasks s1 (microtasks s1 ++ [(a, e)])) st)
        as [H1 H2].
      split; [|by rewrite H2].
      eapply sameSetup_trans; [apply sameSetup_emit|].
      eapply sameSetup_trans; [apply sameSetup_withMicrotasks | exact H1].
    + split; [apply sameSetup_emit | done].
Qed.

(** A commit keeps the setup, and leaves either the old snapshot (no-op) or
    the new one as the current state: the swap comes before the side
    effects, so this holds even for a commit that does not return. *)
Lemma commitState_setup s nextState src d optPersist optSync :
  sameSetup s (fst (commitState s nextState src d optPersist optSync)) /\
  (state (fst (commitState s nextState src d optPersist optSync)) = nextState).
Proof.
  unfold commitState. unfold objectIs. case_bool_decide as Hsame.
  { split; [apply sameSetup_refl | done]. }
  set (s1 := withState s nextState).
  set (s2 := if optPersist then persist s1 nextState else s1).
  assert (H2 : sameSetup s s2 /\ state s2 = nextState).
  { unfold s2. destruct optPersist.
    - split.
      + eapply sameSetup_trans; [apply sameSetup_withState | apply sameSetup_persist].
      + unfold persist. by destruct (persistence s1).
    - split; [apply sameSetup_withState | done]. }
  destruct H2 as [H2 H2s].
  destruct optSync.
  - unfold syncPush.
    destruct (syncPushEach_setup (syncAdapters s2) s2 nextState) as [H3 H3s].
    destruct (syncPushEach s2 (syncAdapters s2) nextState) as [s3 [[]|e]];
      cbn [fst] in *.
    + split.
      * eapply sameSetup_trans; [exact H2|].
        eapply sameSetup_trans; [exact H3|].
        destruct (onStateChange s3).
        -- eapply sameSetup_trans; [apply sameSetup_emit | apply sameSetup_notify].
        -- apply sameSetup_notify.
      * destruct (onStateChange s3); cbn; congruence.
    + split; [eapply sameSetup_trans; eauto | congruence].
  - cbn [fst]. split.
    + eapply sameSetup_trans; [exact H2|].
      destruct (onStateChange s2).
      * eapply sameSetup_trans; [apply sameSetup_emit | apply sameSetup_notify].
      * apply sameSetup_notify.
    + destruct (onStateChange s2); cbn; congruence.
Qed.

(** [set] keeps everything but the heap, which only grows: the cells that
    existed before the call keep their contents. *)
Lemma set_setup s path v :
  let s' := fst (Store.set s path v) in
  initialState s' = initialState s /\
  persistence s' = persistence s /\
  listeners s' = listeners s /\
  syncAdapters s' = syncAdapters s /\
  length (heapOf s) <= length (heapOf s') /\
  (forall l, l < length (heapOf s) -> heapOf s' !! l = heapOf s !! l).
Proof.
  unfold Store.set.
  pose proof (setByPath_frame (heapOf s) (state s) path v) as Hframe.
  pose proof (setByPath_length (heapOf s) (state s) path v) as Hlen.
  destruct (setByPath (heapOf s) (state s) path v) as [h1 nextState].
  cbn [fst] in Hframe, Hlen.
  destruct (objectIs (getByPath (heapOf s) (state s) path) v).
  { cbn. by repeat split. }
  set (s1 := withHeap s h1).
  destruct (commitState_setup s1 nextState SrcSet
              (Some (path, v, getByPath (heapOf s) (state s) path)) true true)
    as [Hs _].
  destruct (commitState s1 nextState SrcSet _ true true) as [s2 [[]|e]];
    cbn [fst] in *;
    destruct Hs as (Hh & Hi & Hp & _ & _ & Hl & Ha & _);
    [destruct (onChange s2)|]; cbn; rewrite ?Hh, ?Hi, ?Hp, ?Hl, ?Ha;
    by repeat split.
Qed.




Lemma setMany_setup calls : forall s,
  initialState (setMany s calls) = initialState s /\
  length (heapOf s) <= length (heapOf (setMany s calls)) /\
  (forall l, l < length (heapOf s) ->
             heapOf (setMany s calls) !! l = heapOf s !! l).
Proof.
  induction calls as [|[path v] rest IH]; intros s; cbn [setMany].
  - by repeat split.
  - destruct (IH (fst (Store.set s path v))) as (Hi & Hlen & Hframe).
    destruct (set_setup s path v) as (Hi' & _ & _ & _ & Hlen' & Hframe').
    split_and!.
    + congruence.
    + lia.
    + intros l Hl. rewrite Hframe by lia. by apply Hframe'.
Qed.

(** C7: for every store and every finite sequence of [set] calls,
    [reset()] afterwards makes [getState()] equal to [getInitialState()];
    [getInitialState()] returns the same tree before the calls, after them
    and after the reset, and every heap cell that existed before the calls
    (the cells of that tree among them) still has the contents it had. *)
Theorem reset_after_sets s calls :
  let s1 := setMany s calls in
  let s2 := fst (Store.reset s1) in
  Store.getState s2 = Store.getInitialState s2 /\
  Store.getInitialState s1 = Store.getInitialState s /\
  Store.getInitialState s2 = Store.getInitialState s /\
  (forall l, l < length (heapOf s) -> heapOf s1 !! l = heapOf s !! l) /\
  (forall l, l < length (heapOf s) -> heapOf s2 !! l = heapOf s !! l).
Proof.
  intros s1 s2. unfold Store.getState, Store.getInitialState.
  destruct (setMany_setup calls s) as (Hi & Hlen & Hframe).
  destruct (commitState_setup s1 (initialState s1) SrcReset None true true)
    as [(Hh & Hi2 & _) Hst].
  fold (Store.reset s1) in Hh, Hi2, Hst. fold s2 in Hh, Hi2, Hst.
  fold s1 in Hi, Hframe.
  split_and!.
  - congruence.
  - exact Hi.
  - congruence.
  - exact Hframe.
  - intros l Hl. rewrite Hh. by apply Hframe.
Qed.

(** C9: when [loadSync] of the persistence adapter returns a non-absent
    tree, the constructed store has that tree as current state with no
    call made to any collaborator and none pending, [getInitialState()]
    is the constructor argument (so the two differ whenever the loaded
    tree is another one), and [reset()] makes the constructor argument
    current. *)
Theorem createSettingsStore_loadSync h initial pa persisted c sc :
  loadSync pa = Some persisted ->
  truthy persisted = true ->
  let s := createSettingsStore h initial (Some pa) c sc in
  Store.getState s = persisted /\
  trace s = [] /\ microtasks s = [] /\
  Store.getInitialState s = initial /\
  (persisted <> initial -> Store.getState s <> Store.getInitialState s) /\
  Store.getState (fst (Store.reset s)) = initial.
Proof.
  intros Hload Htruthy s.
  assert (Hs : state s = persisted).
  { unfold s, createSettingsStore. cbn. by rewrite Hload, Htruthy. }
  split_and!; try done.
  - unfold Store.getState, Store.getInitialState. by rewrite Hs.
  - unfold Store.getState, Store.reset.
    destruct (commitState_setup s (initialState s) SrcReset None true true)
      as [_ Hst].
    by rewrite Hst.
Qed.

Lemma createSettingsStore_loadSync_witness :
  let s := createSettingsStore nestedHeap nestedRoot (Some storedBranch)
             true true in
  Store.getState s = VRef 1 /\ trace s = [] /\ microtasks s = [] /\
  Store.getInitialState s = nestedRoot /\
  Store.getState s <> Store.getInitialState s /\
  Store.getState (fst (Store.reset s)) = nestedRoot.
Proof.
  pose proof (createSettingsStore_loadSync nestedHeap nestedRoot storedBranch
                (VRef 1) true true eq_refl eq_refl) as (H1 & H2 & H3 & H4 & H5 & H6).
  split_and!; try assumption. apply H5. discriminate.
Defined.

(** ** Outbound pushes *)

Lemma syncPushEach_without_throw adapters : forall s st,
  (forall a e, In a adapters -> push a st <> PushThrows e) ->
  snd (syncPushEach s adapters st) = Returned tt /\
  trace (fst (syncPushEach s adapters st))
  = trace s ++ map (fun a => EPush (adapterId a) st) adapters /\
  microtasks (fst (syncPushEach s adapters st))
  = microtasks s ++ rejections st adapters.
Proof.
  induction adapters as [|a rest IH]; intros s st Hok; cbn [syncPushEach].
  - cbn. by rewrite !app_nil_r.
  - assert (Hrest : forall b e, In b rest -> push b st <> PushThrows e)
      by (intros b e Hb; apply Hok; by right).
    unfold rejections. cbn [flat_map map].
    destruct (push a st) as [|e|e] eqn:Hp.
    + destruct (IH (emit s (EPush (adapterId a) st)) st Hrest) as (H1 & H2 & H3).
      rewrite H1, H2, H3. cbn. by rewrite <- app_assoc.
    + set (s1 := emit s (EPush (adapterId a) st)).
      destruct (IH (withMicrotasks s1 (microtasks s1 ++ [(a, e)])) st Hrest)
        as (H1 & H2 & H3).
      rewrite H1, H2, H3. cbn. by rewrite <- !app_assoc.
    + exfalso. apply (Hok a e); [by left | done].
Qed.

Lemma runMicrotasks_trace s :
  trace (runMicrotasks s) = trace s ++ errorCalls (microtasks s) /\
  microtasks (runMicrotasks s) = [].
Proof.
  unfold runMicrotasks. split; [|done]. cbn.
  generalize (microtasks s). intros q. revert s.
  induction q as [|t q IH]; intros s; cbn [fold_left errorCalls flat_map].
  - by rewrite app_nil_r.
  - rewrite IH. unfold runCatch. destruct (onError (fst t)); cbn.
    + by rewrite <- app_assoc.
    + done.
Qed.

(** When no registered adapter throws from [push], a [set] that changes
    the value returns, has the new tree committed, has issued one push to
    every registered adapter, and has queued one reaction per rejected
    push, which hands that adapter's [onError] its one error. *)
Lemma set_with_rejecting_pushes s path v :
  (forall a e st, In a (syncAdapters s) -> push a st <> PushThrows e) ->
  objectIs (Store.get s path) v = false ->
  snd (setByPath (heapOf s) (state s) path v) <> state s ->
  let next := snd (setByPath (heapOf s) (state s) path v) in
  let s' := fst (Store.set s path v) in
  snd (Store.set s path v) = Returned tt /\
  Store.getState s' = next /\
  (forall a, In a (syncAdapters s) -> In (EPush (adapterId a) next) (trace s')) /\
  microtasks s' = microtasks s ++ rejections next (syncAdapters s) /\
  trace (runMicrotasks s')
  = trace s' ++ errorCalls (microtasks s ++ rejections next (syncAdapters s)).
Proof.
  intros Hok Hdiff Hnew next s'.
  assert (Hgoal : snd (Store.set s path v) = Returned tt /\
    Store.getState s' = next /\
    (forall a, In a (syncAdapters s) -> In (EPush (adapterId a) next) (trace s')) /\
    microtasks s' = microtasks s ++ rejections next (syncAdapters s)).
  { subst s' next. unfold Store.set, Store.get, Store.getState in *.
    destruct (setByPath (heapOf s) (state s) path v) as [h1 nextState].
    cbn [snd] in *. rewrite Hdiff.
    unfold commitState, objectIs. cbn [state withHeap].
    rewrite bool_decide_eq_false_2 by done.
    unfold syncPush.
    set (s2 := persist (withState (withHeap s h1) nextState) nextState).
    assert (Hads : syncAdapters s2 = syncAdapters s).
    { unfold s2, persist. by destruct (persistence _). }
    assert (Hmt : microtasks s2 = microtasks s).
    { unfold s2, persist. by destruct (persistence _). }
    assert (Hs2 : state s2 = nextState).
    { unfold s2, persist. by destruct (persistence _). }
    destruct (syncPushEach_without_throw (syncAdapters s2) s2 nextState)
      as (H1 & H2 & H3).
    { intros a e Ha. apply Hok. by rewrite <- Hads. }
    destruct (syncPushEach_setup (syncAdapters s2) s2 nextState) as [_ Hst].
    destruct (syncPushEach s2 (syncAdapters s2) nextState) as [s3 c3].
    cbn [fst snd] in *. subst c3.
    assert (Hpushed : forall a, In a (syncAdapters s) ->
                                In (EPush (adapterId a) nextState) (trace s3)).
    { intros a Ha. rewrite H2. apply in_or_app. right. rewrite Hads.
      by apply (in_map (fun a => EPush (adapterId a) nextState)). }
    assert (Hin : forall (x : event) l1 l2, In x l1 -> In x (l1 ++ l2))
      by (intros; apply in_or_app; by left).
    destruct (onStateChange s3), (onChange s3) eqn:Hoc; cbn;
      rewrite ?Hoc; cbn; rewrite H3, Hmt, Hads;
      (split_and!; [done | congruence | | done]);
      intros a Ha; repeat apply Hin; by apply Hpushed. }
  destruct Hgoal as (G1 & G2 & G3 & G4).
  split_and!; try done.
  destruct (runMicrotasks_trace s') as [-> _]. by rewrite G4.
Qed.

(** C1 at a push that throws: with the throwing adapter registered before
    the quiet one, [set("x", 2)] swaps the snapshot and then raises the
    push error to its caller; the quiet adapter's push is never issued and
    the throwing adapter's [onError] receives nothing. *)
Theorem set_with_throwing_push :
  let r := Store.set throwingStore "x" (VNum 2) in
  map adapterId (syncAdapters throwingStore) = [1; 2] /\
  snd r = Threw "network failure" /\
  Store.getState (fst r) = VRef 2 /\
  heapOf (fst r) !! 2 = Some (OObj [("x", VNum 2)]) /\
  trace (runMicrotasks (fst r)) = [EPush 1 (VRef 2)] /\
  ~ In (EPush 2 (VRef 2)) (trace (runMicrotasks (fst r))) /\
  ~ In (EOnError 1 "network failure") (trace (runMicrotasks (fst r))).
Proof.
  vm_compute. split_and!; try reflexivity; intros [H|H]; try discriminate H;
    try destruct H.
Qed.

(** The same call when the first adapter's push rejects instead: the call
    returns, both pushes are issued, and [onError] gets its one error. *)
Example set_with_rejecting_push :
  let r := Store.set rejectingStore "x" (VNum 2) in
  snd r = Returned tt /\
  Store.getState (fst r) = VRef 2 /\
  trace (runMicrotasks (fst r))
  = [EPush 3 (VRef 2); EPush 2 (VRef 2); EOnError 3 "network failure"].
Proof. vm_compute. by repeat split. Qed.

(** ** What a commit adds to the calls *)

(** The adapters a round of pushes gets to form a prefix of the active
    set, which holds every adapter before which no push throws, and all
    of them if the round returns; the round adds one push call per
    adapter it gets to and one reaction per rejected push. *)
Lemma syncPushEach_delta adapters : forall s st,
  exists pushed rest,
    adapters = pushed ++ rest /\
    trace (fst (syncPushEach s adapters st))
    = trace s ++ map (fun a => EPush (adapterId a) st) pushed /\
    microtasks (fst (syncPushEach s adapters st))
    = microtasks s ++ rejections st pushed /\
    (snd (syncPushEach s adapters st) = Returned tt -> rest = []) /\
    (forall earlier a later,
       adapters = earlier ++ a :: later ->
       (forall b e, In b earlier -> push b st <> PushThrows e) ->
       In a pushed).
Proof.
  induction adapters as [|a0 more IH]; intros s st; cbn [syncPushEach].
  - exists [], []. cbn. rewrite !app_nil_r. split_and!; try done.
    intros earlier a later Heq. by destruct earlier.
  - assert (Hstep : forall s1,
              trace s1 = trace s ++ [EPush (adapterId a0) st] ->
              microtasks s1 = microtasks s ++ rejections st [a0] ->
              (forall e, push a0 st <> PushThrows e) ->
              exists pushed rest,
                a0 :: more = pushed ++ rest /\
                trace (fst (syncPushEach s1 more st))
                = trace s ++ map (fun a => EPush (adapterId a) st) pushed /\
                microtasks (fst (syncPushEach s1 more st))
                = microtasks s ++ rejections st pushed /\
                (snd (syncPushEach s1 more st) = Returned tt -> rest = []) /\
                (forall earlier a later,
                   a0 :: more = earlier ++ a :: later ->
                   (forall b e, In b earlier -> push b st <> PushThrows e) ->
                   In a pushed)).
    { intros s1 Ht Hm Hok.
      destruct (IH s1 st) as (pushed & rest & Heq & Htr & Hmt & Hret & Hin).
      exists (a0 :: pushed), rest. split_and!.
      - by rewrite Heq.
      - rewrite Htr, Ht. cbn [map]. by rewrite <- app_assoc.
      - rewrite Hmt, Hm. unfold rejections. cbn [flat_map].
        by rewrite app_nil_r, <- app_assoc.
      - done.
      - intros earlier a later Hsplit Hearlier.
        destruct earlier as [|b earlier]; cbn in Hsplit.
        + injection Hsplit as <- _. by left.
        + injection Hsplit as <- Hsplit. right.
          apply (Hin earlier a later Hsplit).
          intros b e Hb. apply Hearlier. by right. }
    destruct (push a0 st) as [|e|e] eqn:Hpush.
    + apply Hstep; try done. cbn. unfold rejections. cbn.
      by rewrite Hpush, app_nil_r.
    + apply Hstep; try done. cbn. unfold rejections. cbn. by rewrite Hpush.
    + exists [a0], more. cbn [fst snd]. split_and!; try done.
      * cbn. unfold rejections. cbn. by rewrite Hpush, app_nil_r.
      * intros earlier a later Hsplit Hearlier.
        destruct earlier as [|b earlier]; cbn in Hsplit.
        -- injection Hsplit as <- _. by left.
        -- injection Hsplit as <- _. exfalso.
           apply (Hearlier a0 e); [by left | done].
Qed.

(** What a commit that changes the state adds to the calls: the save, the
    pushes it gets to and, if it returns, the state-change observer and
    the subscribers. *)
Lemma commitState_delta s nextState src d optPersist optSync :
  nextState <> state s ->
  let r := commitState s nextState src d optPersist optSync in
  exists pushed rest,
    (if optSync then syncAdapters s = pushed ++ rest else pushed = []) /\
    trace (fst r)
    = trace s
      ++ (if optPersist
          then match persistence s with
               | Some _ => [ESave nextState]
               | None => []
               end
          else [])
      ++ map (fun a => EPush (adapterId a) nextState) pushed
      ++ match snd r with
         | Returned _ =>
             (if onStateChange s
              then [EStateChange src nextState (state s) d] else [])
             ++ map ENotify (listeners s)
         | Threw _ => []
         end /\
    microtasks (fst r) = microtasks s ++ rejections nextState pushed /\
    (snd r = Returned tt -> optSync = true -> pushed = syncAdapters s) /\
    (optSync = true ->
     forall earlier a later,
       syncAdapters s = earlier ++ a :: later ->
       (forall b e, In b earlier -> push b nextState <> PushThrows e) ->
       In a pushed).
Proof.
  intros Hne. cbv zeta. unfold commitState, objectIs.
  rewrite bool_decide_eq_false_2 by done.
  set (s2 := if optPersist then persist (withState s nextState) nextState
             else withState s nextState).
  assert (Hs2 : syncAdapters s2 = syncAdapters s /\
                microtasks s2 = microtasks s /\
                onStateChange s2 = onStateChange s /\
                listeners s2 = listeners s /\
                trace s2 = trace s ++ (if optPersist
                                       then match persistence s with
                                            | Some _ => [ESave nextState]
                                            | None => []
                                            end
                                       else [])).
  { unfold s2, persist. destruct optPersist; cbn [persistence withState];
      [destruct (persistence s)|]; cbn; rewrite ?app_nil_r; by split_and!. }
  destruct Hs2 as (Ha & Hm & Hsc & Hl & Ht). clearbody s2.
  destruct optSync.
  - unfold syncPush.
    destruct (syncPushEach_delta (syncAdapters s2) s2 nextState)
      as (pushed & rest & Heq & Htr & Hmt & Hret & Hin).
    pose proof (syncPushEach_setup (syncAdapters s2) s2 nextState)
      as [(_ & _ & _ & _ & Hsc3 & Hl3 & _) _].
    destruct (syncPushEach s2 (syncAdapters s2) nextState) as [s3 [[]|e]];
      cbn [fst snd] in *; exists pushed, rest.
    + rewrite Hsc in Hsc3. rewrite Hl in Hl3.
      specialize (Hret eq_refl). subst rest. rewrite app_nil_r in Heq.
      split_and!.
      * by rewrite <- Ha, Heq, app_nil_r.
      * destruct (onStateChange s3) eqn:E; cbn; rewrite Htr, Ht, Hl3, <- Hsc3;
          cbn; by rewrite <- !app_assoc.
      * destruct (onStateChange s3); cbn; by rewrite Hmt, Hm.
      * intros _ _. by rewrite <- Ha.
      * intros _. rewrite <- Ha. exact Hin.
    + split_and!.
      * by rewrite <- Ha.
      * rewrite Htr, Ht. by rewrite app_nil_r, <- app_assoc.
      * by rewrite Hmt, Hm.
      * done.
      * intros _. rewrite <- Ha. exact Hin.
  - exists [], []. cbn [fst snd map]. split_and!; try done.
    + rewrite <- Hsc, <- Hl.
      destruct (onStateChange s2); cbn; rewrite Ht; by rewrite <- ?app_assoc.
    + unfold rejections. cbn. rewrite app_nil_r.
      destruct (onStateChange s2); cbn; by rewrite Hm.
Qed.

(** The calls of a commit that returns. *)
Lemma commitState_returned s nextState src d s' :
  nextState <> state s ->
  commitState s nextState src d true true = (s', Returned tt) ->
  state s' = nextState /\
  trace s' = trace s ++ commitCalls s src nextState d /\
  microtasks s' = microtasks s ++ rejections nextState (syncAdapters s).
Proof.
  intros Hne Hrun.
  destruct (commitState_delta s nextState src d true true Hne)
    as (pushed & rest & _ & Htr & Hmt & Hall & _).
  pose proof (commitState_setup s nextState src d true true) as [_ Hst].
  rewrite Hrun in Htr, Hmt, Hall, Hst. cbn [fst snd] in *.
  rewrite (Hall eq_refl eq_refl) in Htr, Hmt. by split_and!.
Qed.

(** ** Import *)

(** The object returned by [deepMerge] for an incoming mapping or sequence
    is always a new one. *)
Lemma deepMergeNode_fresh fuel h left right h' merged :
  isObject h right = true \/ isArray h right = true ->
  deepMergeNode fuel h left right = Some (h', merged) ->
  merged = VRef (length h).
Proof.
  intros Hright Hrun. destruct fuel as [|fuel]; [done|].
  cbn [deepMergeNode alloc] in Hrun.
  destruct (isArray h right) eqn:Harr; [by inversion Hrun|].
  destruct Hright as [Hobj|?]; [|done]. rewrite Hobj in Hrun. cbn [negb] in Hrun.
  destruct (isObject h left); cbn [negb] in Hrun; [|by inversion Hrun].
  destruct (forEntries _ _ _); by inversion Hrun.
Qed.

(** C2, as stated, on a store over [{ x: 1 }]: importing a tree equal to
    the current state with strategy "merge" yields a tree with the same
    contents, yet it returns [applied = true], commits the new tree, saves
    it and notifies the subscriber; the same happens when the incoming
    tree is the current state object itself. *)
Theorem importSettings_merge_equal_tree :
  let r := Store.importSettings 2 equalStore (VRef 1) (withStrategy Store.Merge) in
  importView r
  = Some (Returned {| Store.applied := true;
                      Store.strategyUsed := Store.Merge;
                      Store.conflicts := [] |},
          VRef 2,
          [ESave (VRef 2); EStateChange SrcImport (VRef 2) (VRef 0) None;
           ENotify 7]) /\
  (forall s c, r = Some (s, c) -> heapOf s !! 2 = heapOf s !! 0) /\
  importView (Store.importSettings 2 equalStore (VRef 0)
                (withStrategy Store.Merge))
  = importView r.
Proof.
  split_and!; [by vm_compute | | by vm_compute].
  intros s c. vm_compute. intros H. by inversion H.
Qed.

(** The sibling policy does keep the current tree in that last case:
    skip-conflicts against the current state object itself applies
    nothing and commits nothing. *)
Example importSettings_skip_same_tree :
  importView (Store.importSettings 2 equalStore (VRef 0)
                (withStrategy Store.SkipConflicts))
  = Some (Returned {| Store.applied := false;
                      Store.strategyUsed := Store.SkipConflicts;
                      Store.conflicts := [] |},
          VRef 0, []).
Proof. by vm_compute. Qed.

(** With strategy "merge" the test [!Object.is(nextState, state)] never
    fails: whenever such an import returns, it has applied. *)
Lemma importSettings_merge_applies fuel s candidate ok s' r :
  (forall l, state s = VRef l -> l < length (heapOf s)) ->
  Store.importSettings fuel s candidate
    {| Store.optStrategy := Some Store.Merge; Store.optValidate := ok |}
  = Some (s', Returned r) ->
  Store.applied r = true.
Proof.
  intros Hvalid. unfold Store.importSettings. cbn [Store.optStrategy Store.optValidate].
  destruct (isObject (heapOf s) candidate) eqn:Hobj; cbn [negb]; [|done].
  destruct (match ok with Some f => negb (f (heapOf s) candidate) | None => false end);
    [done|].
  unfold deepMerge.
  destruct (deepMergeNode fuel (heapOf s) (state s) candidate) as [[h' next]|] eqn:Hrun;
    [|done].
  apply deepMergeNode_fresh in Hrun; [|by left]. subst next.
  cbn [state withHeap].
  assert (Hne : objectIs (VRef (length (heapOf s))) (state s) = false).
  { unfold objectIs. apply bool_decide_eq_false_2. intros Heq.
    symmetry in Heq. apply Hvalid in Heq. lia. }
  rewrite Hne. cbn [negb].
  destruct (commitState _ _ _ _ _ _) as [s2 [[]|e]]; [|done].
  intros H. by inversion H.
Qed.

(** ** Sync engine *)

Lemma commitState_without_push s nextState src d :
  nextState <> state s ->
  let s' := fst (commitState s nextState src d true false) in
  snd (commitState s nextState src d true false) = Returned tt /\
  state s' = nextState /\
  trace s' = trace s ++ quietCommitCalls s src nextState d /\
  microtasks s' = microtasks s /\
  syncAdapters s' = syncAdapters s.
Proof.
  intros Hne. unfold commitState, objectIs, quietCommitCalls.
  rewrite bool_decide_eq_false_2 by done.
  unfold persist. cbn [persistence withState].
  destruct (persistence s), (onStateChange s) eqn:Hsc; cbn; rewrite ?Hsc; cbn;
    rewrite <- ?app_assoc; by repeat split.
Qed.

Lemma addAdapter_registers s adapter :
  In (adapterId adapter) (map adapterId (syncAdapters (Store.addAdapter s adapter))).
Proof.
  unfold Store.addAdapter.
  destruct (existsb _ (syncAdapters s)) eqn:Hex.
  - apply existsb_exists in Hex as (a & Ha & Heq).
    apply Nat.eqb_eq in Heq. rewrite <- Heq. by apply in_map.
  - cbn. rewrite map_app. apply in_or_app. right. by left.
Qed.

Lemma addAdapter_keeps s adapter a :
  In a (syncAdapters s) -> In a (syncAdapters (Store.addAdapter s adapter)).
Proof.
  intros Ha. unfold Store.addAdapter.
  destruct (existsb _ (syncAdapters s)); [done|].
  cbn. apply in_or_app. by left.
Qed.

(** C5, as stated, fails on a store with another adapter registered: the
    commit of the pulled tree swaps the snapshot and saves it, but no push
    reaches the quiet adapter, registered before the pulling one. *)
Lemma syncSettings_pull_pushes_nobody :
  let r := Store.syncSettings syncedStore pullingAdapter in
  map adapterId (syncAdapters (fst r)) = [2; 4] /\
  Store.getState syncedStore = VRef 0 /\
  Store.getState (fst r) = VRef 1 /\
  trace (runMicrotasks (fst r)) = [ESave (VRef 1)] /\
  ~ In (EPush 2 (VRef 1)) (trace (runMicrotasks (fst r))).
Proof.
  vm_compute. split_and!; try reflexivity. intros [H|H]; [discriminate H | destruct H].
Qed.

(** C5 (amended): when [syncSettings] pulls a tree and commits the
    reconciled result with trigger "sync", that commit swaps the snapshot,
    invokes the persistence save (when a persistence adapter is
    configured), the state-change observer and the subscribers, and issues
    no push at all: neither to the pulling adapter nor to any other
    registered adapter. *)
Theorem syncSettings_pull_commit s adapter incoming :
  pull adapter = Some incoming ->
  truthy incoming = true ->
  Store.failsValidation s adapter incoming = false ->
  let started := fst (Store.syncSettingsStart s adapter) in
  let merged := snd (Store.mergedWith started adapter incoming) in
  merged <> Store.getState s ->
  let s' := fst (Store.syncSettings s adapter) in
  Store.getState s' = merged /\
  trace s' = trace s ++ quietCommitCalls s SrcSync merged None /\
  (forall a st, In (EPush a st) (trace s') -> In (EPush a st) (trace s)) /\
  microtasks s' = microtasks s /\
  (forall a, In a (syncAdapters s) -> In a (syncAdapters s')).
Proof.
  intros Hpull Htruthy Hvalid started merged Hne s'.
  assert (Hgoal : Store.getState s' = merged /\
    trace s' = trace s ++ quietCommitCalls s SrcSync merged None /\
    microtasks s' = microtasks s /\
    (forall a, In a (syncAdapters s) -> In a (syncAdapters s'))).
  { subst s' merged started.
    unfold Store.syncSettings, Store.syncSettingsStart in *.
    cbn [fst snd] in *. rewrite Hpull.
    set (s1 := withSessions (Store.addAdapter s adapter) _ _) in *.
    assert (Hheap : heapOf s1 = heapOf s).
    { unfold s1, Store.addAdapter. by destruct (existsb _ _). }
    assert (Hcore : state s1 = state s /\ trace s1 = trace s /\
                    microtasks s1 = microtasks s /\
                    persistence s1 = persistence s /\
                    onStateChange s1 = onStateChange s /\
                    listeners s1 = listeners s).
    { unfold s1, Store.addAdapter. by destruct (existsb _ _). }
    destruct Hcore as (Hst & Htr & Hmt & Hp & Hsc & Hl).
    assert (Hads : forall a, In a (syncAdapters s) -> In a (syncAdapters s1)).
    { intros a Ha. unfold s1. cbn. by apply addAdapter_keeps. }
    assert (Hv1 : Store.failsValidation s1 adapter incoming = false).
    { unfold Store.failsValidation in *. by rewrite Hheap. }
    clearbody s1.
    unfold Store.syncSettingsResume. rewrite Htruthy, Hv1.
    unfold Store.mergedWith, Store.getState in *.
    destruct (merge adapter) as [f|].
    - destruct (f (heapOf s1) (state s1) incoming) as [h' m] eqn:Hf.
      cbn [snd] in Hne.
      destruct (commitState_without_push (withHeap s1 h') m SrcSync None)
        as (H1 & H2 & H3 & H4 & H5); [cbn; congruence|].
      destruct (commitState (withHeap s1 h') m SrcSync None true false)
        as [s3 c3]. cbn [fst snd] in *. subst c3. cbn [fst snd].
      cbn [withHeap microtasks syncAdapters] in H4, H5.
      split_and!; try done.
      + rewrite H3. unfold quietCommitCalls. cbn. by rewrite Htr, Hp, Hsc, Hl, Hst.
      + congruence.
      + intros a Ha. rewrite H5. by apply Hads.
    - cbn [snd] in Hne.
      destruct (commitState_without_push s1 incoming SrcSync None)
        as (H1 & H2 & H3 & H4 & H5); [congruence|].
      destruct (commitState s1 incoming SrcSync None true false) as [s3 c3].
      cbn [fst snd] in *. subst c3. cbn [fst snd].
      split_and!; try done.
      + rewrite H3. unfold quietCommitCalls. by rewrite Htr, Hp, Hsc, Hl, Hst.
      + congruence.
      + intros a Ha. rewrite H5. by apply Hads. }
  destruct Hgoal as (G1 & G2 & G3 & G4). split_and!; try done.
  intros a st. rewrite G2. intros Hin. apply in_app_or in Hin as [Hin|Hin]; [done|].
  exfalso. unfold quietCommitCalls in Hin.
  repeat (apply in_app_or in Hin as [Hin|Hin]).
  - destruct (persistence s); [destruct Hin as [Hin|[]]; discriminate Hin | destruct Hin].
  - destruct (onStateChange s); [destruct Hin as [Hin|[]]; discriminate Hin | destruct Hin].
  - apply in_map_iff in Hin as (x & Hx & _). discriminate Hx.
Qed.

Lemma syncSettings_pull_commit_witness :
  let s' := fst (Store.syncSettings syncedStore pullingAdapter) in
  Store.getState s' = VRef 1 /\
  trace s' = trace syncedStore ++ [ESave (VRef 1)] /\
  (forall a st, In (EPush a st) (trace s') -> In (EPush a st) (trace syncedStore)).
Proof.
  pose proof (syncSettings_pull_commit syncedStore pullingAdapter (VRef 1)
                eq_refl eq_refl eq_refl) as H.
  cbv zeta in H. destruct H as (H1 & H2 & H3 & _).
  - vm_compute. discriminate.
  - split_and!; [exact H1 | exact H2 | exact H3].
Defined.

(** A pulled tree that the adapter's validator rejects makes the setup
    raise, with the adapter registered and nothing committed. *)
Lemma syncSettings_invalid_pull s adapter ok incoming :
  validate adapter = Some ok ->
  ok (heapOf s) incoming = false ->
  pull adapter = Some incoming ->
  truthy incoming = true ->
  Store.syncSettings s adapter
  = (fst (Store.syncSettingsStart s adapter),
     Threw "Pulled settings failed sync adapter validation.").
Proof.
  intros Hv Hfail Hpull Htruthy.
  unfold Store.syncSettings, Store.syncSettingsStart, Store.syncSettingsResume.
  rewrite Hpull, Htruthy.
  assert (Hf : Store.failsValidation
                 (withSessions (Store.addAdapter s adapter)
                    (stoppedSessions (Store.addAdapter s adapter))
                    (S (sessions (Store.addAdapter s adapter))))
                 adapter incoming = true).
  { unfold Store.failsValidation. rewrite Hv. cbn [heapOf withSessions].
    unfold Store.addAdapter. destruct (existsb _ _); cbn; by rewrite Hfail. }
  by rewrite Hf.
Qed.

Lemma syncSettingsStart_state s adapter :
  state (fst (Store.syncSettingsStart s adapter)) = state s /\
  trace (fst (Store.syncSettingsStart s adapter)) = trace s /\
  microtasks (fst (Store.syncSettingsStart s adapter)) = microtasks s /\
  heapOf (fst (Store.syncSettingsStart s adapter)) = heapOf s.
Proof.
  unfold Store.syncSettingsStart, Store.addAdapter.
  by destruct (existsb _ _).
Qed.

(** C8: for a sync adapter with a [validate] function, a pulled tree that
    fails validation makes [syncSettings] raise an error, with nothing
    committed and no collaborator called; a tree that fails validation
    when delivered through the inbound feed is dropped: the listener
    returns without error and the store is left exactly as it was. *)
Theorem sync_validation_failure s adapter ok incoming session :
  validate adapter = Some ok ->
  ok (heapOf s) incoming = false ->
  (pull adapter = Some incoming -> truthy incoming = true ->
   (exists e, snd (Store.syncSettings s adapter) = Threw e) /\
   Store.getState (fst (Store.syncSettings s adapter)) = Store.getState s /\
   trace (fst (Store.syncSettings s adapter)) = trace s) /\
  Store.inbound s adapter session incoming = (s, Returned tt).
Proof.
  intros Hv Hfail. split.
  - intros Hpull Htruthy.
    rewrite (syncSettings_invalid_pull s adapter ok incoming) by done.
    destruct (syncSettingsStart_state s adapter) as (Hst & Htr & _).
    split_and!; [by eexists | exact Hst | exact Htr].
  - unfold Store.inbound, Store.failsValidation. rewrite Hv, Hfail. cbn [negb].
    by destruct (existsb _ _).
Qed.

Lemma sync_validation_failure_witness :
  ((exists e, snd (Store.syncSettings hydratableStore strictAdapter) = Threw e) /\
   Store.getState (fst (Store.syncSettings hydratableStore strictAdapter))
   = Store.getState hydratableStore /\
   trace (fst (Store.syncSettings hydratableStore strictAdapter))
   = trace hydratableStore) /\
  Store.inbound hydratableStore strictAdapter 0 (VRef 1)
  = (hydratableStore, Returned tt).
Proof.
  pose proof (sync_validation_failure hydratableStore strictAdapter
                (fun _ _ => false) (VRef 1) 0 eq_refl eq_refl) as [H1 H2].
  split; [apply H1; reflexivity | exact H2].
Defined.




(** ** The scenarios of the repository's tests *)

Example parsePath_demo :
  parsePath " a . b..c " = ["a"; "b"; "c"] /\ parsePath "" = [] /\
  parsePath " . " = [] /\ parsePath "appearance.theme" = ["appearance"; "theme"].
Proof. repeat split; reflexivity. Qed.

(** "reads and writes nested path values", "triggers onChange with path
    metadata", "emits state change metadata" and "keeps initial state
    snapshot stable after mutations". *)
Example demo_set :
  let s := fst (Store.set demoStore "appearance.theme" (VStr "light")) in
  Store.get demoStore "appearance.theme" = VStr "dark" /\
  Store.get s "appearance.theme" = VStr "light" /\
  Store.get s "notifications.enabled" = VBool true /\
  trace s
  = [EStateChange SrcSet (VRef 9) (VRef 0)
       (Some ("appearance.theme", VStr "light", VStr "dark"));
     EChange "appearance.theme" (VStr "light") (VStr "dark") (VRef 9)] /\
  getByPath (heapOf s) (Store.getInitialState s) "appearance.theme"
  = VStr "dark".
Proof. vm_compute. by repeat split. Qed.

(** "exports and imports settings with merge strategies": a merge import,
    then a conflicting and a non-conflicting skip-conflicts import. *)
Example demo_import :
  let s1 := afterImport demoStore
              (Store.importSettings 3 demoStore (VRef 3)
                 (withStrategy Store.Merge)) in
  let r2 := Store.importSettings 3 s1 (VRef 5)
              (withStrategy Store.SkipConflicts) in
  let s2 := afterImport s1 r2 in
  let r3 := Store.importSettings 3 s2 (VRef 7)
              (withStrategy Store.SkipConflicts) in
  Store.get s1 "appearance.theme" = VStr "light" /\
  Store.get s1 "notifications.enabled" = VBool true /\
  (exists s c, r2 = Some (s, Returned c) /\
               Store.conflicts c = ["notifications.enabled"]) /\
  Store.get s2 "notifications.enabled" = VBool true /\
  (exists s c, r3 = Some (s, Returned c) /\ Store.conflicts c = []).
Proof. vm_compute. split_and!; try done; by eexists _, _. Qed.

(** * Further properties *)

(** ** What a write leaves alone *)

(** Well-formedness of a heap given by its cells. *)
Ltac wellFormed_cells :=
  unfold wellFormed;
  repeat (apply Forall_cons; split;
          [cbn; try split;
           [repeat (apply NoDup_cons; split;
                      [intros Hin; apply list_elem_of_In in Hin; cbn in Hin;
                       intuition discriminate|]);
            try apply NoDup_nil_2
           |repeat (apply Forall_cons; split; [cbn; lia|]);
            try apply Forall_nil_2]|]);
  try apply Forall_nil_2.

Lemma demoHeap_wellFormed : wellFormed demoHeap.
Proof. unfold demoHeap. wellFormed_cells. Qed.

Lemma flatHeap_wellFormed : wellFormed flatHeap.
Proof. unfold flatHeap. wellFormed_cells. Qed.

Lemma demoHeap_ordinary : ordinaryHeap demoHeap.
Proof.
  unfold ordinaryHeap, keysOf, demoHeap.
  repeat (apply Forall_cons; split;
    [cbn; repeat (apply Forall_cons; split; [reflexivity|]); apply Forall_nil_2|]).
  apply Forall_nil_2.
Qed.

Lemma getParts_cons h o k q :
  getParts h o (k :: q)
  = match getField (fieldsOf h o) k with
    | Some x => getParts h x q
    | None => VUndefined
    end.
Proof.
  cbn [getParts]. unfold readProp, hasField, readField.
  destruct (isObject h o) eqn:Hobj; cbn [negb orb].
  - by destruct (getField (fieldsOf h o) k).
  - unfold isObject, fieldsOf in *. by destruct (deref h o) as [[fs|items]|].
Qed.

Lemma getParts_undefined h q : q <> [] -> getParts h VUndefined q = VUndefined.
Proof. by destruct q. Qed.

Lemma diverge_nonempty p q : diverge p q -> q <> [].
Proof. by destruct 1. Qed.

Lemma fieldsOf_not_object h x : isObject h x = false -> fieldsOf h x = [].
Proof. unfold isObject, fieldsOf. by destruct (deref h x) as [[fs|items]|]. Qed.

Lemma spread_object h x : isObject h x = true -> spread h x = fieldsOf h x.
Proof. unfold isObject, fieldsOf, spread. by destruct (deref h x) as [[fs|items]|]. Qed.

Lemma spread_not_array h x : isArray h x = false -> spread h x = fieldsOf h x.
Proof. unfold isArray, fieldsOf, spread. by destruct (deref h x) as [[fs|items]|]. Qed.

(** The heap after the loop of [setByPath] still holds the heap the write
    started from. *)
Lemma setParts_extends h0 h cursor parts v :
  extends h0 h -> length h0 <= cursor ->
  extends h0 (setParts h cursor parts v).
Proof.
  intros [Hlen Hfr] Hc. split.
  - pose proof (setParts_length parts h cursor v). lia.
  - intros l Hl. rewrite setParts_frame by lia. by apply Hfr.
Qed.

Section Clone.

(** The loop of [setByPath] works on a clone at [cursor], allocated after
    the cells of the heap [h0] of the call, of a value [o] of that heap. *)
Variable h0 : heap.
Hypothesis Hwf : wellFormed h0.

Lemma setParts_other parts : forall h cursor o v qs,
  extends h0 h -> validIn (length h0) o -> length h0 <= cursor ->
  h !! cursor = Some (OObj (fieldsOf h0 o)) ->
  diverge parts qs ->
  getParts (setParts h cursor parts v) (VRef cursor) qs = getParts h0 o qs.
Proof.
  induction parts as [|key rest IH]; intros h cursor o v qs Hext Ho Hc Hcell Hdiv;
    [by inversion Hdiv|].
  assert (Hlt : cursor < length h) by (by eapply lookup_lt_Some).
  assert (Hside : forall h' x k' q,
            extends h0 h' ->
            h' !! cursor = Some (OObj (setField (fieldsOf h0 o) key x)) ->
            key <> k' ->
            getParts h' (VRef cursor) (k' :: q) = getParts h0 o (k' :: q)).
  { intros h' x0 k' q Hext' Hcell' Hne. rewrite !getParts_cons.
    unfold fieldsOf at 1. cbn [deref]. rewrite Hcell'.
    rewrite getField_setField_ne by done.
    destruct (getField (fieldsOf h0 o) k') as [x|] eqn:Hx; [|done].
    apply getParts_extends; [done | done |].
    pose proof (readProp_valid h0 o k' Hwf) as Hv.
    unfold readProp, readField in Hv. by rewrite Hx in Hv. }
  destruct rest as [|key' rest'].
  - inversion Hdiv as [? k' ? q Hne|? ? q Hsub]; subst; [|by inversion Hsub].
    cbn [setParts].
    assert (Hcell' : writeProp h cursor key v !! cursor
                     = Some (OObj (setField (fieldsOf h0 o) key v)))
      by (by apply writeProp_same).
    apply (Hside _ v); [|done|done].
    destruct Hext as [Hl Hf]. split; [by rewrite writeProp_length|].
    intros l Hl0. rewrite writeProp_other by lia. by apply Hf.
  - rewrite setParts_turn.
    set (next := readProp h (VRef cursor) key).
    assert (Hnext : next = readProp h0 o key).
    { unfold next, readProp, fieldsOf at 1. cbn [deref]. by rewrite Hcell. }
    assert (Hnv : validIn (length h0) next)
      by (rewrite Hnext; by apply readProp_valid).
    assert (Hbf : (if isObject h next then spread h next else [])
                  = fieldsOf h0 next).
    { rewrite (extends_isObject h0 h next Hext Hnv).
      destruct (isObject h0 next) eqn:Hobj.
      - rewrite spread_object by (by rewrite (extends_isObject h0 h)).
        by apply extends_fieldsOf.
      - by rewrite fieldsOf_not_object. }
    rewrite Hbf.
    set (h2 := writeProp (h ++ [OObj (fieldsOf h0 next)]) cursor key
                 (VRef (length h))).
    assert (Hext2 : extends h0 h2).
    { destruct Hext as [Hl Hf]. split.
      - unfold h2. rewrite writeProp_length, length_app. lia.
      - intros l Hl0. unfold h2. rewrite writeProp_other by lia.
        rewrite lookup_app_l by lia. by apply Hf. }
    assert (Hcell2 : h2 !! cursor
                     = Some (OObj (setField (fieldsOf h0 o) key (VRef (length h))))).
    { unfold h2. apply writeProp_same. by rewrite lookup_app_l. }
    assert (Hb2 : h2 !! length h = Some (OObj (fieldsOf h0 next))).
    { unfold h2. rewrite writeProp_other by lia. by rewrite list_lookup_middle. }
    set (h3 := setParts h2 (length h) (key' :: rest') v).
    assert (Hext3 : extends h0 h3).
    { apply setParts_extends; [done|]. destruct Hext. lia. }
    assert (Hcell3 : h3 !! cursor
                     = Some (OObj (setField (fieldsOf h0 o) key (VRef (length h))))).
    { unfold h3. rewrite setParts_frame; [done| |lia].
      unfold h2. rewrite writeProp_length, length_app. lia. }
    inversion Hdiv as [? k' ? q Hne|? ? q Hsub]; subst.
    + by apply (Hside _ (VRef (length h))).
    + rewrite (getParts_step h3 cursor _ key (VRef (length h)) q Hcell3)
        by apply getField_setField_eq.
      unfold h3. rewrite (IH h2 (length h) next v q); try done.
      * rewrite getParts_cons. rewrite Hnext. unfold readProp, readField.
        destruct (getField (fieldsOf h0 o) key); [done|].
        apply getParts_undefined. by eapply diverge_nonempty.
      * destruct Hext. lia.
Qed.

End Clone.

(** X3: a write into a plain object through a path without the segment
    [__proto__] leaves every path of ordinary names that parts ways with
    it as it was: reading such a path from the tree [setByPath] returns
    yields what it yields from the input tree (the very same value, so
    untouched branches are shared, not copied). *)
Theorem setByPath_other_paths h tree path v q :
  wellFormed h -> isObject h tree = true ->
  ~ In "__proto__" (parsePath path) -> Forall ordinaryKey (parsePath q) ->
  diverge (parsePath path) (parsePath q) ->
  getByPath (fst (setByPath h tree path v)) (snd (setByPath h tree path v)) q
  = getByPath h tree q.
Proof.
  intros Hwf Hobj _ _ Hdiv. unfold getByPath, setByPath.
  destruct (parsePath path) as [|p ps] eqn:Hp; [by inversion Hdiv|].
  destruct (parsePath q) as [|k qs] eqn:Hq; [by inversion Hdiv|].
  cbn [alloc fst snd].
  apply (setParts_other h Hwf (p :: ps)); try done.
  - apply extends_alloc.
  - by apply isObject_valid.
  - rewrite list_lookup_middle by done. by rewrite spread_object.
Qed.

Lemma setByPath_other_paths_witness :
  getByPath (fst (setByPath demoHeap (VRef 0) "appearance.theme" (VStr "light")))
            (snd (setByPath demoHeap (VRef 0) "appearance.theme" (VStr "light")))
            "notifications.enabled"
  = VBool true.
Proof.
  rewrite (setByPath_other_paths demoHeap (VRef 0) "appearance.theme"
             (VStr "light") "notifications.enabled").
  - reflexivity.
  - apply demoHeap_wellFormed.
  - reflexivity.
  - vm_compute. intuition discriminate.
  - vm_compute. repeat constructor.
  - vm_compute. apply diverge_here. discriminate.
Defined.

(** X4: below a path just written (one with a segment, none of them
    [__proto__]), the result reads as the written value does. *)
Theorem setByPath_below h tree path v more :
  wellFormed h -> validIn (length h) v -> parsePath path <> [] ->
  ~ In "__proto__" (parsePath path) ->
  getParts (fst (setByPath h tree path v)) (snd (setByPath h tree path v))
    (parsePath path ++ more)
  = getParts h v more.
Proof.
  intros Hwf Hv Hne _. unfold setByPath.
  destruct (parsePath path) as [|p ps] eqn:Hp; [done|].
  cbn [alloc fst snd]. rewrite getParts_app.
  rewrite (getParts_setParts (p :: ps) _ _ (spread h tree));
    [|done|by rewrite list_lookup_middle].
  apply getParts_extends; [done| |done].
  apply setParts_extends; [apply extends_alloc | lia].
Qed.

Lemma setByPath_below_witness :
  getParts (fst (setByPath demoHeap (VRef 0) "copy" (VRef 1)))
           (snd (setByPath demoHeap (VRef 0) "copy" (VRef 1)))
           (parsePath "copy" ++ ["theme"])
  = VStr "dark".
Proof.
  rewrite (setByPath_below demoHeap (VRef 0) "copy" (VRef 1) ["theme"]).
  - reflexivity.
  - apply demoHeap_wellFormed.
  - cbn. lia.
  - vm_compute. discriminate.
  - vm_compute. intuition discriminate.
Defined.

(** ** Conditional visibility and dirty tracking *)

Lemma writeProp_isArray h l k v x : isArray (writeProp h l k v) x = isArray h x.
Proof.
  unfold writeProp. destruct (h !! l) as [[fs|items]|] eqn:Hl; try done.
  unfold isArray. destruct x as [| | | | |a]; try done. cbn [deref].
  destruct (decide (a = l)) as [->|Hne].
  - rewrite list_lookup_insert_eq by (by eapply lookup_lt_Some). by rewrite Hl.
  - by rewrite list_lookup_insert_ne.
Qed.

Lemma alloc_isArray h fs x : isArray (h ++ [OObj fs]) x = isArray h x.
Proof.
  unfold isArray. destruct x as [| | | | |a]; try done. cbn [deref].
  destruct (decide (a < length h)) as [Hlt|Hge].
  - by rewrite lookup_app_l.
  - rewrite (lookup_ge_None_2 h a) by lia.
    destruct (decide (a = length h)) as [->|Hne].
    + by rewrite list_lookup_middle.
    + rewrite lookup_ge_None_2; [done|]. rewrite length_app. cbn. lia.
Qed.

Lemma setParts_isArray parts : forall h cursor v x,
  isArray (setParts h cursor parts v) x = isArray h x.
Proof.
  induction parts as [|key rest IH]; intros h cursor v x; [done|].
  destruct rest as [|key' rest'].
  - cbn [setParts]. apply writeProp_isArray.
  - rewrite setParts_turn, IH, writeProp_isArray. apply alloc_isArray.
Qed.

Lemma setByPath_isArray h tree path v x :
  isArray (fst (setByPath h tree path v)) x = isArray h x.
Proof.
  unfold setByPath. destruct (parsePath path) as [|p ps]; [done|].
  cbn [alloc fst]. rewrite setParts_isArray. apply alloc_isArray.
Qed.

Lemma setByPath_itemsOf h tree path v x :
  isArray h x = true -> itemsOf (fst (setByPath h tree path v)) x = itemsOf h x.
Proof.
  intros Harr. unfold itemsOf, isArray in *.
  destruct x as [| | | | |a]; try done. cbn [deref] in *.
  destruct (h !! a) as [o|] eqn:Ha; [|done].
  rewrite setByPath_frame by (by eapply lookup_lt_Some). by rewrite Ha.
Qed.

Lemma setByPath_reads h tree path v :
  parsePath path <> [] ->
  getByPath (fst (setByPath h tree path v)) (snd (setByPath h tree path v)) path
  = v.
Proof.
  intros Hne. unfold getByPath, setByPath.
  destruct (parsePath path) as [|p ps] eqn:Hp; [done|].
  cbn [alloc fst snd].
  apply (getParts_setParts (p :: ps) _ _ (spread h tree)); [done|].
  by rewrite list_lookup_middle.
Qed.

(** X22: after a write of [v] through a path with a segment, none of them
    [__proto__], [visibleWhen] at that path is decided by [v] alone: against an expected array it holds
    exactly when [v] is one of the array's elements, against any other
    expected value exactly when [v] is that value.  So an expected array
    is never matched as a value: writing the array itself does not make
    the condition hold unless the array contains itself. *)
Theorem visibleWhen_after_set h tree path v e :
  parsePath path <> [] -> ~ In "__proto__" (parsePath path) ->
  visibleWhen (fst (setByPath h tree path v)) (snd (setByPath h tree path v))
    path (ExpectValue e)
  = if isArray h e
    then existsb (fun candidate => objectIs candidate v) (itemsOf h e)
    else objectIs v e.
Proof.
  intros Hne _. unfold visibleWhen.
  rewrite setByPath_reads by done. rewrite setByPath_isArray.
  destruct (isArray h e) eqn:Harr; [|done].
  by rewrite setByPath_itemsOf.
Qed.

Lemma visibleWhen_after_set_witness :
  visibleWhen (fst (setByPath demoHeap (VRef 0) "appearance.theme" (VStr "light")))
    (snd (setByPath demoHeap (VRef 0) "appearance.theme" (VStr "light")))
    "appearance.theme" (ExpectValue (VStr "light"))
  = true.
Proof.
  rewrite (visibleWhen_after_set demoHeap (VRef 0) "appearance.theme"
             (VStr "light") (VStr "light")).
  - reflexivity.
  - vm_compute. discriminate.
  - vm_compute. intuition discriminate.
Defined.

(** X23: with its default options [useSettingDirty] reports no path dirty
    right after [reset()], also when the reset did not return. *)
Theorem nothing_dirty_after_reset s path mountBaseline :
  useSettingDirty (fst (Store.reset s)) path None mountBaseline = false.
Proof.
  unfold useSettingDirty, Store.get, Store.getInitialState.
  destruct (commitState_setup s (initialState s) SrcReset None true true)
    as [(_ & Hi & _) Hst].
  fold (Store.reset s) in Hi, Hst. rewrite Hst, Hi.
  unfold objectIs. by rewrite bool_decide_eq_true_2.
Qed.

(** X24: with its default options [useSettingDirty] reports a path dirty
    after [set] has written there a value other than the one the initial
    state holds at that path (a path with a segment, all of them ordinary
    names). *)
Theorem dirty_after_set s path v mountBaseline :
  wellFormed (heapOf s) ->
  validIn (length (heapOf s)) (Store.getInitialState s) ->
  validIn (length (heapOf s)) (Store.getState s) ->
  parsePath path <> [] -> Forall ordinaryKey (parsePath path) ->
  objectIs v (getByPath (heapOf s) (Store.getInitialState s) path) = false ->
  useSettingDirty (fst (Store.set s path v)) path None mountBaseline = true.
Proof.
  intros Hwf Hi Hs Hne _ Hdiff.
  unfold useSettingDirty, Store.get, Store.getInitialState, Store.getState in *.
  pose proof (set_setup s path v) as (Hinit & _ & _ & _ & Hlen & Hframe).
  cbv zeta in Hinit, Hlen, Hframe.
  assert (Hext : extends (heapOf s) (heapOf (fst (Store.set s path v))))
    by (by split).
  assert (Hbase : getByPath (heapOf (fst (Store.set s path v)))
                    (initialState (fst (Store.set s path v))) path
                  = getByPath (heapOf s) (initialState s) path).
  { rewrite Hinit. unfold getByPath.
    destruct (parsePath path); [done|]. by apply getParts_extends. }
  rewrite Hbase.
  assert (Hcur : getByPath (heapOf (fst (Store.set s path v)))
                   (state (fst (Store.set s path v))) path = v).
  { clear Hbase Hext Hframe Hlen Hinit. unfold Store.set.
    pose proof (setByPath_reads (heapOf s) (state s) path v Hne) as Hread.
    pose proof (setByPath_frame (heapOf s) (state s) path v) as Hfr.
    pose proof (setByPath_length (heapOf s) (state s) path v) as Hln.
    destruct (setByPath (heapOf s) (state s) path v) as [h1 nextState].
    cbn [fst snd] in *.
    destruct (objectIs (getByPath (heapOf s) (state s) path) v) eqn:Hsame.
    - cbn. unfold objectIs in Hsame. apply bool_decide_eq_true_1 in Hsame.
      transitivity (getByPath (heapOf s) (state s) path); [|done].
      unfold getByPath.
      destruct (parsePath path); [done|].
      apply getParts_extends; [done | by split | done].
    - destruct (commitState_setup (withHeap s h1) nextState SrcSet
                  (Some (path, v, getByPath (heapOf s) (state s) path)) true true)
        as [(Hh & _) Hst].
      destruct (commitState (withHeap s h1) nextState SrcSet _ true true)
        as [s2 [[]|err]]; cbn [fst] in *;
        [destruct (onChange s2)|]; cbn; by rewrite Hh, Hst. }
  rewrite Hcur. by rewrite Hdiff.
Qed.

Lemma dirty_after_set_witness :
  useSettingDirty (fst (Store.set demoStore "appearance.theme" (VStr "light")))
    "appearance.theme" None VUndefined = true.
Proof.
  apply (dirty_after_set demoStore "appearance.theme" (VStr "light") VUndefined).
  - apply demoHeap_wellFormed.
  - cbn. lia.
  - cbn. lia.
  - vm_compute. discriminate.
  - vm_compute. repeat constructor.
  - reflexivity.
Defined.

(** ** Merge: the walk *)

Lemma mergeVisits_leaf h left right keys l r :
  mergeVisits h left right keys l r ->
  ~ bothObjects h left right ->
  keys = [] /\ l = left /\ r = right.
Proof.
  intros Hv Hleaf.
  destruct Hv as [|left right key v keys l r Hl Hr Hk Hrest]; [done|].
  by destruct Hleaf.
Qed.

Lemma mergeVisits_snoc h left right keys l r key v :
  mergeVisits h left right keys l r ->
  isObject h l = true -> isObject h r = true ->
  getField (fieldsOf h r) key = Some v ->
  mergeVisits h left right (keys ++ [key]) (readProp h l key) v.
Proof.
  intros Hv Hl Hr Hk.
  induction Hv as [left right|left right k x keys l r Hlo Hro Hkey Hv IH].
  - apply (mergeVisits_child h left right key v); try done. constructor.
  - cbn [app]. apply (mergeVisits_child h left right k x); try done. by apply IH.
Qed.

Lemma mergeVisits_valid h left right keys l r :
  wellFormed h -> mergeVisits h left right keys l r ->
  validIn (length h) left -> validIn (length h) right ->
  validIn (length h) l /\ validIn (length h) r.
Proof.
  intros Hwf Hv. induction Hv as [|left right key v keys l r Hl Hr Hk Hv IH];
    intros Hvl Hvr; [done|].
  apply IH; [by apply readProp_valid|].
  destruct (wellFormed_cell h right Hwf Hr) as [_ Hall].
  apply (Hall key). by apply getField_In.
Qed.

Lemma deepMergedAs_weaken h left right lo lo' h' res :
  lo' <= lo ->
  deepMergedAs h left right lo h' res -> deepMergedAs h left right lo' h' res.
Proof.
  intros Hlo Hm keys l r Hv. destruct (Hm keys l r Hv) as [H1 H2].
  split; [|done]. intros Hnot. apply (adopts_weaken _ _ lo); [done | by apply H1].
Qed.

Lemma leaf_incoming h left right lo h' res :
  ~ bothObjects h left right ->
  adopts h h' lo right res ->
  deepMergedAs h left right lo h' res.
Proof.
  intros Hnot Had keys l r Hv.
  destruct (mergeVisits_leaf h left right keys l r Hv Hnot) as (-> & -> & ->).
  split; [done|]. intros Hboth. by destruct Hnot.
Qed.

(** ** Merge: the loop over the incoming entries *)

Section DeepLoop.

(** The loop runs inside a call with [S fuel] that found mappings on both
    sides: [output] is the clone of the base mapping, allocated after the
    cells of the heap [h0] the merge started from, [lf] are the properties
    of the base mapping, and the incoming values are nested at most [d]
    deep. *)
Variables (fuel d : nat) (h0 : heap) (output : loc)
  (lf : list (string * value)).
Hypothesis Hlaw : deepLaw fuel.
Hypothesis Hwf : wellFormed h0.
Hypothesis Hd : d < fuel.
Hypothesis Hout : length h0 <= output.
Hypothesis Hlf : forall k x, getField lf k = Some x -> validIn (length h0) x.

Lemma deepLoop :
  forall es hc fs,
    NoDup (map fst es) ->
    (forall k v, In (k, v) es ->
                 validIn (length h0) v /\ nesting d h0 v = true) ->
    extends h0 hc -> output < length hc ->
    hc !! output = Some (OObj fs) ->
    (forall k, In k (map fst es) -> getField fs k = getField lf k) ->
    exists h' fs',
      forEntries (deepBody fuel output) es hc = Some h' /\
      length hc <= length h' /\
      (forall l, l < length hc -> l <> output -> h' !! l = hc !! l) /\
      h' !! output = Some (OObj fs') /\
      (forall k, ~ In k (map fst es) -> getField fs' k = getField fs k) /\
      (forall k v, In (k, v) es ->
         exists res, getField fs' k = Some res /\
           forall h'', agreeOn (length hc) (length h') h' h'' ->
             deepMergedAs h0 (readField lf k) v (length hc) h'' res).
Proof.
  induction es as [|[k v] es IH]; intros hc fs Hnd Hes Hext Hlt Hcell Hkeys.
  - exists hc, fs. cbn [forEntries]. split_and!; try done.
  - cbn [map fst] in Hnd. apply NoDup_cons in Hnd as [Hk Hnd].
    destruct (Hes k v) as [Hv Hnest]; [by left|].
    assert (Hleft : readProp hc (VRef output) k = readField lf k).
    { unfold readProp, fieldsOf. cbn [deref]. rewrite Hcell.
      unfold readField. rewrite Hkeys; [done | by left]. }
    assert (Hlv : validIn (length h0) (readField lf k)).
    { unfold readField. destruct (getField lf k) as [x|] eqn:Hx; [|done].
      by apply (Hlf k). }
    destruct (Hlaw d h0 hc (readField lf k) v Hwf Hext Hlv Hv Hnest Hd)
      as (h1 & res1 & Hrun & [Hlen1 Hfr1] & Hspec1).
    set (hw := writeProp h1 output k res1).
    assert (Hcell1 : h1 !! output = Some (OObj fs)) by (by rewrite Hfr1).
    assert (Hcellw : hw !! output = Some (OObj (setField fs k res1)))
      by (by apply writeProp_same).
    assert (Hlenw : length hw = length h1) by apply writeProp_length.
    destruct (IH hw (setField fs k res1)) as
      (h' & fs' & Hloop & Hlen2 & Hfr2 & Hcell2 & Hother & Hdone).
    { done. }
    { intros k' v' Hin. apply (Hes k' v'). by right. }
    { destruct Hext as [Hl0 Hf0]. split; [lia|].
      intros l Hl. unfold hw. rewrite writeProp_other by lia.
      rewrite Hfr1 by lia. by apply Hf0. }
    { lia. }
    { done. }
    { intros k' Hin. rewrite getField_setField_ne.
      - apply Hkeys. by right.
      - intros ->. apply Hk. by apply list_elem_of_In. }
    exists h', fs'.
    split_and!.
    + cbn [forEntries]. unfold deepBody at 1. rewrite Hleft, Hrun.
      fold hw. by rewrite Hloop.
    + lia.
    + intros l Hl Hne. rewrite Hfr2 by lia.
      unfold hw. rewrite writeProp_other by done. by apply Hfr1.
    + done.
    + intros k' Hnot. rewrite Hother.
      * apply getField_setField_ne. intros ->. apply Hnot. by left.
      * intros Hin. apply Hnot. by right.
    + intros k' v' [[= <- <-]|Hin].
      * exists res1. split.
        -- rewrite Hother; [apply getField_setField_eq|].
           intros Hin. apply Hk. by apply list_elem_of_In.
        -- intros h'' Hag. apply Hspec1. intros l Hlo Hhi.
           rewrite Hag by lia. rewrite Hfr2 by lia.
           unfold hw. by rewrite writeProp_other by lia.
      * destruct (Hdone k' v' Hin) as (res & Hres & Hspec).
        exists res. split; [done|].
        intros h'' Hag.
        apply (deepMergedAs_weaken _ _ _ (length hw)); [lia|].
        apply Hspec. intros l Hlo Hhi. apply Hag; lia.
Qed.

End DeepLoop.

(** ** Merge: the law of [mergeNode] *)

Lemma deepMergeNode_law fuel : deepLaw fuel.
Proof.
  induction fuel as [|fuel IH];
    intros d h0 h left right Hwf Hext Hl Hr Hnest Hd; [lia|].
  cbn [deepMergeNode].
  rewrite (extends_isArray h0 h right Hext Hr).
  rewrite (extends_isObject h0 h right Hext Hr).
  rewrite (extends_isObject h0 h left Hext Hl).
  rewrite (extends_fieldsOf h0 h right Hext Hr).
  rewrite (extends_fieldsOf h0 h left Hext Hl).
  rewrite (extends_itemsOf h0 h right Hext Hr).
  assert (Hcopy : forall o,
             deref h0 right = Some o -> ~ bothObjects h0 left right ->
             exists h' res',
               Some (h ++ [o], VRef (length h)) = Some (h', res') /\
               extends h h' /\
               (forall h'', agreeOn (length h) (length h') h' h'' ->
                  deepMergedAs h0 left right (length h) h'' res')).
  { intros o Ho Hnot. exists (h ++ [o]), (VRef (length h)).
    split_and!; [done | apply extends_alloc |].
    intros h'' Hag. apply leaf_incoming; [done|].
    unfold adopts. rewrite Ho. exists (length h).
    split_and!; [done | lia |].
    rewrite Hag; [by rewrite list_lookup_middle | lia | rewrite length_app; cbn; lia]. }
  destruct (isArray h0 right) eqn:Harr.
  { assert (Hno : isObject h0 right = false).
    { unfold isObject, isArray in *. by destruct (deref h0 right) as [[?|?]|]. }
    cbn [alloc]. apply Hcopy; [by apply isArray_itemsOf|].
    intros [_ Hro]. congruence. }
  destruct (isObject h0 right) eqn:Hobj; cbn [negb].
  2:{ exists h, right. split_and!; [done | apply extends_refl |].
      intros h'' _. apply leaf_incoming; [intros [_ Hro]; congruence|].
      unfold adopts, isObject, isArray in *.
      by destruct (deref h0 right) as [[?|?]|]. }
  destruct (isObject h0 left) eqn:Hlobj; cbn [negb].
  2:{ cbn [alloc]. apply Hcopy; [by apply isObject_fieldsOf|].
      intros [Hlo _]. congruence. }
  clear Hcopy.
  destruct d as [|d]; [cbn [nesting] in Hnest; by rewrite Hobj in Hnest|].
  destruct (wellFormed_cell h0 right Hwf Hobj) as [Hnd Hrv].
  destruct (wellFormed_cell h0 left Hwf Hlobj) as [_ Hlv].
  cbn [alloc].
  set (lf := fieldsOf h0 left). set (es := fieldsOf h0 right).
  set (output := length h).
  destruct (deepLoop fuel d h0 output lf IH Hwf) with
    (es := es) (hc := h ++ [OObj lf]) (fs := lf)
    as (h' & fs' & Hloop & Hlen & Hfr & Hcell & Hother & Hdone).
  { lia. }
  { unfold output. destruct Hext. lia. }
  { intros k x Hk. apply (Hlv k). by apply getField_In. }
  { done. }
  { intros k v Hin. split; [by apply (Hrv k) | by apply (nesting_field d h0 right k)]. }
  { eapply extends_trans; [exact Hext | apply extends_alloc]. }
  { rewrite length_app. cbn. unfold output. lia. }
  { unfold output. by rewrite list_lookup_middle. }
  { done. }
  change (forEntries _ es (h ++ [OObj lf]))
    with (forEntries (deepBody fuel output) es (h ++ [OObj lf])).
  rewrite Hloop.
  rewrite length_app in Hlen, Hfr. cbn [length] in Hlen, Hfr.
  exists h', (VRef output).
  split_and!; [done | |].
  - split; [lia|]. intros l Hlt. rewrite Hfr by (unfold output; lia).
    by rewrite lookup_app_l.
  - intros h'' Hag.
    assert (Hout : h'' !! output = Some (OObj fs')).
    { rewrite Hag; [done | unfold output; lia | unfold output; lia]. }
    intros keys l r Hv.
    inversion Hv as [|? ? key v ks ? ? Hlo Hro Hkey Hrest]; subst.
    + split.
      * intros Hnot. by destruct Hnot.
      * intros _. split.
        -- cbn [getParts]. unfold isObject. cbn [deref]. by rewrite Hout.
        -- intros key Hkey. cbn [app].
           rewrite (getParts_single _ _ fs') by done.
           unfold readProp, readField. fold lf.
           rewrite Hother; [done|]. by apply getField_None_not_In.
    + destruct (Hdone key v) as (res & Hres & Hspec); [by apply getField_In|].
      assert (Hsub : deepMergedAs h0 (readField lf key) v (length h) h'' res).
      { apply (deepMergedAs_weaken _ _ _ (length (h ++ [OObj lf])));
          [rewrite length_app; lia|].
        apply Hspec. intros l0 Hlo0 Hhi0. apply Hag; [|done].
        rewrite length_app in Hlo0. lia. }
      destruct (Hsub ks l r Hrest) as (S1 & S2).
      rewrite (getParts_step _ _ fs' key res ks Hout Hres).
      split; [done|].
      intros Hboth. destruct (S2 Hboth) as [Hobj' Hkept]. split; [done|].
      intros key' Hkey'. cbn [app].
      rewrite (getParts_step _ _ fs' key res _ Hout Hres). by apply Hkept.
Qed.

(** X5: for every pair of trees with ordinary keys (in a heap without
    dangling references or repeated property names, the incoming tree
    nested at most [d] deep and the recursion given more fuel than that),
    [deepMerge] returns, leaves both trees as they were, and at every
    path its walk reaches (every path whose proper prefixes hold mappings
    on both sides):
    - where the two sides are not both mappings, the result holds the
      incoming value (the value itself, or a new copy of its mapping or
      sequence);
    - where both sides hold mappings, the result holds a mapping, in
      which everything in the base below a key the incoming mapping does
      not have reads as before. *)
Theorem deepMerge_law h base incoming d fuel :
  wellFormed h -> ordinaryHeap h ->
  validIn (length h) base -> validIn (length h) incoming ->
  nesting d h incoming = true -> d < fuel ->
  exists h' merged,
    deepMerge fuel h base incoming = Some (h', merged) /\
    (forall a, a < length h -> h' !! a = h !! a) /\
    (forall keys l r,
       mergeVisits h base incoming keys l r ->
       (~ bothObjects h l r ->
        adopts h h' (length h) r (getParts h' merged keys)) /\
       (bothObjects h l r ->
        isObject h' (getParts h' merged keys) = true /\
        forall key more,
          getField (fieldsOf h r) key = None ->
          getParts h' merged (keys ++ key :: more)
          = getParts h (readProp h l key) more)).
Proof.
  intros Hwf _ Hb Hi Hnest Hd.
  destruct (deepMergeNode_law fuel d h h base incoming
              Hwf (extends_refl h) Hb Hi Hnest Hd)
    as (h' & res & Hrun & Hext & Hspec).
  exists h', res. unfold deepMerge. rewrite Hrun.
  split_and!; [done | apply Hext |].
  intros keys l r Hv.
  destruct (Hspec h' (fun a _ _ => eq_refl) keys l r Hv) as (S1 & S2).
  split; [done|].
  intros Hboth. destruct (S2 Hboth) as [Hobj Hkept]. split; [done|].
  intros key more Hkey.
  change (key :: more) with ([key] ++ more).
  rewrite app_assoc, getParts_app, (Hkept key Hkey).
  apply getParts_extends; [done | done |]. by apply readProp_valid.
Qed.

Lemma deepMerge_law_witness :
  exists h' merged,
    deepMerge 3 mergeHeap (VRef 0) (VRef 2) = Some (h', merged) /\
    getParts h' merged ["a"; "x"] = VNum 1.
Proof.
  destruct (deepMerge_law mergeHeap (VRef 0) (VRef 2) 2 3 mergeHeap_wellFormed)
    as (h' & merged & Hrun & _ & Hspec).
  - apply treeKeys_ordinary, mergeHeap_keys.
  - cbn. lia.
  - cbn. lia.
  - reflexivity.
  - lia.
  - exists h', merged. split; [exact Hrun|].
    destruct (Hspec ["a"] (VRef 1) (VRef 3)) as [_ Hkept].
    + apply (mergeVisits_child mergeHeap (VRef 0) (VRef 2) "a" (VRef 3) []);
        [reflexivity | reflexivity | reflexivity | constructor].
    + apply (proj2 (Hkept (conj eq_refl eq_refl)) "x" [] eq_refl).
Defined.

(** Wherever the incoming tree has a defined primitive value, the tree
    returned by [mergeNode] has that value at the same path. *)
Lemma deepMergeNode_incoming_wins h base incoming d fuel h' merged keys x :
  wellFormed h ->
  validIn (length h) base -> validIn (length h) incoming ->
  nesting d h incoming = true -> d < fuel ->
  deepMergeNode fuel h base incoming = Some (h', merged) ->
  getParts h incoming keys = x -> x <> VUndefined -> deref h x = None ->
  getParts h' merged keys = x.
Proof.
  intros Hwf Hb Hi Hnest Hd Hrun Hx Hdef Hprim.
  destruct (deepMergeNode_law fuel d h h base incoming
              Hwf (extends_refl h) Hb Hi Hnest Hd)
    as (h1 & res & Hrun1 & Hext & Hspec).
  rewrite Hrun1 in Hrun. inversion Hrun; subst h1 res.
  clear Hrun Hrun1.
  pose proof (Hspec h' (fun a _ _ => eq_refl)) as Hm. clear Hspec.
  assert (Hgen : forall rest pre l r,
             mergeVisits h base incoming pre l r ->
             getParts h r rest = x ->
             getParts h' merged (pre ++ rest) = x).
  { induction rest as [|key rest IH]; intros pre l r Hv Hr.
    - cbn [getParts] in Hr. subst r. rewrite app_nil_r.
      destruct (Hm pre l x Hv) as [S1 _].
      assert (Hnot : ~ bothObjects h l x).
      { intros [_ Hxo]. unfold isObject in Hxo. by rewrite Hprim in Hxo. }
      specialize (S1 Hnot). unfold adopts in S1. by rewrite Hprim in S1.
    - destruct (Hm pre l r Hv) as [S1 S2].
      destruct (mergeVisits_valid h base incoming pre l r Hwf Hv Hb Hi) as [Hlv Hrv].
      destruct (isObject h l) eqn:Hlo; [destruct (isObject h r) eqn:Hro|].
      + cbn [getParts] in Hr. rewrite Hro in Hr. cbn [negb orb] in Hr.
        destruct (hasField (fieldsOf h r) key) eqn:Hhas; cbn [negb] in Hr;
          [|by subst x].
        unfold hasField in Hhas.
        destruct (getField (fieldsOf h r) key) as [v|] eqn:Hk; [|done].
        assert (Hread : readProp h r key = v).
        { unfold readProp, readField. by rewrite Hk. }
        rewrite Hread in Hr.
        change (key :: rest) with ([key] ++ rest). rewrite app_assoc.
        apply (IH (pre ++ [key]) (readProp h l key) v); [|done].
        by apply (mergeVisits_snoc h base incoming pre l r key v).
      + cbn [getParts] in Hr. rewrite Hro in Hr. cbn [negb orb] in Hr. by subst x.
      + assert (Hnot : ~ bothObjects h l r) by (intros [? _]; congruence).
        rewrite getParts_app.
        rewrite (adopts_below h h' (length h) r _ (key :: rest)); try done.
        by apply S1. }
  apply (Hgen keys [] base incoming); [constructor | done].
Qed.

(** X6: what the incoming tree holds wins: for trees with ordinary keys,
    wherever the incoming tree has a defined primitive value, the tree
    returned by [deepMerge] has that value at the same path, whatever the
    base holds along it. *)
Theorem deepMerge_incoming_wins h base incoming d fuel h' merged keys x :
  wellFormed h -> ordinaryHeap h ->
  validIn (length h) base -> validIn (length h) incoming ->
  nesting d h incoming = true -> d < fuel ->
  deepMerge fuel h base incoming = Some (h', merged) ->
  getParts h incoming keys = x -> x <> VUndefined -> deref h x = None ->
  getParts h' merged keys = x.
Proof.
  intros Hwf _. unfold deepMerge. by apply deepMergeNode_incoming_wins.
Qed.

Lemma deepMerge_incoming_wins_witness :
  exists h' merged,
    deepMerge 3 mergeHeap (VRef 0) (VRef 2) = Some (h', merged) /\
    getParts h' merged ["a"; "y"] = VNum 2.
Proof.
  eexists _, _. split; [reflexivity|].
  apply (deepMerge_incoming_wins mergeHeap (VRef 0) (VRef 2) 2 3 _ _
           ["a"; "y"] (VNum 2) mergeHeap_wellFormed
           (treeKeys_ordinary _ mergeHeap_keys)).
  - cbn. lia.
  - cbn. lia.
  - reflexivity.
  - lia.
  - reflexivity.
  - reflexivity.
  - discriminate.
  - reflexivity.
Defined.

(** ** Skip-conflicts merge: the current tree is kept *)

Lemma visits_snoc h left right keys l r key v :
  visits h left right keys l r ->
  l <> r -> isObject h l = true -> isObject h r = true ->
  getField (fieldsOf h r) key = Some v ->
  visits h left right (keys ++ [key]) (readProp h l key) v.
Proof.
  intros Hv Hne Hl Hr Hk.
  induction Hv as [left right|left right k x keys l r Hne' Hlo Hro Hkey Hv IH].
  - apply (visits_child h left right key v); try done. constructor.
  - cbn [app]. apply (visits_child h left right k x); try done. by apply IH.
Qed.

(** Wherever the current tree holds a defined value that is not a
    mapping, the tree returned by [mergeNode] holds it at the same path. *)
Lemma skipMergeNode_keeps_current
  h current incoming d fuel h' result conflicts keys x :
  wellFormed h ->
  validIn (length h) current -> validIn (length h) incoming ->
  nesting d h incoming = true -> d < fuel ->
  skipMergeNode fuel h [] current incoming EmptyString = Some (h', conflicts, result) ->
  getParts h current keys = x -> x <> VUndefined -> isObject h x = false ->
  getParts h' result keys = x.
Proof.
  intros Hwf Hc Hi Hnest Hd Hrun Hx Hdef Hleaf.
  destruct (skipMergeNode_law fuel d h h [] current incoming EmptyString
              Hwf (extends_refl h) Hc Hi Hnest Hd)
    as (h1 & new & res & Hrun1 & Hext & Hspec & _).
  rewrite Hrun1 in Hrun.
  inversion Hrun; subst h1 res conflicts. clear Hrun Hrun1.
  pose proof (Hspec h' (fun a _ _ => eq_refl)) as Hm. clear Hspec.
  assert (Hkept : forall pre l rest,
             validIn (length h) l ->
             getParts h' result pre = l -> getParts h l rest = x ->
             getParts h' result (pre ++ rest) = x).
  { intros pre l rest Hl Hpre Hrest.
    rewrite getParts_app, Hpre.
    by rewrite (getParts_extends h h' l rest Hwf Hext Hl). }
  assert (Hgen : forall rest pre l r,
             visits h current incoming pre l r ->
             getParts h l rest = x ->
             getParts h' result (pre ++ rest) = x).
  { induction rest as [|key rest IH]; intros pre l r Hv Hl;
      destruct (Hm pre l r Hv) as (S1 & S2 & S3 & S4);
      destruct (visits_valid h current incoming pre l r Hwf Hv Hc Hi) as [Hlv Hrv];
      destruct (decide (l = r)) as [Heq|Hne];
      try (by apply (Hkept pre l); [| apply S1 |]).
    - cbn [getParts] in Hl. subst l.
      apply (Hkept pre x); [done | | done]. apply S2.
      split_and!; [done | done |]. intros [Hxo _]. congruence.
    - destruct (isObject h l) eqn:Hlo; [destruct (isObject h r) eqn:Hro|].
      + cbn [getParts] in Hl. rewrite Hlo in Hl. cbn [negb orb] in Hl.
        destruct (hasField (fieldsOf h l) key) eqn:Hhas; cbn [negb] in Hl;
          [|by subst x].
        change (key :: rest) with ([key] ++ rest). rewrite app_assoc.
        destruct (getField (fieldsOf h r) key) as [v|] eqn:Hk.
        * apply (IH (pre ++ [key]) (readProp h l key) v); [|done].
          by apply (visits_snoc h current incoming pre l r key v).
        * apply (Hkept (pre ++ [key]) (readProp h l key));
            [by apply readProp_valid | by apply S4 | done].
      + assert (Hu : l <> VUndefined) by (intros ->; by cbn in Hlo).
        apply (Hkept pre l); [done | | done]. apply S2.
        split_and!; [done | done |]. intros [_ Hro']. congruence.
      + cbn [getParts] in Hl. rewrite Hlo in Hl. cbn [negb orb] in Hl.
        by subst x. }
  apply (Hgen keys [] current incoming); [constructor | done].
Qed.

(** X7: the skip-conflicts merge never loses or changes a value of the
    current tree: wherever the current tree holds a defined value that is
    not a mapping, the merged tree holds that value at the same path,
    whatever the incoming tree holds there. *)
Theorem mergeSkippingConflicts_keeps_current
  h current incoming d fuel h' result conflicts keys x :
  wellFormed h ->
  validIn (length h) current -> validIn (length h) incoming ->
  nesting d h incoming = true -> d < fuel ->
  mergeSkippingConflicts fuel h current incoming = Some (h', result, conflicts) ->
  getParts h current keys = x -> x <> VUndefined -> isObject h x = false ->
  getParts h' result keys = x.
Proof.
  intros Hwf Hc Hi Hnest Hd Hrun. unfold mergeSkippingConflicts in Hrun.
  destruct (skipMergeNode fuel h [] current incoming EmptyString)
    as [[[h1 cs] res]|] eqn:Hnode; [|done].
  inversion Hrun; subst h1 res cs.
  by apply (skipMergeNode_keeps_current h current incoming d fuel h' result conflicts).
Qed.

Lemma mergeSkippingConflicts_keeps_current_witness :
  exists h' result conflicts,
    mergeSkippingConflicts 3 mergeHeap (VRef 4) (VRef 5)
    = Some (h', result, conflicts) /\
    getParts h' result ["a"] = VNum 5.
Proof.
  eexists _, _, _. split; [reflexivity|].
  apply (mergeSkippingConflicts_keeps_current mergeHeap (VRef 4) (VRef 5) 2 3
           _ _ ["a"] ["a"] (VNum 5) mergeHeap_wellFormed).
  - cbn. lia.
  - cbn. lia.
  - reflexivity.
  - lia.
  - reflexivity.
  - reflexivity.
  - discriminate.
  - reflexivity.
Defined.

(** ** The commit pipeline *)

Lemma syncPushEach_emits adapters : forall s st e,
  In e (trace (fst (syncPushEach s adapters st))) ->
  In e (trace s) \/ exists a, In a adapters /\ e = EPush (adapterId a) st.
Proof.
  induction adapters as [|a rest IH]; intros s st e; cbn [syncPushEach].
  - by left.
  - assert (Hhead : In e (trace (emit s (EPush (adapterId a) st))) ->
                    In e (trace s) \/
                    exists b, In b (a :: rest) /\ e = EPush (adapterId b) st).
    { cbn. intros Hin. apply in_app_or in Hin as [Hin|[<-|[]]]; [by left|].
      right. exists a. split; [by left | done]. }
    assert (Htail : forall s1,
              (In e (trace s1) -> In e (trace (emit s (EPush (adapterId a) st)))) ->
              In e (trace (fst (syncPushEach s1 rest st))) ->
              In e (trace s) \/
              exists b, In b (a :: rest) /\ e = EPush (adapterId b) st).
    { intros s1 Hs1 Hin. apply IH in Hin as [Hin|(b & Hb & ->)].
      - by apply Hhead, Hs1.
      - right. exists b. split; [by right | done]. }
    destruct (push a st) as [|err|err].
    + by apply Htail.
    + by apply Htail.
    + exact Hhead.
Qed.

(** A commit calls nobody but the persistence adapter (with the new
    state), the registered sync adapters (with the new state), the
    state-change observer and the subscribed listeners. *)
Lemma commitState_emits s nextState src d optPersist optSync e :
  In e (trace (fst (commitState s nextState src d optPersist optSync))) ->
  In e (trace s) \/
  (optPersist = true /\ persistence s <> None /\ e = ESave nextState) \/
  (optSync = true /\
   exists a, In a (syncAdapters s) /\ e = EPush (adapterId a) nextState) \/
  (onStateChange s = true /\ e = EStateChange src nextState (state s) d) \/
  (exists l, In l (listeners s) /\ e = ENotify l).
Proof.
  unfold commitState. destruct (objectIs nextState (state s)); [by left|].
  set (s1 := withState s nextState).
  set (s2 := if optPersist then persist s1 nextState else s1).
  assert (H2 : In e (trace s2) ->
               In e (trace s) \/
               (optPersist = true /\ persistence s <> None /\ e = ESave nextState)).
  { unfold s2, persist, s1. destruct optPersist; [|by left].
    cbn [persistence withState]. destruct (persistence s) as [pa|]; [|by left].
    cbn. intros Hin. apply in_app_or in Hin as [Hin|[<-|[]]]; [by left|].
    right. by split_and!. }
  assert (Hs2 : sameSetup s s2).
  { unfold s2, s1. destruct optPersist.
    - eapply sameSetup_trans; [apply sameSetup_withState | apply sameSetup_persist].
    - apply sameSetup_withState. }
  set (r := if optSync then syncPush s2 nextState else (s2, Returned tt)).
  assert (H3 : In e (trace (fst r)) ->
               In e (trace s2) \/
               (optSync = true /\
                exists a, In a (syncAdapters s) /\ e = EPush (adapterId a) nextState)).
  { unfold r, syncPush. destruct optSync; [|by left].
    intros Hin. apply syncPushEach_emits in Hin as [Hin|(a & Ha & ->)]; [by left|].
    right. split; [done|]. exists a. split; [|done].
    destruct Hs2 as (_ & _ & _ & _ & _ & _ & <- & _). done. }
  assert (Hs3 : sameSetup s (fst r)).
  { unfold r, syncPush. destruct optSync; [|done].
    eapply sameSetup_trans; [exact Hs2|]. apply syncPushEach_setup. }
  destruct r as [s3 [[]|err]]; cbn [fst] in *.
  - destruct Hs3 as (_ & _ & _ & _ & Hsc & Hl & _).
    intros Hin. unfold notify in Hin. cbn [trace withTrace] in Hin.
    apply in_app_or in Hin as [Hin|Hin].
    + assert (Hin3 : In e (trace s3) \/
                     (onStateChange s = true /\
                      e = EStateChange src nextState (state s) d)).
      { rewrite <- Hsc. destruct (onStateChange s3); [|by left].
        cbn in Hin. apply in_app_or in Hin as [Hin|[<-|[]]]; [by left | by right]. }
      destruct Hin3 as [Hin3|Hin3]; [|by right; right; right; left].
      apply H3 in Hin3 as [Hin3|Hin3]; [|by right; right; left].
      apply H2 in Hin3 as [Hin3|Hin3]; [by left | by right; left].
    + right; right; right; right.
      assert (Hls : listeners (if onStateChange s3
                               then emit s3 (EStateChange src nextState (state s) d)
                               else s3) = listeners s)
        by (by destruct (onStateChange s3)).
      rewrite Hls in Hin. apply in_map_iff in Hin as (l & <- & Hl').
      by exists l.
  - intros Hin. apply H3 in Hin as [Hin|Hin]; [|by right; right; left].
    apply H2 in Hin as [Hin|Hin]; [by left | by right; left].
Qed.

(** The calls of a commit that changes the state and in which no push
    throws. *)
Lemma commitState_calls s nextState src d :
  nextState <> state s ->
  (forall a e, In a (syncAdapters s) -> push a nextState <> PushThrows e) ->
  let s' := fst (commitState s nextState src d true true) in
  snd (commitState s nextState src d true true) = Returned tt /\
  state s' = nextState /\
  trace s' = trace s ++ commitCalls s src nextState d /\
  microtasks s' = microtasks s ++ rejections nextState (syncAdapters s) /\
  sameSetup s s'.
Proof.
  intros Hne Hok. cbv zeta.
  pose proof (commitState_setup s nextState src d true true) as [Hsetup Hstate].
  split_and!; [| exact Hstate | | | exact Hsetup];
    unfold commitState, objectIs, commitCalls;
    rewrite bool_decide_eq_false_2 by done; unfold syncPush;
    set (s2 := persist (withState s nextState) nextState);
    (assert (Hs2 : syncAdapters s2 = syncAdapters s /\
                   microtasks s2 = microtasks s /\
                   onStateChange s2 = onStateChange s /\
                   listeners s2 = listeners s /\
                   trace s2 = trace s ++ match persistence s with
                                         | Some _ => [ESave nextState]
                                         | None => []
                                         end)
       by (unfold s2, persist; cbn [persistence withState];
           destruct (persistence s); cbn; rewrite ?app_nil_r; by split_and!));
    destruct Hs2 as (Ha & Hm & Hsc & Hl & Ht);
    (destruct (syncPushEach_without_throw (syncAdapters s2) s2 nextState)
       as (H1 & H2 & H3); [intros a e Hin; apply Hok; by rewrite <- Ha|]);
    pose proof (syncPushEach_setup (syncAdapters s2) s2 nextState)
      as [(_ & _ & _ & _ & Hsc3 & Hl3 & _) _];
    destruct (syncPushEach s2 (syncAdapters s2) nextState) as [s3 c3];
    cbn [fst snd] in *; subst c3.
  - done.
  - rewrite Hsc in Hsc3. rewrite Hl in Hl3.
    destruct (onStateChange s3) eqn:E; cbn; rewrite H2, Ht, Ha, Hl3, <- Hsc3;
      cbn; by rewrite <- !app_assoc.
  - destruct (onStateChange s3); cbn; by rewrite H3, Hm, Ha.
Qed.

(** X8: a [setState] to another tree that returns has swapped the
    snapshot and made its calls in this order: the save, one push per
    registered adapter in registration order, the state-change observer,
    one notification per subscriber in subscription order; each rejected
    push has queued one reaction, which later hands the error to that
    adapter's [onError] if it has one. *)
Theorem setState_pipeline s nextState s' :
  nextState <> Store.getState s ->
  Store.setState s nextState = (s', Returned tt) ->
  Store.getState s' = nextState /\
  trace s' = trace s ++ commitCalls s SrcSetState nextState None /\
  microtasks s' = microtasks s ++ rejections nextState (syncAdapters s) /\
  trace (runMicrotasks s')
  = trace s' ++ errorCalls (microtasks s ++ rejections nextState (syncAdapters s)).
Proof.
  intros Hne Hrun.
  destruct (commitState_returned s nextState SrcSetState None s' Hne Hrun)
    as (H1 & H2 & H3).
  split_and!; try done.
  destruct (runMicrotasks_trace s') as [-> _]. by rewrite H3.
Qed.

Lemma setState_pipeline_witness :
  exists s',
    Store.setState busyStore (VRef 1) = (s', Returned tt) /\
    trace (runMicrotasks s')
    = [ESave (VRef 1); EPush 3 (VRef 1); EPush 2 (VRef 1);
       EStateChange SrcSetState (VRef 1) (VRef 0) None; ENotify 7;
       EOnError 3 "network failure"].
Proof.
  eexists. split; [reflexivity|].
  destruct (setState_pipeline busyStore (VRef 1) _ ltac:(discriminate) eq_refl)
    as (_ & H2 & _ & H4).
  rewrite H4, H2. reflexivity.
Defined.

(** X9: [reset] is idempotent: a second [reset] right after the first
    returns at once, with the store as the first one left it and nobody
    called, also when the first one did not return. *)
Theorem reset_twice s :
  Store.reset (fst (Store.reset s)) = (fst (Store.reset s), Returned tt).
Proof.
  destruct (commitState_setup s (initialState s) SrcReset None true true)
    as [(_ & Hi & _) Hst].
  fold (Store.reset s) in Hi, Hst.
  unfold Store.reset at 1. unfold commitState, objectIs.
  rewrite Hi, Hst. by rewrite bool_decide_eq_true_2.
Qed.

(** ** Subscribers *)

Lemma subscribe_NoDup s l :
  NoDup (listeners s) -> NoDup (listeners (Store.subscribe s l)).
Proof.
  intros Hnd. unfold Store.subscribe.
  destruct (existsb (Nat.eqb l) (listeners s)) eqn:Hex; [done|].
  cbn. apply NoDup_app. split_and!; [done | | apply NoDup_singleton].
  intros x Hx Hx'. apply list_elem_of_singleton in Hx'. subst x.
  assert (Htrue : existsb (Nat.eqb l) (listeners s) = true).
  { apply existsb_exists. exists l. split; [by apply list_elem_of_In|].
    apply Nat.eqb_refl. }
  congruence.
Qed.

Lemma subscribe_In s l : In l (listeners (Store.subscribe s l)).
Proof.
  unfold Store.subscribe.
  destruct (existsb (Nat.eqb l) (listeners s)) eqn:Hex.
  - apply existsb_exists in Hex as (x & Hx & Heq).
    apply Nat.eqb_eq in Heq. by subst x.
  - cbn. apply in_or_app. right. by left.
Qed.

Lemma subscribe_core s l :
  state (Store.subscribe s l) = state s /\
  syncAdapters (Store.subscribe s l) = syncAdapters s /\
  trace (Store.subscribe s l) = trace s.
Proof. unfold Store.subscribe. by destruct (existsb _ _). Qed.

Lemma notifications_app l t1 t2 :
  notifications l (t1 ++ t2) = notifications l t1 + notifications l t2.
Proof. unfold notifications. by rewrite List.filter_app, length_app. Qed.

Lemma notifications_listeners l ls :
  NoDup ls -> In l ls -> notifications l (map ENotify ls) = 1.
Proof.
  unfold notifications. induction ls as [|x ls IH]; [by intros _ []|].
  intros Hnd Hin. apply NoDup_cons in Hnd as [Hx Hnd]. cbn [map List.filter].
  destruct (Nat.eqb l x) eqn:E.
  - apply Nat.eqb_eq in E. subst x. cbn [length]. f_equal.
    assert (Hnone : forall ys, ~ In l ys ->
              List.filter (fun e => match e with
                                    | ENotify l' => Nat.eqb l l'
                                    | _ => false
                                    end) (map ENotify ys) = []).
    { induction ys as [|y ys IHy]; [done|]. intros Hy. cbn.
      destruct (Nat.eqb l y) eqn:Ey.
      - apply Nat.eqb_eq in Ey. subst y. exfalso. apply Hy. by left.
      - apply IHy. intros Hin'. apply Hy. by right. }
    rewrite Hnone; [done|]. intros Hin'. apply Hx. by apply list_elem_of_In.
  - destruct Hin as [->|Hin]; [by rewrite Nat.eqb_refl in E|]. by apply IH.
Qed.

Lemma notifications_other l t :
  (forall e, In e t -> e <> ENotify l) -> notifications l t = 0.
Proof.
  unfold notifications. induction t as [|e t IH]; [done|]. intros Hno.
  cbn [List.filter].
  destruct e as [| | | |l'| |]; try (apply IH; intros e' He'; apply Hno; by right).
  destruct (Nat.eqb l l') eqn:E.
  - apply Nat.eqb_eq in E. subst l'. exfalso. apply (Hno (ENotify l)); [by left|done].
  - apply IH. intros e' He'. apply Hno. by right.
Qed.

(** X10: the listeners are a set: a listener subscribed twice is registered
    once, and a commit that returns calls it exactly once. *)
Theorem subscribed_twice_notified_once s l nextState :
  NoDup (listeners s) ->
  nextState <> Store.getState s ->
  (forall a e, In a (syncAdapters s) -> push a nextState <> PushThrows e) ->
  let s2 := Store.subscribe (Store.subscribe s l) l in
  NoDup (listeners s2) /\
  notifications l (trace (fst (Store.setState s2 nextState)))
  = S (notifications l (trace s)).
Proof.
  intros Hnd Hne Hok s2.
  assert (Hnd2 : NoDup (listeners s2)) by (by do 2 apply subscribe_NoDup).
  assert (Hin2 : In l (listeners s2)) by apply subscribe_In.
  destruct (subscribe_core (Store.subscribe s l) l) as (Hst & Hads & Htr).
  destruct (subscribe_core s l) as (Hst' & Hads' & Htr').
  fold s2 in Hst, Hads, Htr.
  rewrite Hst' in Hst. rewrite Hads' in Hads. rewrite Htr' in Htr.
  split; [done|].
  destruct (commitState_calls s2 nextState SrcSetState None) as (_ & _ & H3 & _).
  { by rewrite Hst. }
  { intros a e Ha. apply Hok. by rewrite <- Hads. }
  fold (Store.setState s2 nextState) in H3. rewrite H3, Htr.
  unfold commitCalls. rewrite !notifications_app.
  rewrite (notifications_listeners l (listeners s2)) by done.
  rewrite (notifications_other l (match persistence s2 with
                                   | Some _ => [ESave nextState] | None => [] end)).
  2:{ intros e He. destruct (persistence s2); [|done].
      destruct He as [<-|[]]. discriminate. }
  rewrite (notifications_other l (map _ (syncAdapters s2))).
  2:{ intros e He. apply in_map_iff in He as (a & <- & _). discriminate. }
  rewrite (notifications_other l (if onStateChange s2 then _ else _)).
  2:{ intros e He. destruct (onStateChange s2); [|done].
      destruct He as [<-|[]]. discriminate. }
  lia.
Qed.

Lemma subscribed_twice_notified_once_witness :
  notifications 9
    (trace (fst (Store.setState
                   (Store.subscribe (Store.subscribe busyStore 9) 9) (VRef 1))))
  = 1.
Proof.
  destruct (subscribed_twice_notified_once busyStore 9 (VRef 1)) as [_ H].
  - vm_compute. apply NoDup_singleton.
  - vm_compute. discriminate.
  - intros a e [<-|[<-|[]]]; vm_compute; discriminate.
  - exact H.
Defined.

(** X11: once a listener is unsubscribed it is never called by a commit
    again: whatever the trigger and the options of a commit made then,
    and whether it returns or throws, the number of calls the listener
    has received stays what it was. *)
Theorem unsubscribed_not_notified s l nextState src d optPersist optSync :
  notifications l
    (trace (fst (commitState (Store.unsubscribe s l) nextState src d
                   optPersist optSync)))
  = notifications l (trace s).
Proof.
  set (s0 := Store.unsubscribe s l).
  assert (Hout : ~ In l (listeners s0)).
  { unfold s0, Store.unsubscribe. cbn. intros Hin.
    apply filter_In in Hin as [_ Hin]. by rewrite Nat.eqb_refl in Hin. }
  change (trace s) with (trace s0).
  destruct (decide (nextState = state s0)) as [Hsame|Hne].
  - unfold commitState, objectIs. by rewrite bool_decide_eq_true_2.
  - destruct (commitState_delta s0 nextState src d optPersist optSync Hne)
      as (pushed & rest & _ & Htr & _).
    rewrite Htr, !notifications_app.
    rewrite (notifications_other l (if optPersist then _ else _)).
    2:{ intros e He. destruct optPersist; [|done].
        destruct (persistence s0); [|done]. destruct He as [<-|[]]. discriminate. }
    rewrite (notifications_other l (map _ pushed)).
    2:{ intros e He. apply in_map_iff in He as (a & <- & _). discriminate. }
    rewrite (notifications_other l (match snd _ with Returned _ => _ | Threw _ => _ end)).
    2:{ intros e He. destruct (snd _); [|done].
        apply in_app_or in He as [He|He].
        - destruct (onStateChange s0); [|done]. destruct He as [<-|[]]. discriminate.
        - apply in_map_iff in He as (l' & <- & Hl'). intros [= <-]. done. }
    lia.
Qed.

(** ** Import *)

(** X14: an import with strategy "replace" (also the default strategy)
    that returns was given a plain object that the validator, if there
    is one, accepted; it has made that object itself the current state,
    copying nothing; it reports no conflict, and reports [applied]
    exactly when the candidate is not the former state object, in which
    case it has made the calls of one full commit. *)
Theorem importSettings_replace fuel s candidate options s' r :
  Store.optStrategy options = Some Store.Replace \/
  Store.optStrategy options = None ->
  Store.importSettings fuel s candidate options = Some (s', Returned r) ->
  isObject (heapOf s) candidate = true /\
  (forall ok, Store.optValidate options = Some ok ->
              ok (heapOf s) candidate = true) /\
  r = {| Store.applied := negb (objectIs candidate (state s));
         Store.strategyUsed := Store.Replace;
         Store.conflicts := [] |} /\
  Store.getState s' = candidate /\
  heapOf s' = heapOf s /\
  trace s' = trace s ++ (if objectIs candidate (state s) then []
                         else commitCalls s SrcImport candidate None).
Proof.
  intros Hstrat. unfold Store.importSettings.
  assert (Hs : match Store.optStrategy options with
               | Some x => x | None => Store.Replace end = Store.Replace)
    by (by destruct Hstrat as [-> | ->]).
  rewrite Hs.
  destruct (isObject (heapOf s) candidate); cbn [negb]; [|done].
  destruct (match Store.optValidate options with
            | Some ok => negb (ok (heapOf s) candidate)
            | None => false
            end) eqn:Hv; [done|].
  assert (Hvalid : forall ok, Store.optValidate options = Some ok ->
                              ok (heapOf s) candidate = true).
  { intros ok Hok. rewrite Hok in Hv. by apply negb_false_iff in Hv. }
  assert (Hwh : withHeap s (heapOf s) = s) by (by destruct s).
  rewrite Hwh.
  destruct (objectIs candidate (state s)) eqn:Hsame; cbn [negb].
  - intros [= <- <-]. rewrite app_nil_r. split_and!; try done.
    unfold objectIs in Hsame. by apply bool_decide_eq_true_1 in Hsame.
  - assert (Hne : candidate <> state s).
    { unfold objectIs in Hsame. by apply bool_decide_eq_false_1 in Hsame. }
    pose proof (commitState_setup s candidate SrcImport None true true)
      as [(Hh & _) _].
    destruct (commitState s candidate SrcImport None true true)
      as [s2 [[]|e]] eqn:Hcommit; [|done].
    intros [= <- <-]. cbn [fst] in Hh.
    destruct (commitState_returned s candidate SrcImport None s2 Hne Hcommit)
      as (H1 & H2 & _).
    by split_and!.
Qed.

Lemma importSettings_replace_witness :
  exists s' r,
    Store.importSettings 0 busyStore (VRef 1)
      {| Store.optStrategy := None; Store.optValidate := None |}
    = Some (s', Returned r) /\
    Store.applied r = true /\ Store.getState s' = VRef 1.
Proof.
  eexists _, _. split; [reflexivity|].
  destruct (importSettings_replace 0 busyStore (VRef 1)
              {| Store.optStrategy := None; Store.optValidate := None |}
              _ _ (or_intror eq_refl) eq_refl)
    as (_ & _ & Hr & Hst & _).
  split; [by rewrite Hr | exact Hst].
Defined.

(** ** Sync sessions *)

Lemma addAdapter_NoDup s adapter :
  NoDup (map adapterId (syncAdapters s)) ->
  NoDup (map adapterId (syncAdapters (Store.addAdapter s adapter))).
Proof.
  intros Hnd. unfold Store.addAdapter.
  destruct (existsb _ (syncAdapters s)) eqn:Hex; [done|].
  cbn. rewrite map_app. apply NoDup_app. split_and!; [done| |apply NoDup_singleton].
  intros x Hx Hx'. cbn in Hx'. apply list_elem_of_singleton in Hx'. subst x.
  apply list_elem_of_In, in_map_iff in Hx as (a & Heq & Ha).
  assert (Htrue : existsb (fun a => Nat.eqb (adapterId a) (adapterId adapter))
                    (syncAdapters s) = true).
  { apply existsb_exists. exists a. split; [done|]. by apply Nat.eqb_eq. }
  congruence.
Qed.

Lemma syncSettings_adapters s adapter :
  syncAdapters (fst (Store.syncSettings s adapter))
  = syncAdapters (Store.addAdapter s adapter).
Proof.
  unfold Store.syncSettings, Store.syncSettingsStart, Store.syncSettingsResume.
  set (s1 := withSessions (Store.addAdapter s adapter) _ _).
  assert (Hs1 : syncAdapters s1 = syncAdapters (Store.addAdapter s adapter)) by done.
  clearbody s1.
  destruct (pull adapter) as [incoming|]; [|done].
  destruct (truthy incoming); [|done].
  destruct (Store.failsValidation s1 adapter incoming); [done|].
  destruct (Store.mergedWith s1 adapter incoming) as [s2 merged] eqn:Hm.
  assert (Hs2 : syncAdapters s2 = syncAdapters s1).
  { unfold Store.mergedWith in Hm. destruct (merge adapter) as [f|].
    - destruct (f _ _ _). by inversion Hm.
    - by inversion Hm. }
  destruct (commitState_setup s2 merged SrcSync None true false)
    as [(_ & _ & _ & _ & _ & _ & Ha & _) _].
  destruct (commitState s2 merged SrcSync None true false) as [s3 [[]|e]];
    cbn [fst] in *; congruence.
Qed.

(** X16: the active set is a set: whatever adapters [syncSettings] is called
    with, and however often with the same one, no adapter is registered
    twice, the adapter of the call is registered when the call ends
    (returned or thrown), and the adapters registered before stay. *)
Theorem syncSettings_registers_once s adapter :
  NoDup (map adapterId (syncAdapters s)) ->
  let s' := fst (Store.syncSettings s adapter) in
  NoDup (map adapterId (syncAdapters s')) /\
  In (adapterId adapter) (map adapterId (syncAdapters s')) /\
  (forall a, In a (syncAdapters s) -> In a (syncAdapters s')) /\
  (In (adapterId adapter) (map adapterId (syncAdapters s)) ->
   syncAdapters s' = syncAdapters s).
Proof.
  intros Hnd s'. unfold s'. rewrite syncSettings_adapters.
  split_and!.
  - by apply addAdapter_NoDup.
  - apply addAdapter_registers.
  - intros a. apply addAdapter_keeps.
  - intros Hin. unfold Store.addAdapter.
    destruct (existsb _ (syncAdapters s)) eqn:Hex; [done|].
    apply in_map_iff in Hin as (a & Heq & Ha).
    assert (Htrue : existsb (fun a => Nat.eqb (adapterId a) (adapterId adapter))
                      (syncAdapters s) = true).
    { apply existsb_exists. exists a. split; [done|]. by apply Nat.eqb_eq. }
    congruence.
Qed.

Lemma syncSettings_registers_once_witness :
  map adapterId
    (syncAdapters (fst (Store.syncSettings busyStore quietAdapter))) = [3; 2].
Proof.
  destruct (syncSettings_registers_once busyStore quietAdapter) as (_ & _ & _ & H).
  - vm_compute. apply NoDup_cons. split; [|apply NoDup_singleton].
    intros Hin. apply list_elem_of_singleton in Hin. discriminate Hin.
  - rewrite H; [reflexivity|]. vm_compute. right. by left.
Defined.

(** X17: after the stop function of a session has run, the adapter is out of
    the active set (also when another session of the same adapter is
    still running), the other adapters are still in it, no later commit
    pushes to the adapter, and every tree its feed still delivers to that
    session is ignored, valid or not. *)
Theorem stopSync_law s adapter session :
  let s' := Store.stopSync s adapter session in
  ~ In (adapterId adapter) (map adapterId (syncAdapters s')) /\
  (forall a, In a (syncAdapters s) -> adapterId a <> adapterId adapter ->
             In a (syncAdapters s')) /\
  (forall incoming, Store.inbound s' adapter session incoming = (s', Returned tt)) /\
  (forall nextState src d optPersist optSync st,
     In (EPush (adapterId adapter) st)
        (trace (fst (commitState s' nextState src d optPersist optSync))) ->
     In (EPush (adapterId adapter) st) (trace s)).
Proof.
  intros s'.
  assert (Hads : syncAdapters s'
                 = List.filter (fun a => negb (Nat.eqb (adapterId a) (adapterId adapter)))
                     (syncAdapters s)).
  { unfold s', Store.stopSync. by destruct (subscribe adapter) as [[|]|]. }
  assert (Hstop : stoppedSessions s' = session :: stoppedSessions s).
  { unfold s', Store.stopSync. by destruct (subscribe adapter) as [[|]|]. }
  assert (Hout : ~ In (adapterId adapter) (map adapterId (syncAdapters s'))).
  { rewrite Hads. intros Hin. apply in_map_iff in Hin as (a & Heq & Ha).
    apply filter_In in Ha as [_ Ha]. rewrite Heq, Nat.eqb_refl in Ha. done. }
  split_and!.
  - exact Hout.
  - intros a Ha Hne. rewrite Hads. apply filter_In. split; [done|].
    apply negb_true_iff, Nat.eqb_neq. done.
  - intros incoming. unfold Store.inbound. rewrite Hstop. cbn [existsb].
    by rewrite Nat.eqb_refl.
  - intros nextState src d optPersist optSync st Hin.
    apply commitState_emits in Hin
      as [Hin|[(_ & _ & Hin)|[(_ & a & Ha & Hin)|[(_ & Hin)|(l' & _ & Hin)]]]];
      try discriminate Hin.
    + unfold s', Store.stopSync in Hin.
      destruct (subscribe adapter) as [[|]|]; cbn in Hin; try done.
      apply in_app_or in Hin as [Hin|[Hin|[]]]; [done | discriminate Hin].
    + injection Hin as Hid _. exfalso. apply Hout. rewrite Hid. by apply in_map.
Qed.

(** ** Merging a tree into an equal one *)

Lemma alike_extends h h' x :
  extends h h' -> validIn (length h) x -> alike h x h' x.
Proof.
  intros Hext Hx. unfold alike. rewrite (extends_deref h h' x Hext Hx).
  by destruct (deref h x) as [[fs|items]|].
Qed.

Lemma getParts_valid h v keys :
  wellFormed h -> validIn (length h) v -> validIn (length h) (getParts h v keys).
Proof.
  intros Hwf. revert v. induction keys as [|k keys IH]; intros v Hv; [done|].
  cbn [getParts].
  destruct (negb (isObject h v) || negb (hasField (fieldsOf h v) k)); [done|].
  apply IH. by apply readProp_valid.
Qed.

Lemma getParts_of_undefined h keys : getParts h VUndefined keys = VUndefined.
Proof. by destruct keys. Qed.

(** Equal trees hold equal trees at every key. *)
Lemma sameReads_child h l r key :
  sameReads h l h r ->
  sameReads h (readProp h l key) h (readProp h r key).
Proof.
  intros Hsame keys. pose proof (Hsame (key :: keys)) as Hk.
  rewrite !getParts_cons in Hk. unfold readProp, readField.
  destruct (getField (fieldsOf h l) key) as [x|],
           (getField (fieldsOf h r) key) as [y|];
    rewrite ?getParts_of_undefined; done.
Qed.

Lemma alike_refl h x : alike h x h x.
Proof. unfold alike. by destruct (deref h x) as [[fs|items]|]. Qed.

(** Two objects with the same contents are equal trees. *)
Lemma sameReads_twin h a b o :
  h !! a = Some o -> h !! b = Some o -> sameReads h (VRef a) h (VRef b).
Proof.
  intros Ha Hb [|k keys].
  - unfold alike. cbn. rewrite Ha, Hb. by destruct o.
  - cbn [getParts]. unfold isObject, readProp, fieldsOf. cbn [deref].
    rewrite Ha, Hb.
    destruct (negb match o with OObj _ => true | OArr _ => false end
              || negb (hasField match o with OObj fs => fs | OArr _ => [] end k));
      apply alike_refl.
Qed.

(** Merging a tree into an equal one yields an equal tree. *)
Lemma deepMergeNode_same_reads h base incoming d fuel h' merged :
  wellFormed h ->
  validIn (length h) base -> validIn (length h) incoming ->
  nesting d h incoming = true -> d < fuel ->
  deepMergeNode fuel h base incoming = Some (h', merged) ->
  sameReads h base h incoming ->
  sameReads h base h' merged.
Proof.
  intros Hwf Hb Hi Hnest Hd Hrun Hsame.
  destruct (deepMergeNode_law fuel d h h base incoming
              Hwf (extends_refl h) Hb Hi Hnest Hd)
    as (h1 & res & Hrun1 & Hext & Hspec).
  rewrite Hrun1 in Hrun. inversion Hrun; subst h1 res. clear Hrun Hrun1.
  pose proof (Hspec h' (fun a _ _ => eq_refl)) as Hm. clear Hspec.
  assert (Hgen : forall rest pre l r,
             mergeVisits h base incoming pre l r ->
             sameReads h l h r ->
             alike h (getParts h l rest) h' (getParts h' merged (pre ++ rest))).
  { induction rest as [|key rest IH]; intros pre l r Hv Hlr;
      destruct (Hm pre l r Hv) as [S1 S2];
      destruct (mergeVisits_valid h base incoming pre l r Hwf Hv Hb Hi)
        as [Hlv Hrv];
      pose proof (Hlr []) as Hroot; cbn [getParts] in Hroot.
    - rewrite app_nil_r. cbn [getParts].
      unfold alike in Hroot |- *.
      destruct (deref h l) as [[fs|xs]|] eqn:Hdl,
               (deref h r) as [[gs|ys]|] eqn:Hdr; try done.
      + assert (Hboth : bothObjects h l r).
        { unfold bothObjects, isObject. by rewrite Hdl, Hdr. }
        destruct (S2 Hboth) as [Hobj _]. unfold isObject in Hobj.
        by destruct (deref h' (getParts h' merged pre)) as [[?|?]|].
      + assert (Hnot : ~ bothObjects h l r).
        { intros [Hlo _]. unfold isObject in Hlo. by rewrite Hdl in Hlo. }
        specialize (S1 Hnot). unfold adopts in S1. rewrite Hdr in S1.
        destruct S1 as (a & -> & _ & Ha). cbn [deref]. by rewrite Ha.
      + assert (Hnot : ~ bothObjects h l r).
        { intros [Hlo _]. unfold isObject in Hlo. by rewrite Hdl in Hlo. }
        specialize (S1 Hnot). unfold adopts in S1. rewrite Hdr in S1.
        rewrite S1, <- Hroot.
        replace (deref h' l) with (deref h l)
          by (symmetry; by apply extends_deref).
        by rewrite Hdl.
    - destruct (isObject h l) eqn:Hlo; [destruct (isObject h r) eqn:Hro|].
      + change (key :: rest) with ([key] ++ rest). rewrite app_assoc.
        assert (Hl : getParts h l ([key] ++ rest)
                     = getParts h (readProp h l key) rest).
        { cbn [app]. rewrite getParts_cons. unfold readProp, readField.
          destruct (getField (fieldsOf h l) key); [done|].
          destruct rest; [done | by rewrite getParts_undefined]. }
        rewrite Hl.
        destruct (getField (fieldsOf h r) key) as [v|] eqn:Hk.
        * apply (IH (pre ++ [key]) (readProp h l key) v).
          -- by apply (mergeVisits_snoc h base incoming pre l r key v).
          -- assert (Hv' : v = readProp h r key)
               by (unfold readProp, readField; by rewrite Hk).
             rewrite Hv'. by apply sameReads_child.
        * destruct (S2 (conj Hlo Hro)) as [_ Hkept].
          rewrite getParts_app, (Hkept key Hk).
          rewrite (getParts_extends h h') by (try done; by apply readProp_valid).
          apply alike_extends; [done|].
          apply getParts_valid; [done | by apply readProp_valid].
      + unfold alike in Hroot. unfold isObject in Hlo, Hro.
        by destruct (deref h l) as [[?|?]|], (deref h r) as [[?|?]|].
      + assert (Hnot : ~ bothObjects h l r) by (intros [? _]; congruence).
        assert (Hro : isObject h r = false).
        { unfold alike in Hroot. unfold isObject in Hlo |- *.
          by destruct (deref h l) as [[?|?]|], (deref h r) as [[?|?]|]. }
        rewrite getParts_app.
        rewrite (adopts_below h h' (length h) r _ (key :: rest)); try done;
          [|by apply S1].
        cbn [getParts]. rewrite Hlo, Hro. by cbn. }
  intros keys. apply (Hgen keys [] base incoming); [constructor | done].
Qed.

(** C2 (amended): for every store (its heap well formed, its objects with
    ordinary keys), [importSettings] with strategy "merge" and an incoming
    tree equal to the current state (alike at every path: the same
    primitive, a mapping where there is a mapping, a sequence with the
    same elements) ends with a state that is equal to the former one in
    that sense but is a newly built object; so the call, when it returns,
    returns [applied = true] with no conflicts, having made one full
    commit: the save, the pushes, the state-change event and the
    subscriber notifications. *)
Theorem importSettings_merge_same_tree fuel d s candidate options :
  wellFormed (heapOf s) -> ordinaryHeap (heapOf s) ->
  validIn (length (heapOf s)) (Store.getState s) ->
  isObject (heapOf s) candidate = true ->
  Store.optStrategy options = Some Store.Merge ->
  (forall ok, Store.optValidate options = Some ok ->
              ok (heapOf s) candidate = true) ->
  nesting d (heapOf s) candidate = true -> d < fuel ->
  sameReads (heapOf s) (Store.getState s) (heapOf s) candidate ->
  exists s' c,
    Store.importSettings fuel s candidate options = Some (s', c) /\
    sameReads (heapOf s) (Store.getState s) (heapOf s') (Store.getState s') /\
    Store.getState s' <> Store.getState s /\
    (forall r, c = Returned r ->
       Store.applied r = true /\ Store.conflicts r = [] /\
       trace s' = trace s ++ commitCalls s SrcImport (Store.getState s') None).
Proof.
  intros Hwf _ Hst Hobj Hstrat Hvalid Hnest Hd Hsame.
  unfold Store.getState in *.
  pose proof (isObject_valid _ _ Hobj) as Hcand.
  unfold Store.importSettings. rewrite Hobj, Hstrat. cbn [negb].
  assert (Hv : match Store.optValidate options with
               | Some ok => negb (ok (heapOf s) candidate)
               | None => false
               end = false).
  { destruct (Store.optValidate options) as [ok|]; [|done].
    by rewrite (Hvalid ok eq_refl). }
  rewrite Hv.
  destruct (deepMergeNode_law fuel d (heapOf s) (heapOf s) (state s) candidate
              Hwf (extends_refl _) Hst Hcand Hnest Hd)
    as (h' & next & Hrun & _).
  unfold deepMerge. rewrite Hrun.
  pose proof (deepMergeNode_same_reads _ _ _ _ _ _ _ Hwf Hst Hcand Hnest Hd
                Hrun Hsame) as Hreads.
  apply deepMergeNode_fresh in Hrun as Hfresh; [|by left].
  assert (Hne : next <> state s).
  { rewrite Hfresh. intros Heq. rewrite <- Heq in Hst. cbn in Hst. lia. }
  cbn [state withHeap]. unfold objectIs.
  rewrite bool_decide_eq_false_2 by done. cbn [negb].
  pose proof (commitState_setup (withHeap s h') next SrcImport None true true)
    as [(Hh & _) Hstate].
  destruct (commitState (withHeap s h') next SrcImport None true true)
    as [s2 [[]|e]] eqn:Hcommit; cbn [fst] in *; eexists _, _;
    (split; [reflexivity|]); rewrite Hh, Hstate; cbn [heapOf withHeap];
    (split_and!; [done | done |]); intros r Hr; [|done].
  injection Hr as <-. cbn. split_and!; try done.
  by destruct (commitState_returned (withHeap s h') next SrcImport None s2
                 Hne Hcommit) as (_ & Htr & _).
Qed.

Lemma importSettings_merge_same_tree_witness :
  exists s' c,
    Store.importSettings 2 equalStore (VRef 1) (withStrategy Store.Merge)
    = Some (s', c) /\
    Store.getState s' <> Store.getState equalStore /\
    alike equalHeap (VNum 1) (heapOf s')
      (getParts (heapOf s') (Store.getState s') ["x"]).
Proof.
  destruct (importSettings_merge_same_tree 2 1 equalStore (VRef 1)
              (withStrategy Store.Merge))
    as (s' & c & Hrun & Hreads & Hnew & _).
  - unfold equalStore. cbn. unfold equalHeap, wellFormed.
    repeat (apply Forall_cons; split;
      [cbn; split; [apply NoDup_singleton | by repeat constructor]|]).
    apply Forall_nil_2.
  - unfold equalStore. cbn. unfold equalHeap, ordinaryHeap, keysOf.
    repeat (apply Forall_cons; split;
      [cbn; repeat (apply Forall_cons; split; [reflexivity|]); apply Forall_nil_2|]).
    apply Forall_nil_2.
  - cbn. lia.
  - reflexivity.
  - reflexivity.
  - intros ok Hok. discriminate Hok.
  - reflexivity.
  - lia.
  - by apply (sameReads_twin equalHeap 0 1 (OObj [("x", VNum 1)])).
  - exists s', c. split_and!; [exact Hrun | exact Hnew |].
    apply (Hreads ["x"]).
Defined.

(** ** Import, by strategy *)

(** X15: an import of a candidate that passes the checks (a plain object,
    accepted by the validator if there is one; the heap well formed, its
    objects with ordinary keys, and the recursion given more fuel than
    the candidate is deep) ends, and
    whether its commit returned or threw, the store then reads as the
    strategy says: with "replace" the candidate object itself is the
    state; with "merge" every defined primitive value of the candidate is
    read at its path; with "skip-conflicts" every defined value of the
    former state that is not a mapping is still read at its path. *)
Theorem importSettings_by_strategy fuel d s candidate options :
  wellFormed (heapOf s) -> ordinaryHeap (heapOf s) ->
  validIn (length (heapOf s)) (state s) ->
  isObject (heapOf s) candidate = true ->
  (forall ok, Store.optValidate options = Some ok ->
              ok (heapOf s) candidate = true) ->
  nesting d (heapOf s) candidate = true -> d < fuel ->
  exists s' c,
    Store.importSettings fuel s candidate options = Some (s', c) /\
    match Store.optStrategy options with
    | Some Store.Merge =>
        forall keys x,
          getParts (heapOf s) candidate keys = x ->
          x <> VUndefined -> deref (heapOf s) x = None ->
          getParts (heapOf s') (Store.getState s') keys = x
    | Some Store.SkipConflicts =>
        forall keys x,
          getParts (heapOf s) (Store.getState s) keys = x ->
          x <> VUndefined -> isObject (heapOf s) x = false ->
          getParts (heapOf s') (Store.getState s') keys = x
    | _ => Store.getState s' = candidate /\ heapOf s' = heapOf s
    end.
Proof.
  intros Hwf _ Hst Hobj Hvalid Hnest Hd.
  pose proof (isObject_valid _ _ Hobj) as Hcand.
  unfold Store.importSettings. rewrite Hobj. cbn [negb].
  assert (Hv : match Store.optValidate options with
               | Some ok => negb (ok (heapOf s) candidate)
               | None => false
               end = false).
  { destruct (Store.optValidate options) as [ok|]; [|done].
    by rewrite (Hvalid ok eq_refl). }
  rewrite Hv.
  assert (Hcommit : forall h' nextState cs strat,
            exists s' c,
              (let s1 := withHeap s h' in
               let isApplied := negb (objectIs nextState (state s1)) in
               let '(s2, committed) :=
                 if isApplied
                 then commitState s1 nextState SrcImport None true true
                 else (s1, Returned tt) in
               match committed with
               | Threw e => Some (s2, Threw e)
               | Returned _ =>
                   Some (s2, Returned {| Store.applied := isApplied;
                                         Store.strategyUsed := strat;
                                         Store.conflicts := cs |})
               end) = Some (s', c) /\
              Store.getState s' = nextState /\ heapOf s' = h').
  { intros h' nextState cs strat. cbv zeta.
    destruct (objectIs nextState (state (withHeap s h'))) eqn:Hsame; cbn [negb].
    - eexists _, _. split; [done|]. split; [|done].
      unfold objectIs in Hsame. apply bool_decide_eq_true_1 in Hsame.
      by rewrite Hsame.
    - destruct (commitState_setup (withHeap s h') nextState SrcImport None true true)
        as [(Hh & _) Hs].
      destruct (commitState (withHeap s h') nextState SrcImport None true true)
        as [s2 [[]|e]]; cbn [fst] in *; eexists _, _; by split_and!. }
  destruct (Store.optStrategy options) as [[| |]|].
  - destruct (Hcommit (heapOf s) candidate [] Store.Replace) as (s' & c & Hrun & H1 & H2).
    exists s', c. by split_and!.
  - destruct (deepMergeNode_law fuel d (heapOf s) (heapOf s) (state s) candidate
                Hwf (extends_refl _) Hst Hcand Hnest Hd)
      as (h' & next & Hrun & _).
    unfold deepMerge. rewrite Hrun.
    destruct (Hcommit h' next [] Store.Merge) as (s' & c & Hrun' & H1 & H2).
    exists s', c. split; [done|]. intros keys x Hx Hdef Hprim. rewrite H1, H2.
    by apply (deepMergeNode_incoming_wins (heapOf s) (state s) candidate d fuel
                h' next keys x).
  - destruct (skipMergeNode_law fuel d (heapOf s) (heapOf s) [] (state s) candidate EmptyString
                Hwf (extends_refl _) Hst Hcand Hnest Hd)
      as (h' & new & next & Hrun & _).
    unfold mergeSkippingConflicts. rewrite Hrun.
    destruct (Hcommit h' next ([] ++ new) Store.SkipConflicts)
      as (s' & c & Hrun' & H1 & H2).
    exists s', c. split; [done|]. intros keys x Hx Hdef Hleaf. rewrite H1, H2.
    by apply (skipMergeNode_keeps_current (heapOf s) (state s) candidate d fuel
                h' next ([] ++ new) keys x).
  - destruct (Hcommit (heapOf s) candidate [] Store.Replace) as (s' & c & Hrun & H1 & H2).
    exists s', c. by split_and!.
Qed.

Lemma importSettings_by_strategy_witness :
  exists s' c,
    Store.importSettings 3 demoStore (VRef 3) (withStrategy Store.Merge)
    = Some (s', c) /\
    getParts (heapOf s') (Store.getState s') ["appearance"; "theme"]
    = VStr "light".
Proof.
  destruct (importSettings_by_strategy 3 2 demoStore (VRef 3)
              (withStrategy Store.Merge) demoHeap_wellFormed demoHeap_ordinary)
    as (s' & c & Hrun & Hreads).
  - cbn. lia.
  - reflexivity.
  - intros ok Hok. discriminate Hok.
  - reflexivity.
  - lia.
  - exists s', c. split; [exact Hrun|].
    apply Hreads; [reflexivity | discriminate | reflexivity].
Defined.

(** ** Action dispatcher *)

Lemma runHandler_sameStore hd : forall s, sameStore s (fst (runHandler s hd)).
Proof.
  assert (Htrans : forall s1 s2 s3, sameStore s1 s2 -> sameStore s2 s3 ->
                                    sameStore s1 s3).
  { intros s1 s2 s3 (A1 & A2 & A3 & A4 & A5) (B1 & B2 & B3 & B4 & B5).
    split_and!; try congruence. by eapply extends_trans. }
  assert (Hcommit : forall s next src d,
            sameStore s (fst (commitState s next src d true true))).
  { intros s next src d.
    destruct (commitState_setup s next src d true true)
      as [(Hh & Hi & Hp & _ & _ & Hl & Ha & _) _].
    split_and!; try done. rewrite Hh. apply extends_refl. }
  induction hd as [|e|fields k IH|k IH|path k IH|path v k IH|next k IH|k IH];
    intros s; cbn [runHandler].
  - split_and!; try done.
  - split_and!; try done.
  - cbn [alloc]. eapply Htrans; [|apply IH].
    split_and!; try done. apply extends_alloc.
  - apply IH.
  - apply IH.
  - pose proof (set_setup s path v) as (H1 & H2 & H3 & H4 & H5 & H6).
    cbv zeta in *. destruct (Store.set s path v) as [s1 c]. cbn [fst] in *.
    eapply Htrans; [|apply IH]. by split_and!.
  - pose proof (Hcommit s next SrcSetState None) as Hc.
    fold (Store.setState s next) in Hc.
    destruct (Store.setState s next) as [s1 c]. cbn [fst] in *.
    eapply Htrans; [exact Hc | apply IH].
  - pose proof (Hcommit s (initialState s) SrcReset None) as Hc.
    fold (Store.reset s) in Hc.
    destruct (Store.reset s) as [s1 c]. cbn [fst] in *.
    eapply Htrans; [exact Hc | apply IH].
Qed.

(** X19: [dispatch] of a type that is an ordinary name and has no
    registered handler throws and leaves the store as it was, with
    [onAction] not called.  Whatever a
    registered handler does through its context, the initial snapshot,
    the persistence adapter, the subscribers, the sync adapters and every
    tree that existed stay as they were; a handler that rejects makes
    [dispatch] reject with the same error, the commits it made before
    staying in place; [onAction] is called only after a handler that
    fulfilled, once, with the state the handler left. *)
Theorem dispatch_law actions withOnAction s type payload :
  ordinaryKey type ->
  let r := dispatch actions withOnAction s type payload in
  let s' := fst (fst r) in
  initialState s' = initialState s /\ persistence s' = persistence s /\
  listeners s' = listeners s /\ syncAdapters s' = syncAdapters s /\
  extends (heapOf s) (heapOf s') /\
  match match actions with
        | Some registered => findAction registered type
        | None => None
        end with
  | None => s' = s /\ (exists e, snd (fst r) = Threw e) /\ snd r = []
  | Some action =>
      s' = fst (runHandler s (action payload)) /\
      snd (fst r) = snd (runHandler s (action payload)) /\
      snd r = match snd (runHandler s (action payload)) with
              | Returned _ =>
                  if withOnAction
                  then [{| actionType := type; actionPayload := payload;
                           actionState := Store.getState s' |}]
                  else []
              | Threw _ => []
              end
  end.
Proof.
  intros _. cbv zeta. unfold dispatch.
  destruct (match actions with
            | Some registered => findAction registered type
            | None => None
            end) as [action|].
  - pose proof (runHandler_sameStore (action payload) s) as Hsame.
    destruct (runHandler s (action payload)) as [s1 [[]|e]]; cbn [fst snd] in *;
      destruct Hsame as (H1 & H2 & H3 & H4 & H5); by split_and!.
  - cbn [fst snd]. split_and!; try done; try apply extends_refl; by eexists.
Qed.

Lemma dispatch_law_witness :
  let r := dispatch (Some [("toggleNotifications", toggleNotifications)]) true
             demoStore "missing-action" VUndefined in
  fst (fst r) = demoStore /\ snd r = [].
Proof.
  destruct (dispatch_law (Some [("toggleNotifications", toggleNotifications)])
              true demoStore "missing-action" VUndefined eq_refl)
    as (_ & _ & _ & _ & _ & H).
  vm_compute in H. destruct H as (H1 & _ & H3). by split.
Defined.

(** The repository's test "dispatches custom actions for external
    architecture", and its scenario of an unknown action. *)
Example dispatch_demo :
  let r := dispatch (Some [("toggleNotifications", toggleNotifications)]) true
             demoStore "toggleNotifications" VUndefined in
  snd (fst r) = Returned tt /\
  Store.get (fst (fst r)) "notifications.enabled" = VBool false /\
  snd r = [{| actionType := "toggleNotifications"; actionPayload := VUndefined;
              actionState := VRef 9 |}] /\
  dispatch (Some [("toggleNotifications", toggleNotifications)]) true
    demoStore "missing-action" VUndefined
  = (demoStore,
     Threw ("No action registered for " ++ doubleQuote ++ "missing-action"
            ++ doubleQuote ++ ".")%string, []).
Proof. vm_compute. by split_and!. Qed.

(** ** Persistence adapters *)

Lemma memoryAfter_app m t1 t2 :
  memoryAfter m (t1 ++ t2) = memoryAfter (memoryAfter m t1) t2.
Proof. unfold memoryAfter. apply fold_left_app. Qed.

Lemma memoryAfter_quiet m t :
  (forall e, In e t -> forall st, e <> ESave st) -> memoryAfter m t = m.
Proof.
  revert m. induction t as [|e t IH]; intros m Hq; [done|].
  cbn. destruct e as [st| | | | | |];
    try (apply IH; intros e' He'; apply Hq; by right).
  exfalso. by apply (Hq (ESave st) (or_introl eq_refl) st).
Qed.

Lemma memoryAfter_emit m s e :
  memoryAfter m (trace (emit s e))
  = match e with ESave st => st | _ => memoryAfter m (trace s) end.
Proof.
  unfold emit. cbn [trace withTrace]. rewrite memoryAfter_app. by destruct e.
Qed.

Lemma syncPushEach_memory adapters : forall s st m,
  memoryAfter m (trace (fst (syncPushEach s adapters st)))
  = memoryAfter m (trace s).
Proof.
  induction adapters as [|a rest IH]; intros s st m; cbn [syncPushEach]; [done|].
  pose proof (memoryAfter_emit m s (EPush (adapterId a) st)) as Hemit.
  destruct (push a st) as [|e|e]; rewrite ?IH; exact Hemit.
Qed.

(** After a commit that saves, the memory holds the current state. *)
Lemma commitState_memory s nextState src d optSync m pa :
  persistence s = Some pa ->
  nextState <> state s ->
  memoryAfter m (trace (fst (commitState s nextState src d true optSync)))
  = nextState.
Proof.
  intros Hp Hne. unfold commitState, objectIs.
  rewrite bool_decide_eq_false_2 by done.
  set (s2 := persist (withState s nextState) nextState).
  assert (H2 : memoryAfter m (trace s2) = nextState).
  { unfold s2, persist. cbn [persistence withState]. rewrite Hp.
    by rewrite memoryAfter_emit. }
  set (r := if optSync then syncPush s2 nextState else (s2, Returned tt)).
  assert (H3 : memoryAfter m (trace (fst r)) = nextState).
  { unfold r, syncPush. destruct optSync; [|done].
    by rewrite syncPushEach_memory. }
  destruct r as [s3 [[]|e]]; cbn [fst] in *; [|done].
  unfold notify. cbn [trace withTrace]. rewrite memoryAfter_app.
  rewrite (memoryAfter_quiet _ (map ENotify _)).
  2:{ intros e He st. apply in_map_iff in He as (l & <- & _). discriminate. }
  destruct (onStateChange s3); [|done].
  by rewrite memoryAfter_emit.
Qed.

Lemma set_inStep seed s path v pa :
  persistence s = Some pa ->
  inStep seed s -> inStep seed (fst (Store.set s path v)).
Proof.
  intros Hp Hin. unfold Store.set.
  assert (Hnext : snd (setByPath (heapOf s) (state s) path v) = state s \/
                  truthy (snd (setByPath (heapOf s) (state s) path v)) = true).
  { unfold setByPath. destruct (parsePath path); [by left | by right]. }
  destruct (setByPath (heapOf s) (state s) path v) as [h1 nextState].
  cbn [snd] in Hnext.
  destruct (objectIs (getByPath (heapOf s) (state s) path) v); [exact Hin|].
  set (d := Some (path, v, getByPath (heapOf s) (state s) path)).
  destruct Hnext as [->|Hnext].
  - unfold commitState, objectIs. cbn [state withHeap].
    rewrite bool_decide_eq_true_2 by done.
    destruct (onChange (withHeap s h1)); cbn [fst]; [|exact Hin].
    unfold inStep in *. rewrite memoryAfter_emit. exact Hin.
  - destruct (decide (nextState = state s)) as [->|Hne].
    + unfold commitState, objectIs. cbn [state withHeap].
      rewrite bool_decide_eq_true_2 by done.
      destruct (onChange (withHeap s h1)); cbn [fst]; [|exact Hin].
      unfold inStep in *. rewrite memoryAfter_emit. exact Hin.
    + pose proof (commitState_memory (withHeap s h1) nextState SrcSet d true
                    seed pa Hp Hne) as Hmem.
      destruct (commitState_setup (withHeap s h1) nextState SrcSet d true true)
        as [_ Hst].
      destruct (commitState (withHeap s h1) nextState SrcSet d true true)
        as [s2 [[]|e]]; cbn [fst] in *.
      * left. destruct (onChange s2); cbn [fst]; rewrite ?memoryAfter_emit;
          cbn [state emit withTrace]; by rewrite Hmem, Hst.
      * left. by rewrite Hmem, Hst.
Qed.

Lemma setMany_inStep seed calls : forall s pa,
  persistence s = Some pa ->
  inStep seed s ->
  inStep seed (setMany s calls) /\
  initialState (setMany s calls) = initialState s.
Proof.
  induction calls as [|[path v] calls IH]; intros s pa Hp Hin; [done|].
  cbn [setMany].
  destruct (set_setup s path v) as (Hi & Hp' & _).
  destruct (IH (fst (Store.set s path v)) pa) as [H1 H2].
  - by rewrite Hp'.
  - by apply (set_inStep seed s path v pa).
  - split; [done | congruence].
Qed.

(** X20: what one store commits through [set], the next store starts from:
    construct a store on a memory adapter, run any [set] calls, then
    construct a second store with the same initial tree on the adapter as
    the calls left it; the second store's state is the first one's. *)
Theorem memory_persistence_round_trip h initial seed c sc calls h2 c2 sc2 :
  let s1 := setMany (createSettingsStore h initial
                       (Some (createMemorySettingsPersistence seed)) c sc)
              calls in
  let memory := memoryAfter seed (trace s1) in
  Store.getState
    (createSettingsStore h2 initial
       (Some (createMemorySettingsPersistence memory)) c2 sc2)
  = Store.getState s1.
Proof.
  cbv zeta.
  set (s0 := createSettingsStore h initial
               (Some (createMemorySettingsPersistence seed)) c sc).
  set (s1 := setMany s0 calls).
  assert (H0 : inStep seed s0).
  { unfold inStep, s0, createSettingsStore. cbn.
    destruct (truthy seed) eqn:Hs; [by left | by right]. }
  destruct (setMany_inStep seed calls s0 (createMemorySettingsPersistence seed))
    as [Hstep Hinit]; [done | done |].
  fold s1 in Hstep, Hinit.
  assert (Hnew : forall m, state (createSettingsStore h2 initial
                     (Some (createMemorySettingsPersistence m)) c2 sc2)
                   = if truthy m then m else initial) by done.
  unfold Store.getState. rewrite Hnew.
  destruct Hstep as [[Hm Ht]|(Hm & Ht & Hst)]; rewrite Hm.
  - by rewrite Ht.
  - by rewrite Ht, Hst, Hinit.
Qed.

Lemma getItem_setItem storage key v :
  getItem (setItem storage key v) key = Some v.
Proof.
  induction storage as [|[k v'] rest IH]; cbn.
  - by rewrite String.eqb_refl.
  - destruct (String.eqb k key) eqn:E; cbn; by rewrite E.
Qed.

Lemma getItem_setItem_other storage key key' v :
  key <> key' -> getItem (setItem storage key v) key' = getItem storage key'.
Proof.
  intros Hne. induction storage as [|[k v'] rest IH]; cbn.
  - destruct (String.eqb key key') eqn:E; [|done].
    apply String.eqb_eq in E. done.
  - destruct (String.eqb k key) eqn:E; cbn; [|by rewrite IH].
    apply String.eqb_eq in E. subst k.
    destruct (String.eqb key key') eqn:E'; [|done].
    apply String.eqb_eq in E'. done.
Qed.

(** X21: with a window, what the localStorage adapter saves under its key it
    loads back through the codec, except that an empty serialization, a
    decoder that throws and a decoder that returns [null] all load as
    [null]; entries under other keys are not affected; without a window
    [save] stores nothing and [load] yields [null]. *)
Theorem localStorage_save_then_load (T : Type) (serialize : T -> string)
  (deserialize : string -> completion (option T)) storage key st :
  readFromStorage T deserialize
    (saveToStorage T serialize (Some storage) key st) key
  = (if nonEmpty (serialize st)
     then match deserialize (serialize st) with
          | Returned x => x
          | Threw _ => None
          end
     else None) /\
  (forall key', key <> key' ->
     readFromStorage T deserialize
       (saveToStorage T serialize (Some storage) key st) key'
     = readFromStorage T deserialize (Some storage) key') /\
  readFromStorage T deserialize (saveToStorage T serialize None key st) key
  = None.
Proof.
  unfold readFromStorage, saveToStorage. split_and!.
  - rewrite getItem_setItem. by destruct (nonEmpty (serialize st)).
  - intros key' Hne. by rewrite getItem_setItem_other.
  - done.
Qed.

(** ** Reading after writing through the store *)

Lemma getByPath_extends h h' v path :
  wellFormed h -> extends h h' -> validIn (length h) v ->
  getByPath h' v path = getByPath h v path.
Proof.
  intros Hwf Hext Hv. unfold getByPath.
  destruct (parsePath path); [done|]. by apply getParts_extends.
Qed.

(** X25: the store reads its own writes, and a write touches its path
    only: after [set(path, v)] on a state that is a plain object, through
    a path with a segment, all of them ordinary names, whether the call
    returned or threw, [get(path)] is [v], and [get] of every path of
    ordinary names that parts ways with the written one is what it was
    before the call. *)
Theorem set_then_get s path v q :
  wellFormed (heapOf s) ->
  isObject (heapOf s) (Store.getState s) = true ->
  parsePath path <> [] -> Forall ordinaryKey (parsePath path) ->
  let s' := fst (Store.set s path v) in
  Store.get s' path = v /\
  (Forall ordinaryKey (parsePath q) ->
   diverge (parsePath path) (parsePath q) -> Store.get s' q = Store.get s q).
Proof.
  intros Hwf Hobj Hne _. cbv zeta.
  unfold Store.get, Store.getState in *. unfold Store.set.
  pose proof (isObject_valid _ _ Hobj) as Hs.
  pose proof (setByPath_reads (heapOf s) (state s) path v Hne) as Hread.
  pose proof (setByPath_frame (heapOf s) (state s) path v) as Hfr.
  pose proof (setByPath_length (heapOf s) (state s) path v) as Hln.
  assert (Hother : diverge (parsePath path) (parsePath q) ->
            getByPath (fst (setByPath (heapOf s) (state s) path v))
              (snd (setByPath (heapOf s) (state s) path v)) q
            = getByPath (heapOf s) (state s) q).
  { intros Hdiv. unfold getByPath, setByPath.
    destruct (parsePath path) as [|p ps] eqn:Hp; [done|].
    destruct (parsePath q) as [|k qs] eqn:Hq; [by inversion Hdiv|].
    cbn [alloc fst snd].
    apply (setParts_other (heapOf s) Hwf (p :: ps)); try done.
    - apply extends_alloc.
    - rewrite list_lookup_middle by done. by rewrite spread_object. }
  destruct (setByPath (heapOf s) (state s) path v) as [h1 nextState].
  cbn [fst snd] in *.
  assert (Hext : extends (heapOf s) h1) by (by split).
  destruct (objectIs (getByPath (heapOf s) (state s) path) v) eqn:Hsame.
  - cbn [fst heapOf state withHeap].
    unfold objectIs in Hsame. apply bool_decide_eq_true_1 in Hsame.
    rewrite !(getByPath_extends (heapOf s) h1) by done. by split.
  - destruct (commitState_setup (withHeap s h1) nextState SrcSet
                (Some (path, v, getByPath (heapOf s) (state s) path)) true true)
      as [(Hh & _) Hst].
    destruct (commitState (withHeap s h1) nextState SrcSet _ true true)
      as [s2 [[]|err]]; cbn [fst] in *;
      [destruct (onChange s2)|]; cbn [heapOf state emit withTrace];
      rewrite ?Hh, ?Hst; cbn [heapOf withHeap]; by split.
Qed.

Lemma set_then_get_witness :
  let s' := fst (Store.set demoStore "appearance.theme" (VStr "light")) in
  Store.get s' "appearance.theme" = VStr "light" /\
  Store.get s' "notifications.enabled" = VBool true.
Proof.
  destruct (set_then_get demoStore "appearance.theme" (VStr "light")
              "notifications.enabled") as [Hread Hother].
  - apply demoHeap_wellFormed.
  - reflexivity.
  - vm_compute. discriminate.
  - vm_compute. repeat constructor.
  - split; [exact Hread|]. rewrite Hother; [reflexivity | |].
    + vm_compute. repeat constructor.
    + vm_compute. apply diverge_here. discriminate.
Defined.

(** X26: no run of [set] calls changes what a snapshot taken before it
    reads: every tree of the heap, the former state included, reads at
    every path as it did, so [set] never mutates an object it was given
    or has handed out. *)
Theorem snapshots_survive_sets s calls old q :
  wellFormed (heapOf s) -> validIn (length (heapOf s)) old ->
  getByPath (heapOf (setMany s calls)) old q = getByPath (heapOf s) old q.
Proof.
  intros Hwf Hold.
  destruct (setMany_setup calls s) as (_ & Hlen & Hframe).
  by apply getByPath_extends.
Qed.

Lemma snapshots_survive_sets_witness :
  getByPath
    (heapOf (setMany demoStore [("appearance.theme", VStr "light");
                                ("notifications.enabled", VBool false)]))
    (VRef 0) "appearance.theme"
  = VStr "dark".
Proof.
  rewrite (snapshots_survive_sets demoStore _ (VRef 0) "appearance.theme").
  - reflexivity.
  - apply demoHeap_wellFormed.
  - cbn. lia.
Defined.

(** X27: a [set] that returns, through a path with a segment, all of
    them ordinary names, to a value other than the one read there, has
    made the tree built by [setByPath] the state and made its calls in
    this order: the save, the pushes, the state-change observer (with the
    path, the value and the previous value), the subscribers, and last
    the change observer. *)
Theorem set_pipeline s path v s' :
  validIn (length (heapOf s)) (Store.getState s) ->
  parsePath path <> [] -> Forall ordinaryKey (parsePath path) ->
  Store.get s path <> v ->
  Store.set s path v = (s', Returned tt) ->
  let nextState := snd (setByPath (heapOf s) (state s) path v) in
  Store.getState s' = nextState /\
  trace s' = trace s ++ setCalls s path v /\
  microtasks s' = microtasks s ++ rejections nextState (syncAdapters s).
Proof.
  intros Hs Hne _ Hdiff Hrun. cbv zeta.
  unfold setCalls, Store.get, Store.getState in *.
  unfold Store.set in Hrun.
  assert (Hfresh : snd (setByPath (heapOf s) (state s) path v) <> state s).
  { unfold setByPath. destruct (parsePath path); [done|]. cbn.
    intros Heq. rewrite <- Heq in Hs. cbn in Hs. lia. }
  destruct (setByPath (heapOf s) (state s) path v) as [h1 nextState].
  cbn [fst snd] in *.
  assert (Hsame : objectIs (getByPath (heapOf s) (state s) path) v = false)
    by (by apply bool_decide_eq_false_2).
  rewrite Hsame in Hrun.
  pose proof (commitState_setup (withHeap s h1) nextState SrcSet
                (Some (path, v, getByPath (heapOf s) (state s) path)) true true)
    as [(_ & _ & _ & Hoc & _) _].
  destruct (commitState (withHeap s h1) nextState SrcSet _ true true)
    as [s2 [[]|e]] eqn:Hcommit; [|done].
  destruct (commitState_returned (withHeap s h1) nextState SrcSet _ s2
              Hfresh Hcommit) as (H1 & H2 & H3).
  cbn [fst] in Hoc.
  change (onChange (withHeap s h1)) with (onChange s) in Hoc.
  change (trace (withHeap s h1)) with (trace s) in H2.
  change (microtasks (withHeap s h1)) with (microtasks s) in H3.
  change (syncAdapters (withHeap s h1)) with (syncAdapters s) in H3.
  change (commitCalls (withHeap s h1)) with (commitCalls s) in H2.
  rewrite Hoc in Hrun. injection Hrun as <-.
  destruct (onChange s); cbn [state trace microtasks emit withTrace].
  - rewrite H2, <- app_assoc. by split_and!.
  - rewrite H2, app_nil_r. by split_and!.
Qed.

Lemma set_pipeline_witness :
  exists s',
    Store.set busyStore "x" (VNum 5) = (s', Returned tt) /\
    trace s'
    = [ESave (VRef 2); EPush 3 (VRef 2); EPush 2 (VRef 2);
       EStateChange SrcSet (VRef 2) (VRef 0) (Some ("x", VNum 5, VNum 1));
       ENotify 7; EChange "x" (VNum 5) (VNum 1) (VRef 2)].
Proof.
  exists (fst (Store.set busyStore "x" (VNum 5))). split; [by vm_compute|].
  destruct (set_pipeline busyStore "x" (VNum 5)
              (fst (Store.set busyStore "x" (VNum 5)))) as (_ & H2 & _).
  - cbn. lia.
  - vm_compute. discriminate.
  - vm_compute. repeat constructor.
  - vm_compute. discriminate.
  - by vm_compute.
  - rewrite H2. by vm_compute.
Defined.
